(** * BOUT: the transcription pipeline engine

    A shallow embedding of the chunk planner ([bout/audio/chunker.py]),
    the chunk merger ([bout/transcription/merger.py]), the transcription
    worker ([bout/transcription/engine.py]), the checkpoint store
    ([bout/state/manager.py], [bout/state/models.py]), the orchestrator
    ([bout/pipeline/orchestrator.py]) and the speaker labelling
    ([bout/diarization/engine.py]).

    Conventions.
    - A Python [float] is the rational ([Q]) it denotes; equalities between
      computed times are stated with [Qeq] ([==]).  Where the code adds two
      times that need not be integers (a model time rebased by the start of
      its chunk, the two ends of a segment for its midpoint) the result is
      rounded to binary64 by [round_double]: to nearest, ties to even,
      subnormal numbers included; overflow, NaN and the sign of zero are not
      modelled.  The planner and the boundaries of the merger only add and
      subtract integers and the duration, which is exact below 2^53.
    - Python [int] is [Z], [Optional[T]] is [option T], [Path] is the string
      of the path, [datetime] is an opaque stamp.  A [str] is the [string]
      of the bytes of its UTF-8 encoding.
    - A function that may raise returns a [Result]; a loop that may not
      terminate takes fuel and returns [None] when the fuel runs out. *)

From Stdlib Require Import ZArith QArith Qround Qpower Qabs Lqa Lia List String Ascii.
From stdpp Require Import gmap strings list pretty sorting.

Local Open Scope Z_scope.

(** ** Core types ([bout/core/types.py]) *)

Inductive JobStatus :=
  | JS_PENDING | JS_EXTRACTING | JS_CHUNKING | JS_TRANSCRIBING | JS_MERGING
  | JS_DIARIZING | JS_GENERATING | JS_COMPLETED | JS_FAILED | JS_CANCELLED.

Inductive ChunkStatus := PENDING | PROCESSING | COMPLETED | FAILED.

#[global] Instance JobStatus_eq_dec : EqDecision JobStatus.
Proof. solve_decision. Defined.

#[global] Instance ChunkStatus_eq_dec : EqDecision ChunkStatus.
Proof. solve_decision. Defined.

(** [datetime] values are only stamped, stored and printed. *)
Definition datetime := Z.

Record TranscriptionSegment := mkSegment {
  seg_start : Q;
  seg_end : Q;
  seg_text : string;
  seg_speaker : option string;
}.

Record Chunk := mkChunk {
  index : Z;
  start_time : Q;
  end_time : Q;
  overlap_start : Q;
  file_path : option string;
  status : ChunkStatus;
  text : option string;
  segments : list TranscriptionSegment;
  completed_at : option datetime;
  error : option string;
}.

(** [Chunk(index=.., start_time=.., end_time=.., overlap_start=..)] with the
    dataclass defaults for the other fields. *)
Definition new_chunk (i : Z) (s e o : Q) : Chunk :=
  mkChunk i s e o None PENDING None [] None None.

Definition set_end_time (c : Chunk) (e : Q) : Chunk :=
  mkChunk (index c) (start_time c) e (overlap_start c) (file_path c)
          (status c) (text c) (segments c) (completed_at c) (error c).

Definition set_status (c : Chunk) (s : ChunkStatus) : Chunk :=
  mkChunk (index c) (start_time c) (end_time c) (overlap_start c) (file_path c)
          s (text c) (segments c) (completed_at c) (error c).

(** Comparisons on times. *)
Definition Qltb (x y : Q) : bool := negb (Qle_bool y x).
Definition Qleb (x y : Q) : bool := Qle_bool x y.

(** Python's [min(a, b)]: [b] when [b < a], else [a]. *)
Definition py_min (a b : Q) : Q := if Qltb b a then b else a.

(** ** Python floats

    The finite binary64 numbers are the multiples [m * 2^u] of a power of
    two with [|m| < 2^53] and [-1074 <= u <= 971].  The upper bound on [u]
    is left out here: a result of [2^1024] or more, which is infinite for
    the code, is rounded like the others. *)

Definition pow2 (k : Z) : Q := (2 ^ k)%Q.

(** The integer nearest to [q]; half-way between two integers, the even
    one. *)
Definition round_half_even (q : Q) : Z :=
  let f := Qfloor q in
  match (q - inject_Z f ?= 1 # 2)%Q with
  | Lt => f
  | Gt => f + 1
  | Eq => if Z.even f then f else f + 1
  end.

(** The exponent [u] of the spacing [2^u] of the binary64 numbers around
    [q]: [e - 52] for [2^e <= |q| < 2^(e+1)], and [-1074] in the subnormal
    range [|q| < 2^(-1022)]. *)
Definition ulp_exponent (q : Q) : Z :=
  Z.max (Z.log2 (Qfloor (Qabs q * pow2 1074)) - 1126) (-1074).

(** The binary64 number nearest to [q], ties to even: the value of the
    float that an arithmetic operation with the exact result [q] returns. *)
Definition round_double (q : Q) : Q :=
  let u := ulp_exponent q in
  Qred (inject_Z (round_half_even (q / pow2 u)) * pow2 u).

(** [q] is a binary64 number. *)
Definition is_double (q : Q) : Prop := (round_double q == q)%Q.

(** [a + b] and [a / b] on floats. *)
Definition float_add (a b : Q) : Q := round_double (a + b).
Definition float_div (a b : Q) : Q := round_double (a / b).

#[global] Arguments round_double : simpl never.

(** ** Chunk planner ([AudioChunker.calculate_chunks]) *)

Module AudioChunker.

Record t := mk {
  chunk_duration : Z;
  overlap : Z;
  min_chunk : Z;
}.

(** [chunks[-1].end_time = duration]. *)
Fixpoint set_last_end_time (chunks : list Chunk) (duration : Q) : list Chunk :=
  match chunks with
  | [] => []
  | [c] => [set_end_time c duration]
  | c :: rest => c :: set_last_end_time rest duration
  end.

(** The [while start_time < duration] loop.  One unit of fuel is one test of
    the loop condition. *)
Fixpoint plan_loop (fuel : nat) (self : t) (duration : Q)
    (chunks : list Chunk) (start_time : Q) (index : Z) : option (list Chunk) :=
  match fuel with
  | O => None
  | S fuel' =>
    if Qltb start_time duration then
      let end_time := py_min (start_time + inject_Z (chunk_duration self)) duration in
      let remaining := (duration - start_time)%Q in
      if Qltb remaining (inject_Z (min_chunk self)) && (0 <? index) then
        Some (set_last_end_time chunks duration)
      else
        let overlap_start := if 0 <? index then inject_Z (overlap self) else 0%Q in
        let chunk := new_chunk index start_time end_time overlap_start in
        let effective_step := chunk_duration self - overlap self in
        plan_loop fuel' self duration (chunks ++ [chunk])
                  (start_time + inject_Z effective_step) (index + 1)
    else Some chunks
  end.

(** Enough loop tests for every duration when the step is at least one
    second. *)
Definition plan_fuel (duration : Q) : nat := S (Z.to_nat (Qceiling duration)).

Definition calculate_chunks (self : t) (duration : Q) : option (list Chunk) :=
  if Qleb duration 0 then Some []
  else if Qleb duration (inject_Z (chunk_duration self)) then
    Some [new_chunk 0 0 duration 0]
  else plan_loop (plan_fuel duration) self duration [] 0 0.

End AudioChunker.

(** [ChunkConfig] defaults of [bout/core/config.py]. *)
Definition default_chunker : AudioChunker.t := AudioChunker.mk 300 10 30.

(** *** What the planner promises

    [plan_ok] collects coverage of [[0, duration]] (the plan starts at 0,
    ends at [duration] and leaves no gap between consecutive chunks), dense
    indices, the step between consecutive starts and the leading overlap;
    [min_length_ok] is the lower bound on the length of every chunk. *)

Definition effective_step (self : AudioChunker.t) : Z :=
  AudioChunker.chunk_duration self - AudioChunker.overlap self.

Record plan_ok (self : AudioChunker.t) (duration : Q) (chunks : list Chunk) : Prop := {
  plan_first : (0 < duration)%Q ->
    exists c, head chunks = Some c /\ (start_time c == 0)%Q;
  plan_last : (0 < duration)%Q ->
    exists c, last chunks = Some c /\ (end_time c == duration)%Q;
  plan_indices : forall (i : nat) c, chunks !! i = Some c -> index c = Z.of_nat i;
  plan_starts : forall (i : nat) c c',
    chunks !! i = Some c -> chunks !! S i = Some c' ->
    (start_time c' == start_time c + inject_Z (effective_step self))%Q;
  plan_overlap : forall (i : nat) c, chunks !! i = Some c ->
    (overlap_start c ==
     if Nat.eqb i 0 then 0 else inject_Z (AudioChunker.overlap self))%Q;
  plan_no_gap : forall (i : nat) c c',
    chunks !! i = Some c -> chunks !! S i = Some c' ->
    (start_time c' <= end_time c)%Q;
}.

Definition min_length_ok (self : AudioChunker.t) (chunks : list Chunk) : Prop :=
  forall c, c ∈ chunks ->
    (inject_Z (AudioChunker.min_chunk self) <= end_time c - start_time c)%Q.

(** The loop invariant of [plan_loop] on the chunk at position [i]. *)
Definition chunk_inv (self : AudioChunker.t) (duration : Q) (i : nat) (c : Chunk) : Prop :=
  index c = Z.of_nat i /\
  (start_time c == inject_Z (Z.of_nat i * effective_step self))%Q /\
  overlap_start c = (if Nat.eqb i 0 then 0%Q else inject_Z (AudioChunker.overlap self)) /\
  (start_time c < duration)%Q /\
  (end_time c <= duration)%Q /\
  (py_min (start_time c + inject_Z (AudioChunker.chunk_duration self)) duration
     <= end_time c)%Q /\
  (i <> 0%nat ->
   (inject_Z (AudioChunker.min_chunk self) <= duration - start_time c)%Q).

(** The planner's parameters as the specification constrains them. *)
Definition params_ok (self : AudioChunker.t) : Prop :=
  0 <= AudioChunker.overlap self < AudioChunker.chunk_duration self /\
  0 < AudioChunker.min_chunk self.

(** The planner's contract with the lower bound on chunk lengths owed
    whenever the audio is not shorter than [chunk_duration]. *)
Definition planner_contract (self : AudioChunker.t) (duration : Q) : Prop :=
  params_ok self -> (0 <= duration)%Q ->
  exists chunks,
    AudioChunker.calculate_chunks self duration = Some chunks /\
    plan_ok self duration chunks /\
    (~ (duration < inject_Z (AudioChunker.chunk_duration self))%Q ->
     min_length_ok self chunks).

(** A chunker whose [chunk_duration] (as [BOUT_CHUNK_DURATION=20] sets it)
    is below the default [min_chunk_seconds]. *)
Definition short_chunker : AudioChunker.t := AudioChunker.mk 20 10 30.


(** ** Python string and list helpers *)

(** [str.isspace] holds of the code points U+0009..U+000D, U+001C..U+0020,
    U+0085, U+00A0, U+1680, U+2000..U+200A, U+2028, U+2029, U+202F, U+205F
    and U+3000.  [py_isspace] is the test on a code point below 128, which
    is one byte; [py_isspace2] and [py_isspace3] are the tests on the two
    and three bytes that encode the others. *)
Definition py_isspace (a : ascii) : bool :=
  let n := nat_of_ascii a in
  ((9 <=? n)%nat && (n <=? 13)%nat) || ((28 <=? n)%nat && (n <=? 32)%nat).

Definition py_isspace2 (a b : ascii) : bool :=
  let a := nat_of_ascii a in
  let b := nat_of_ascii b in
  ((a =? 194) && ((b =? 133) || (b =? 160)))%nat.

Definition py_isspace3 (a b c : ascii) : bool :=
  let a := nat_of_ascii a in
  let b := nat_of_ascii b in
  let c := nat_of_ascii c in
  (((a =? 225) && (b =? 154) && (c =? 128))
   || ((a =? 226) && (b =? 128)
       && (((128 <=? c) && (c <=? 138)) || (c =? 168) || (c =? 169) || (c =? 175)))
   || ((a =? 226) && (b =? 129) && (c =? 159))
   || ((a =? 227) && (b =? 128) && (c =? 128)))%nat.

(** [s.lstrip()]. *)
Fixpoint py_lstrip (s : string) : string :=
  match s with
  | EmptyString => EmptyString
  | String a s1 =>
    if py_isspace a then py_lstrip s1
    else
      match s1 with
      | String b s2 =>
        if py_isspace2 a b then py_lstrip s2
        else
          match s2 with
          | String c s3 => if py_isspace3 a b c then py_lstrip s3 else s
          | EmptyString => s
          end
      | EmptyString => s
      end
  end.

(** Every character of [s] is whitespace. *)
Fixpoint py_blank (s : string) : bool :=
  match s with
  | EmptyString => true
  | String a s1 =>
    if py_isspace a then py_blank s1
    else
      match s1 with
      | String b s2 =>
        if py_isspace2 a b then py_blank s2
        else
          match s2 with
          | String c s3 => py_isspace3 a b c && py_blank s3
          | EmptyString => false
          end
      | EmptyString => false
      end
  end.

(** [s.rstrip()]. *)
Fixpoint py_rstrip (s : string) : string :=
  match s with
  | EmptyString => EmptyString
  | String a s' => if py_blank s then EmptyString else String a (py_rstrip s')
  end.

(** [s.strip()]. *)
Definition py_strip (s : string) : string := py_rstrip (py_lstrip s).

(** The word that ends where a whitespace character begins; [cur] is the
    current run of other characters, reversed. *)
Definition py_word (cur : string) (words : list string) : list string :=
  match cur with
  | EmptyString => words
  | _ => String.rev cur :: words
  end.

(** [s.split()]: the maximal runs of characters that are not whitespace. *)
Fixpoint py_split_go (cur : string) (s : string) : list string :=
  match s with
  | EmptyString => py_word cur []
  | String a s1 =>
    if py_isspace a then py_word cur (py_split_go EmptyString s1)
    else
      match s1 with
      | String b s2 =>
        if py_isspace2 a b then py_word cur (py_split_go EmptyString s2)
        else
          match s2 with
          | String c s3 =>
            if py_isspace3 a b c then py_word cur (py_split_go EmptyString s3)
            else py_split_go (String a cur) s1
          | EmptyString => py_split_go (String a cur) s1
          end
      | EmptyString => py_split_go (String a cur) s1
      end
  end.

Definition py_split (s : string) : list string := py_split_go EmptyString s.

(** [sep.join(parts)]. *)
Fixpoint py_join (sep : string) (parts : list string) : string :=
  match parts with
  | [] => EmptyString
  | [p] => p
  | p :: rest => p +:+ sep +:+ py_join sep rest
  end.

(** [sorted(l, key=...)] / [l.sort(key=...)]: a stable sort; [lt a b] tells
    that the key of [a] is smaller than the key of [b]. *)
Fixpoint insert_sorted {A} (lt : A -> A -> bool) (x : A) (l : list A) : list A :=
  match l with
  | [] => [x]
  | y :: l' => if lt y x then y :: insert_sorted lt x l' else x :: l
  end.

Definition py_sorted {A} (lt : A -> A -> bool) (l : list A) : list A :=
  foldr (insert_sorted lt) [] l.

(** ** Chunk merger ([bout/transcription/merger.py]) *)

Module ChunkMerger.

Record t := mk { overlap_seconds : Q }.

(** [(seg.start + seg.end) / 2]. *)
Definition midpoint (seg : TranscriptionSegment) : Q :=
  float_div (float_add (seg_start seg) (seg_end seg)) 2.

(** The test under which [_filter_segments_first_chunk] appends [seg]. *)
Definition keep_first (cutoff : Q) (seg : TranscriptionSegment) : bool :=
  if Qleb (seg_end seg) cutoff then true
  else if Qltb (seg_start seg) cutoff then Qltb (midpoint seg) cutoff
  else false.

Definition _filter_segments_first_chunk (self : t) (chunk : Chunk)
    : list TranscriptionSegment :=
  let cutoff := (end_time chunk - overlap_seconds self)%Q in
  List.filter (keep_first cutoff) (segments chunk).

Definition keep_last (skip_until : Q) (seg : TranscriptionSegment) : bool :=
  if Qleb skip_until (seg_start seg) then true
  else if Qltb skip_until (seg_end seg) then Qleb skip_until (midpoint seg)
  else false.

Definition _filter_segments_last_chunk (self : t) (chunk : Chunk)
    : list TranscriptionSegment :=
  let skip_until := (start_time chunk + overlap_start chunk)%Q in
  List.filter (keep_last skip_until) (segments chunk).

Definition keep_middle (skip_until cutoff : Q) (seg : TranscriptionSegment) : bool :=
  let midpoint := midpoint seg in
  if Qleb skip_until (seg_start seg) && Qleb (seg_end seg) cutoff then true
  else if Qleb skip_until midpoint && Qleb midpoint cutoff then true
  else false.

Definition _filter_segments_middle_chunk (self : t) (chunk : Chunk)
    : list TranscriptionSegment :=
  let skip_until := (start_time chunk + overlap_start chunk)%Q in
  let cutoff := (end_time chunk - overlap_seconds self)%Q in
  List.filter (keep_middle skip_until cutoff) (segments chunk).

(** The segments kept for the chunk at position [i] of [n] completed ones. *)
Definition filter_segments (self : t) (n i : nat) (chunk : Chunk)
    : list TranscriptionSegment :=
  if Nat.eqb i 0 then _filter_segments_first_chunk self chunk
  else if Nat.eqb i (n - 1) then _filter_segments_last_chunk self chunk
  else _filter_segments_middle_chunk self chunk.

Definition has_text (c : Chunk) : bool :=
  match text c with Some _ => true | None => false end.

Definition merge_chunks (self : t) (chunks : list Chunk)
    : string * list TranscriptionSegment :=
  match chunks with
  | [] => (EmptyString, [])
  | _ =>
    let chunks := py_sorted (fun a b => index a <? index b) chunks in
    let completed := List.filter has_text chunks in
    match completed with
    | [] => (EmptyString, [])
    | [c] => (default EmptyString (text c), segments c)
    | _ =>
      let kept := imap (filter_segments self (length completed)) completed in
      let all_segments := concat kept in
      let full_text_parts :=
        map (fun segs => py_join " " (map seg_text segs)) kept in
      let all_segments :=
        py_sorted (fun a b => Qltb (seg_start a) (seg_start b)) all_segments in
      let full_text := py_join " " full_text_parts in
      let full_text := py_join " " (py_split full_text) in
      (full_text, all_segments)
    end
  end.

End ChunkMerger.

(** ** Exceptions ([bout/core/exceptions.py]) and effects *)

Inductive exn :=
  | RuntimeError (msg : string)
  | OSError (msg : string)
  | OtherException (msg : string)
  | KeyboardInterrupt
  | BoutError (msg : string)
  | TranscriptionError (msg : string)
  | ModelLoadError (msg : string)
  | OutOfMemoryError
  | AudioExtractionError (msg : string)
  | ChunkingError (msg : string).

(** [isinstance(e, RuntimeError)]. *)
Definition is_RuntimeError (e : exn) : bool :=
  match e with RuntimeError _ => true | _ => false end.

(** [isinstance(e, Exception)]: everything but [KeyboardInterrupt]. *)
Definition is_Exception (e : exn) : bool :=
  match e with KeyboardInterrupt => false | _ => true end.

(** [isinstance(e, BoutError)]. *)
Definition is_BoutError (e : exn) : bool :=
  match e with
  | BoutError _ | TranscriptionError _ | ModelLoadError _ | OutOfMemoryError
  | AudioExtractionError _ | ChunkingError _ => true
  | _ => false
  end.

(** [str(e)]. *)
Definition exn_str (e : exn) : string :=
  match e with
  | RuntimeError m | OSError m | OtherException m | BoutError m
  | TranscriptionError m | ModelLoadError m | AudioExtractionError m
  | ChunkingError m => m
  | KeyboardInterrupt => ""
  | OutOfMemoryError => "GPU memory exhausted during transcription"
  end.

Inductive Result (A : Type) :=
  | Ok (a : A)
  | Raise (e : exn).
Arguments Ok {A} a.
Arguments Raise {A} e.

Inductive Device := Cuda | Cpu.

#[global] Instance Device_eq_dec : EqDecision Device.
Proof. solve_decision. Defined.

(** What an observer of the pipeline can see, in order. *)
Inductive Event :=
  | EvExtract
  | EvPlan
  | EvSplit
  | EvTranscribe (idx : Z)
  | EvCheckpoint (idx : Z)
  | EvProgress (current total : Z)
  | EvMerge
  | EvDiarize
  | EvGenerate
  | EvCleanup.

#[global] Instance Event_eq_dec : EqDecision Event.
Proof. solve_decision. Defined.

(** A file of the jobs directory. *)
Record File := mkFile {
  mtime : Z;
  content : string;
}.

(** The mutable world: the jobs directory, the clock read by
    [datetime.now()] and [time.time()], the engine's [model] and [device]
    attributes, the number of calls made to the speech model, and the events
    observed so far (oldest first). *)
Record World := mkWorld {
  w_fs : gmap string File;
  w_clock : Z;
  w_model : option Device;
  w_device : option Device;
  w_calls : nat;
  w_trace : list Event;
}.

(** Computations over a mutable state [S] that may raise; the state
    survives the exception. *)
Definition State (S A : Type) : Type := S -> Result A * S.

Definition ret {S A} (a : A) : State S A := fun s => (Ok a, s).

Definition raise {S A} (e : exn) : State S A := fun s => (Raise e, s).

Definition bind {S A B} (m : State S A) (k : A -> State S B) : State S B :=
  fun s => match m s with
           | (Ok a, s') => k a s'
           | (Raise e, s') => (Raise e, s')
           end.

(** [try: m except <every e>: h e]; a handler re-raises what its [except]
    clause does not match. *)
Definition catch {S A} (m : State S A) (h : exn -> State S A) : State S A :=
  fun s => match m s with
           | (Ok a, s') => (Ok a, s')
           | (Raise e, s') => h e s'
           end.

Definition get_state {S} : State S S := fun s => (Ok s, s).

(** The engine and the checkpoint store run over the world. *)
Definition M (A : Type) : Type := State World A.

Notation "x <- m ;; k" := (bind m (fun x => k))
  (at level 100, m at next level, right associativity).
Notation "m ;;; k" := (bind m (fun _ => k))
  (at level 100, right associativity).

Definition get_world : M World := get_state.

Definition emit (e : Event) : M unit :=
  fun w => (Ok tt, mkWorld (w_fs w) (w_clock w) (w_model w) (w_device w)
                           (w_calls w) (w_trace w ++ [e])).

(** [datetime.now()]: read the clock, which then moves on. *)
Definition now : M datetime :=
  fun w => (Ok (w_clock w),
            mkWorld (w_fs w) (w_clock w + 1) (w_model w) (w_device w)
                    (w_calls w) (w_trace w)).

Definition set_fs (fs : gmap string File) : M unit :=
  fun w => (Ok tt, mkWorld fs (w_clock w) (w_model w) (w_device w)
                           (w_calls w) (w_trace w)).

Definition set_model (m : option Device) : M unit :=
  fun w => (Ok tt, mkWorld (w_fs w) (w_clock w) m (w_device w)
                           (w_calls w) (w_trace w)).

Definition set_device (d : option Device) : M unit :=
  fun w => (Ok tt, mkWorld (w_fs w) (w_clock w) (w_model w) d
                           (w_calls w) (w_trace w)).

(** The world with the jobs directory replaced, and the world after one
    reading of the clock. *)
Definition with_fs (w : World) (fs : gmap string File) : World :=
  mkWorld fs (w_clock w) (w_model w) (w_device w) (w_calls w) (w_trace w).

Definition tick (w : World) : World :=
  mkWorld (w_fs w) (w_clock w + 1) (w_model w) (w_device w) (w_calls w) (w_trace w).

Definition next_call : M nat :=
  fun w => (Ok (w_calls w),
            mkWorld (w_fs w) (w_clock w) (w_model w) (w_device w)
                    (S (w_calls w)) (w_trace w)).

(** ** The speech model and the other collaborators *)

(** One segment of the model's answer: [seg["start"]], [seg["end"]],
    [seg["text"]], relative to the chunk file. *)
Record RawSegment := mkRaw {
  raw_start : Q;
  raw_end : Q;
  raw_text : string;
}.

(** The model's answer: [result.get("text", "")] and
    [result.get("segments", [])]. *)
Record WhisperResult := mkWhisper {
  res_text : string;
  res_segments : list RawSegment;
}.

(** What happens to a write to the jobs directory: it succeeds, [open]
    raises, or the write raises after [n] characters reached the file. *)
Inductive io_outcome :=
  | IoOk
  | IoOpenFails
  | IoWriteFails (n : nat).

(** The collaborators outside the engine.  [whisper_transcribe d path n] is
    the outcome of the [n]-th call to the model, made on device [d] for the
    file [path]; [disk stem t] is the fate of the write to [jobs/<stem>.json]
    made at time [t]. *)
Record Env := mkEnv {
  path_exists : string -> bool;
  cuda_usable : bool;
  whisper_load_model : Device -> option exn;
  whisper_transcribe : Device -> string -> nat -> Result WhisperResult;
  extract_audio : string -> Result string;
  split_audio_file : Chunk -> Result string;
  diarize : list TranscriptionSegment -> Result (list TranscriptionSegment);
  generate_document : string -> list TranscriptionSegment -> Result string;
  disk : string -> Z -> io_outcome;
}.

(** ** Transcription worker ([bout/transcription/engine.py]) *)

Fixpoint py_lower (s : string) : string :=
  match s with
  | EmptyString => EmptyString
  | String a s' =>
    let n := nat_of_ascii a in
    String (if (65 <=? n)%nat && (n <=? 90)%nat then ascii_of_nat (n + 32) else a)
           (py_lower s')
  end.

(** [needle in hay]. *)
Fixpoint py_contains (needle hay : string) : bool :=
  if String.prefix needle hay then true
  else match hay with
       | EmptyString => false
       | String _ hay' => py_contains needle hay'
       end.

Definition is_oom_message (msg : string) : bool :=
  py_contains "out of memory" (py_lower msg).

Module TranscriptionEngine.

(** The constructor's arguments; [requested_device = None] is ["auto"].  The
    [model] and [device] attributes are [w_model] and [w_device]. *)
Record t := mk {
  model_name : string;
  language : string;
  requested_device : option Device;
}.

Definition _detect_device (env : Env) (self : t) : Device :=
  match requested_device self with
  | Some d => d
  | None => if cuda_usable env then Cuda else Cpu
  end.

Definition load_model (env : Env) (self : t) : M unit :=
  w <- get_world ;;
  match w_model w with
  | Some _ => ret tt
  | None =>
    let device := _detect_device env self in
    set_device (Some device) ;;;
    match whisper_load_model env device with
    | None => set_model (Some device)
    | Some e =>
      if is_Exception e then
        raise (ModelLoadError ("Failed to load Whisper model '" +:+ model_name self
                               +:+ "': " +:+ exn_str e))
      else raise e
    end
  end.

Definition unload_model : M unit := set_model None.

(** The segments of the model's answer in original-audio time:
    [chunk.start_time + seg["start"]], [chunk.start_time + seg["end"]] and
    [seg["text"].strip()]. *)
Definition extract_segments (chunk : Chunk) (result : WhisperResult)
    : list TranscriptionSegment :=
  map (fun seg =>
         mkSegment (float_add (start_time chunk) (raw_start seg))
                   (float_add (start_time chunk) (raw_end seg))
                   (py_strip (raw_text seg))
                   None)
      (res_segments result).

(** [chunk.text], [chunk.segments], [chunk.status] and [chunk.completed_at]
    as assigned after a successful call. *)
Definition completed_chunk (chunk : Chunk) (result : WhisperResult) (t : datetime)
    : Chunk :=
  mkChunk (index chunk) (start_time chunk) (end_time chunk) (overlap_start chunk)
          (file_path chunk) COMPLETED (Some (py_strip (res_text result)))
          (extract_segments chunk result) (Some t) (error chunk).

(** [chunk.status = FAILED; chunk.error = msg]. *)
Definition failed_chunk (chunk : Chunk) (msg : string) : Chunk :=
  mkChunk (index chunk) (start_time chunk) (end_time chunk) (overlap_start chunk)
          (file_path chunk) FAILED (text chunk) (segments chunk)
          (completed_at chunk) (Some msg).

(** One call to [model.transcribe] on the device [d]. *)
Definition call_model (env : Env) (d : Device) (chunk : Chunk) : M WhisperResult :=
  n <- next_call ;;
  match whisper_transcribe env d (default "None" (file_path chunk)) n with
  | Ok r => ret r
  | Raise e => raise e
  end.

(** The [except Exception] clause of [_transcribe_on_cpu]. *)
Definition cpu_failure (chunk : Chunk) (e : exn) : M Chunk :=
  if is_Exception e then ret (failed_chunk chunk (exn_str e)) else raise e.

Definition _transcribe_on_cpu (env : Env) (self : t) (chunk : Chunk) : M Chunk :=
  catch
    (unload_model ;;;
     match whisper_load_model env Cpu with
     | Some e => raise e
     | None =>
       result <- call_model env Cpu chunk ;;
       t <- now ;;
       let chunk' := completed_chunk chunk result t in
       catch (load_model env self ;;; ret chunk') (cpu_failure chunk')
     end)
    (cpu_failure chunk).

(** The [for attempt in range(max_retries)] loop, entered at [attempt] with
    [remaining] iterations to go. *)
Fixpoint attempts (env : Env) (self : t) (chunk : Chunk) (max_retries : nat)
    (attempt remaining : nat) : M Chunk :=
  match remaining with
  | O => ret (failed_chunk chunk "Max retries exceeded")
  | S remaining' =>
    r <- catch
      (w <- get_world ;;
       match w_model w with
       | Some d =>
         result <- call_model env d chunk ;;
         t <- now ;;
         ret (Some (completed_chunk chunk result t))
       | None =>
         raise (OtherException "'NoneType' object has no attribute 'transcribe'")
       end)
      (fun e =>
         if is_RuntimeError e then
           if is_oom_message (exn_str e) then
             if Nat.eqb attempt (max_retries - 1) then
               w <- get_world ;;
               if decide (w_device w = Some Cpu) then raise OutOfMemoryError
               else (r <- _transcribe_on_cpu env self chunk ;; ret (Some r))
             else ret None
           else
             raise (TranscriptionError
                      ("Chunk " +:+ pretty (index chunk) +:+ ": " +:+ exn_str e))
         else raise e) ;;
    match r with
    | Some chunk' => ret chunk'
    | None => attempts env self chunk max_retries (S attempt) remaining'
    end
  end.

Definition file_missing (env : Env) (chunk : Chunk) : bool :=
  match file_path chunk with
  | None => true
  | Some p => negb (path_exists env p)
  end.

Definition transcribe_chunk (env : Env) (self : t) (chunk : Chunk)
    (max_retries : nat) : M Chunk :=
  if file_missing env chunk then
    raise (TranscriptionError
             ("Chunk file not found: " +:+ default "None" (file_path chunk)))
  else
    load_model env self ;;;
    attempts env self chunk max_retries 0 max_retries.

(** The outcome of a run over the chunk list: the exception that ended it,
    if any, and the list with the chunks as the run left them (the list and
    its chunks are updated in place, so they keep their changes when the run
    is cut short). *)
Definition Run : Type := World -> (option exn * list Chunk) * World.

Definition call_progress (cb : option (Z -> Z -> M unit)) (current total : Z)
    : M unit :=
  match cb with
  | Some f => emit (EvProgress current total) ;;; f current total
  | None => ret tt
  end.

Definition call_checkpoint (cb : option (Chunk -> M unit)) (chunk : Chunk)
    : M unit :=
  match cb with
  | Some f => emit (EvCheckpoint (index chunk)) ;;; f chunk
  | None => ret tt
  end.

(** The [for chunk in chunks] loop of [transcribe_all_chunks]. *)
Fixpoint chunk_loop (env : Env) (self : t)
    (progress_callback : option (Z -> Z -> M unit))
    (checkpoint_callback : option (Chunk -> M unit))
    (total completed : Z) (chunks : list Chunk) : Run :=
  fun w =>
  match chunks with
  | [] => ((None, []), w)
  | chunk :: rest =>
    if decide (status chunk = COMPLETED) then
      let completed := completed + 1 in
      match call_progress progress_callback completed total w with
      | (Raise e, w') => ((Some e, chunk :: rest), w')
      | (Ok _, w') =>
        let '((r, rest'), w'') :=
          chunk_loop env self progress_callback checkpoint_callback
                     total completed rest w' in
        ((r, chunk :: rest'), w'')
      end
    else
      match (emit (EvTranscribe (index chunk)) ;;;
             transcribe_chunk env self chunk 3) w with
      | (Raise e, w') => ((Some e, chunk :: rest), w')
      | (Ok chunk', w') =>
        let completed := completed + 1 in
        match (call_checkpoint checkpoint_callback chunk' ;;;
               call_progress progress_callback completed total) w' with
        | (Raise e, w'') => ((Some e, chunk' :: rest), w'')
        | (Ok _, w'') =>
          let '((r, rest'), w''') :=
            chunk_loop env self progress_callback checkpoint_callback
                       total completed rest w'' in
          ((r, chunk' :: rest'), w''')
        end
      end
  end.

Definition transcribe_all_chunks (env : Env) (self : t)
    (chunks : list Chunk)
    (progress_callback : option (Z -> Z -> M unit))
    (checkpoint_callback : option (Chunk -> M unit)) : Run :=
  fun w =>
  match load_model env self w with
  | (Raise e, w') => ((Some e, chunks), w')
  | (Ok _, w') =>
    chunk_loop env self progress_callback checkpoint_callback
               (Z.of_nat (length chunks)) 0 chunks w'
  end.

End TranscriptionEngine.

(** ** JSON documents ([json.dump] / [json.load]) *)

#[local] Unset Elimination Schemes.
Inductive json :=
  | JNull
  | JBool (b : bool)
  | JInt (z : Z)
  | JFloat (q : Q)
  | JStr (s : string)
  | JList (l : list json)
  | JDict (kvs : list (string * json)).
#[local] Set Elimination Schemes.

(** The [json] module: [json_dumps v] is the text [json.dump(v, f, indent=2,
    ensure_ascii=False)] writes; [json_loads s] is [None] when [json.load]
    raises. *)
Class JsonLib := {
  json_dumps : json -> string;
  json_loads : string -> option json;
}.

(** [data.get(k)] on a [dict]; [None] when the key is missing. *)
Fixpoint dict_get (k : string) (d : list (string * json)) : option json :=
  match d with
  | [] => None
  | (k', v) :: d' => if String.eqb k k' then Some v else dict_get k d'
  end.

(** [d[k] = v]. *)
Fixpoint dict_set (k : string) (v : json) (d : list (string * json))
    : list (string * json) :=
  match d with
  | [] => [(k, v)]
  | (k', v') :: d' =>
    if String.eqb k k' then (k, v) :: d' else (k', v') :: dict_set k v d'
  end.

(** Readers for the fields of a record.  [None] stands for the exception
    Python raises ([KeyError], [ValueError], [TypeError]) and also for a
    value of another JSON type than the dataclass declares: such records
    are outside this model. *)
Definition as_str (o : option json) : option string :=
  match o with Some (JStr s) => Some s | _ => None end.

Definition as_int (o : option json) : option Z :=
  match o with Some (JInt z) => Some z | _ => None end.

Definition as_float (o : option json) : option Q :=
  match o with
  | Some (JInt z) => Some (inject_Z z)
  | Some (JFloat q) => Some q
  | _ => None
  end.

(** An [Optional[str]] field read with [data.get(k)]. *)
Definition as_opt_str (o : option json) : option (option string) :=
  match o with
  | None | Some JNull => Some None
  | Some (JStr s) => Some (Some s)
  | _ => None
  end.

(** [Path(x) if x else None]: the empty string counts as absent. *)
Definition path_of (o : option string) : option string :=
  match o with
  | Some EmptyString => None
  | _ => o
  end.

Definition json_opt_str (o : option string) : json :=
  match o with Some s => JStr s | None => JNull end.

(** [datetime.isoformat] and [datetime.fromisoformat] on stamps, written in
    decimal. *)
Definition isoformat (d : datetime) : string := pretty d.

Fixpoint parse_digits (acc : Z) (s : string) : option Z :=
  match s with
  | EmptyString => Some acc
  | String a s' =>
    match Ascii.is_nat a with
    | Some n => parse_digits (10 * acc + Z.of_nat n) s'
    | None => None
    end
  end.

Definition fromisoformat (s : string) : option datetime :=
  match s with
  | EmptyString => None
  | String "-" (String a s' as r) => option_map Z.opp (parse_digits 0 r)
  | _ => parse_digits 0 s
  end.

Definition JobStatus_value (s : JobStatus) : string :=
  match s with
  | JS_PENDING => "pending" | JS_EXTRACTING => "extracting"
  | JS_CHUNKING => "chunking" | JS_TRANSCRIBING => "transcribing"
  | JS_MERGING => "merging" | JS_DIARIZING => "diarizing"
  | JS_GENERATING => "generating" | JS_COMPLETED => "completed"
  | JS_FAILED => "failed" | JS_CANCELLED => "cancelled"
  end.

Definition all_JobStatus : list JobStatus :=
  [JS_PENDING; JS_EXTRACTING; JS_CHUNKING; JS_TRANSCRIBING; JS_MERGING;
   JS_DIARIZING; JS_GENERATING; JS_COMPLETED; JS_FAILED; JS_CANCELLED].

(** [JobStatus(value)]. *)
Definition JobStatus_of_value (v : string) : option JobStatus :=
  List.find (fun s => String.eqb (JobStatus_value s) v) all_JobStatus.

Definition ChunkStatus_value (s : ChunkStatus) : string :=
  match s with
  | PENDING => "pending" | PROCESSING => "processing"
  | COMPLETED => "completed" | FAILED => "failed"
  end.

(** [ChunkStatus(value)]. *)
Definition ChunkStatus_of_value (v : string) : option ChunkStatus :=
  List.find (fun s => String.eqb (ChunkStatus_value s) v)
            [PENDING; PROCESSING; COMPLETED; FAILED].

(** *** [Chunk.to_dict] and [Chunk.from_dict] *)

Definition segment_to_dict (s : TranscriptionSegment) : json :=
  JDict [("start", JFloat (seg_start s)); ("end", JFloat (seg_end s));
         ("text", JStr (seg_text s)); ("speaker", json_opt_str (seg_speaker s))]%string.

Definition Chunk_to_dict (c : Chunk) : json :=
  JDict [("index", JInt (index c));
         ("start_time", JFloat (start_time c));
         ("end_time", JFloat (end_time c));
         ("overlap_start", JFloat (overlap_start c));
         ("file_path", json_opt_str (file_path c));
         ("status", JStr (ChunkStatus_value (status c)));
         ("text", json_opt_str (text c));
         ("segments", JList (map segment_to_dict (segments c)));
         ("completed_at", json_opt_str (option_map isoformat (completed_at c)));
         ("error", json_opt_str (error c))]%string.

(** The keyword call that builds a [TranscriptionSegment] from a dict:
    [start], [end] and [text] are required, [speaker] is optional, any other
    keyword is a [TypeError]. *)
Definition segment_from_dict (j : json) : option TranscriptionSegment :=
  match j with
  | JDict d =>
    if forallb (fun kv => existsb (String.eqb (fst kv))
                            ["start"; "end"; "text"; "speaker"]%string) d
    then
      s ← as_float (dict_get "start" d);
      e ← as_float (dict_get "end" d);
      t ← as_str (dict_get "text" d);
      sp ← as_opt_str (dict_get "speaker" d);
      Some (mkSegment s e t sp)
    else None
  | _ => None
  end.

(** [[f(x) for x in l]], failing as soon as one [f(x)] raises. *)
Fixpoint map_opt {A B} (f : A -> option B) (l : list A) : option (list B) :=
  match l with
  | [] => Some []
  | x :: l' =>
    y ← f x;
    ys ← map_opt f l';
    Some (y :: ys)
  end.

Definition as_list (o : option json) (dflt : list json) : option (list json) :=
  match o with
  | None => Some dflt
  | Some (JList l) => Some l
  | _ => None
  end.

Definition Chunk_from_dict (j : json) : option Chunk :=
  match j with
  | JDict d =>
    raw_segments ← as_list (dict_get "segments" d) [];
    segments ← map_opt segment_from_dict raw_segments;
    index ← as_int (dict_get "index" d);
    start_time ← as_float (dict_get "start_time" d);
    end_time ← as_float (dict_get "end_time" d);
    overlap_start ← as_float (dict_get "overlap_start" d);
    file_path ← as_opt_str (dict_get "file_path" d);
    status ← match dict_get "status" d with
             | None => Some PENDING
             | Some v => v' ← as_str (Some v); ChunkStatus_of_value v'
             end;
    text ← as_opt_str (dict_get "text" d);
    completed_at ← match path_of <$> as_opt_str (dict_get "completed_at" d) with
                   | Some (Some s) => Some <$> fromisoformat s
                   | Some None => Some None
                   | None => None
                   end;
    error ← as_opt_str (dict_get "error" d);
    Some (mkChunk index start_time end_time overlap_start (path_of file_path)
                  status text segments completed_at error)
  | _ => None
  end.

(** *** What the worker and the batch driver promise *)

(** The chunk [c'] holds the answer the model gave for the file of [chunk]:
    its segments moved to original-audio time, every text stripped. *)
Definition holds_answer (env : Env) (chunk c' : Chunk) : Prop :=
  exists d n result t,
    whisper_transcribe env d (default "None"%string (file_path chunk)) n = Ok result /\
    c' = TranscriptionEngine.completed_chunk chunk result t.

Definition nonempty_text (s : TranscriptionSegment) : bool :=
  negb (String.eqb (seg_text s) EmptyString).

(** The worker's contract with empty segments discarded: a chunk that comes
    back [COMPLETED] holds the rebased, stripped segments of the model's
    answer whose text is not empty. *)
Definition worker_contract (env : Env) (self : TranscriptionEngine.t)
    (chunk : Chunk) (w : World) : Prop :=
  forall c' w',
    TranscriptionEngine.transcribe_chunk env self chunk 3 w = (Ok c', w') ->
    status c' = COMPLETED ->
    exists d n result,
      whisper_transcribe env d (default "None"%string (file_path chunk)) n = Ok result /\
      segments c' =
        List.filter nonempty_text (TranscriptionEngine.extract_segments chunk result).

(** A computation that leaves the event log alone. *)
Definition keeps_trace {A} (m : M A) : Prop :=
  forall w, w_trace (snd (m w)) = w_trace w.

(** The events of a complete run of the batch driver over [chunks], entered
    with [completed] chunks counted. *)
Fixpoint expected_events (total completed : Z) (chunks : list Chunk) : list Event :=
  match chunks with
  | [] => []
  | c :: rest =>
    (if decide (status c = COMPLETED) then [EvProgress (completed + 1) total]
     else [EvTranscribe (index c); EvCheckpoint (index c);
           EvProgress (completed + 1) total])
    ++ expected_events total (completed + 1) rest
  end.

(** Every occurrence of [e2] in [tr] comes after an occurrence of [e1]. *)
Definition precedes (e1 e2 : Event) (tr : list Event) : Prop :=
  forall l1 l2, tr = l1 ++ e2 :: l2 -> e1 ∈ l1.

(** The chunk at position [i] has index [i] (invariant 1 of the data
    model). *)
Definition dense_indices (chunks : list Chunk) : Prop :=
  forall (i : nat) c, chunks !! i = Some c -> index c = Z.of_nat i.

(** The world before anything ran. *)
Definition initial_world : World := mkWorld ∅ 0 None None 0 [].

(** *** [Job] ([bout/core/types.py]) and [JobState] ([bout/state/models.py]) *)

Record Job := mkJob {
  job_id : string;
  video_path : option string;
  video_name : string;
  created_at : datetime;
  updated_at : datetime;
  duration_seconds : Q;
  job_status : JobStatus;
  job_error : option string;
  audio_path : option string;
  chunks : list Chunk;
  output_path : option string;
  transcription_text : option string;
  job_segments : list TranscriptionSegment;
}.

Definition set_updated_at (j : Job) (t : datetime) : Job :=
  mkJob (job_id j) (video_path j) (video_name j) (created_at j) t
        (duration_seconds j) (job_status j) (job_error j) (audio_path j)
        (chunks j) (output_path j) (transcription_text j) (job_segments j).

Definition set_job_status (j : Job) (s : JobStatus) : Job :=
  mkJob (job_id j) (video_path j) (video_name j) (created_at j) (updated_at j)
        (duration_seconds j) s (job_error j) (audio_path j)
        (chunks j) (output_path j) (transcription_text j) (job_segments j).

Definition set_job_error (j : Job) (e : option string) : Job :=
  mkJob (job_id j) (video_path j) (video_name j) (created_at j) (updated_at j)
        (duration_seconds j) (job_status j) e (audio_path j)
        (chunks j) (output_path j) (transcription_text j) (job_segments j).

Definition set_audio_path (j : Job) (p : option string) : Job :=
  mkJob (job_id j) (video_path j) (video_name j) (created_at j) (updated_at j)
        (duration_seconds j) (job_status j) (job_error j) p
        (chunks j) (output_path j) (transcription_text j) (job_segments j).

Definition set_chunks (j : Job) (cs : list Chunk) : Job :=
  mkJob (job_id j) (video_path j) (video_name j) (created_at j) (updated_at j)
        (duration_seconds j) (job_status j) (job_error j) (audio_path j)
        cs (output_path j) (transcription_text j) (job_segments j).

Definition set_output_path (j : Job) (p : option string) : Job :=
  mkJob (job_id j) (video_path j) (video_name j) (created_at j) (updated_at j)
        (duration_seconds j) (job_status j) (job_error j) (audio_path j)
        (chunks j) p (transcription_text j) (job_segments j).

Definition set_transcription (j : Job) (t : option string)
    (segs : list TranscriptionSegment) : Job :=
  mkJob (job_id j) (video_path j) (video_name j) (created_at j) (updated_at j)
        (duration_seconds j) (job_status j) (job_error j) (audio_path j)
        (chunks j) (output_path j) t segs.

Definition set_job_segments (j : Job) (segs : list TranscriptionSegment) : Job :=
  mkJob (job_id j) (video_path j) (video_name j) (created_at j) (updated_at j)
        (duration_seconds j) (job_status j) (job_error j) (audio_path j)
        (chunks j) (output_path j) (transcription_text j) segs.

(** [Job.completed_chunks]. *)
Definition completed_chunks (j : Job) : nat :=
  length (List.filter (fun c => bool_decide (status c = COMPLETED)) (chunks j)).

Module JobState.

Record t := mk {
  st_job_id : string;
  st_video_path : string;
  st_video_name : string;
  st_created_at : string;
  st_updated_at : string;
  st_duration_seconds : Q;
  st_status : string;
  st_error : option string;
  st_audio_path : option string;
  st_chunks_dir : option string;
  st_chunk_config : list (string * json);
  st_chunks : list json;
  st_output_path : option string;
  st_transcription_text : option string;
}.

Definition to_job (self : t) : option Job :=
  created ← fromisoformat (st_created_at self);
  updated ← fromisoformat (st_updated_at self);
  st ← JobStatus_of_value (st_status self);
  cs ← map_opt Chunk_from_dict (st_chunks self);
  Some (mkJob (st_job_id self) (path_of (Some (st_video_path self)))
              (st_video_name self) created updated (st_duration_seconds self)
              st (st_error self) (path_of (st_audio_path self)) cs
              (path_of (st_output_path self)) (st_transcription_text self) []).

(** [config] is the chunk configuration [get_config()] returns. *)
Definition from_job (config : AudioChunker.t) (job : Job)
    (chunks_dir : option string) : t :=
  mk (job_id job)
     (default EmptyString (video_path job))
     (video_name job)
     (isoformat (created_at job))
     (isoformat (updated_at job))
     (duration_seconds job)
     (JobStatus_value (job_status job))
     (job_error job)
     (audio_path job)
     chunks_dir
     [("duration_seconds", JInt (AudioChunker.chunk_duration config));
      ("overlap_seconds", JInt (AudioChunker.overlap config))]%string
     (map Chunk_to_dict (chunks job))
     (output_path job)
     (transcription_text job).

Definition to_dict (self : t) : json :=
  JDict [("job_id", JStr (st_job_id self));
         ("video_path", JStr (st_video_path self));
         ("video_name", JStr (st_video_name self));
         ("created_at", JStr (st_created_at self));
         ("updated_at", JStr (st_updated_at self));
         ("duration_seconds", JFloat (st_duration_seconds self));
         ("status", JStr (st_status self));
         ("error", json_opt_str (st_error self));
         ("audio_path", json_opt_str (st_audio_path self));
         ("chunks_dir", json_opt_str (st_chunks_dir self));
         ("chunk_config", JDict (st_chunk_config self));
         ("chunks", JList (st_chunks self));
         ("output_path", json_opt_str (st_output_path self));
         ("transcription_text", json_opt_str (st_transcription_text self))]%string.

Definition from_dict (data : json) : option t :=
  match data with
  | JDict d =>
    job_id ← as_str (dict_get "job_id" d);
    video_path ← as_str (dict_get "video_path" d);
    video_name ← as_str (dict_get "video_name" d);
    created_at ← as_str (dict_get "created_at" d);
    updated_at ← as_str (dict_get "updated_at" d);
    duration_seconds ← match dict_get "duration_seconds" d with
                       | None => Some 0%Q
                       | o => as_float o
                       end;
    status ← as_str (dict_get "status" d);
    error ← as_opt_str (dict_get "error" d);
    audio_path ← as_opt_str (dict_get "audio_path" d);
    chunks_dir ← as_opt_str (dict_get "chunks_dir" d);
    chunk_config ← match dict_get "chunk_config" d with
                   | None => Some []
                   | Some (JDict c) => Some c
                   | _ => None
                   end;
    chunks ← as_list (dict_get "chunks" d) [];
    output_path ← as_opt_str (dict_get "output_path" d);
    transcription_text ← as_opt_str (dict_get "transcription_text" d);
    Some (mk job_id video_path video_name created_at updated_at
             duration_seconds status error audio_path chunks_dir chunk_config
             chunks output_path transcription_text)
  | _ => None
  end.

End JobState.

(** ** Checkpoint store ([bout/state/manager.py])

    [w_fs] is the jobs directory: the key [stem] is the file
    [jobs/<stem>.json]. *)

Module StateManager.

Section WithJson.
Context `{JsonLib}.

(** The [try] block of [save_job]: [open(job_file, "w")] empties the file,
    then [json.dump] writes the text into it. *)
Definition write_job_file (env : Env) (stem text : string) : M unit :=
  w <- get_world ;;
  match disk env stem (w_clock w) with
  | IoOk => set_fs (<[stem := mkFile (w_clock w) text]> (w_fs w))
  | IoOpenFails => raise (OSError "open failed")
  | IoWriteFails n =>
    set_fs (<[stem := mkFile (w_clock w) (String.substring 0 n text)]> (w_fs w)) ;;;
    raise (OSError "write failed")
  end.

(** The text [save_job] writes for [job], once [updated_at] is stamped. *)
Definition job_text (config : AudioChunker.t) (job : Job)
    (chunks_dir : option string) : string :=
  json_dumps (JobState.to_dict (JobState.from_job config job chunks_dir)).

(** [save_job]; the result is the job with its new [updated_at]. *)
Definition save_job (env : Env) (config : AudioChunker.t) (job : Job)
    (chunks_dir : option string) : M Job :=
  t <- now ;;
  let job := set_updated_at job t in
  catch (write_job_file env (job_id job) (job_text config job chunks_dir))
        (fun e => if is_Exception e then ret tt else raise e) ;;;
  ret job.

(** The jobs directory after the [try] block of [save_job] wrote [text]
    for [job]. *)
Definition written (env : Env) (job : Job) (text : string) (w : World)
    : gmap string File :=
  match disk env (job_id job) (w_clock w + 1) with
  | IoOk => <[job_id job := mkFile (w_clock w + 1) text]> (w_fs w)
  | IoOpenFails => w_fs w
  | IoWriteFails n =>
    <[job_id job := mkFile (w_clock w + 1) (String.substring 0 n text)]> (w_fs w)
  end.

(** The [try] block of [load_job] on the text of the file; [None] when it
    raises. *)
Definition decode_job (text : string) : option Job :=
  data ← json_loads text;
  state ← JobState.from_dict data;
  JobState.to_job state.

(** What [load_job] returns on the jobs directory. *)
Definition read_job (fs : gmap string File) (job_id : string) : option Job :=
  match fs !! job_id with
  | None => None
  | Some f => decode_job (content f)
  end.

(** [load_job]: [None] when the file is not there; otherwise the record it
    holds, or [None] when reading it raises. *)
Definition load_job (job_id : string) : M (option Job) :=
  w <- get_world ;;
  match w_fs w !! job_id with
  | None => ret None
  | Some f =>
    catch
      (match decode_job (content f) with
       | Some job => ret (Some job)
       | None => raise (OtherException "the record cannot be read")
       end)
      (fun e => if is_Exception e then ret None else raise e)
  end.

Definition get_job_state (job_id : string) : M (option JobState.t) :=
  w <- get_world ;;
  ret (match w_fs w !! job_id with
       | None => None
       | Some f => data ← json_loads (content f); JobState.from_dict data
       end).

Definition delete_job (job_id : string) : M bool :=
  w <- get_world ;;
  match w_fs w !! job_id with
  | Some _ => set_fs (delete job_id (w_fs w)) ;;; ret true
  | None => ret false
  end.

(** [job.chunks[i] = chunk] for the first [i] with the same index. *)
Fixpoint replace_chunk (chunks : list Chunk) (chunk : Chunk) : list Chunk :=
  match chunks with
  | [] => []
  | c :: rest =>
    if index c =? index chunk then chunk :: rest
    else c :: replace_chunk rest chunk
  end.

Definition save_chunk_result (env : Env) (config : AudioChunker.t)
    (job_id : string) (chunk : Chunk) : M unit :=
  job <- load_job job_id ;;
  match job with
  | None => ret tt
  | Some job =>
    let job := set_chunks job (replace_chunk (chunks job) chunk) in
    save_job env config job None ;;;
    ret tt
  end.

(** [job.status in {JobStatus.COMPLETED, JobStatus.FAILED}]. *)
Definition cleanable (s : JobStatus) : bool :=
  match s with JS_COMPLETED | JS_FAILED => true | _ => false end.

(** The body of the [for job_file in glob("*.json")] loop for one file. *)
Definition cleanup_step (max_age_seconds : Z) (dry_run : bool) (now : Z)
    (stem : string) (cleaned : Z) : M Z :=
  w <- get_world ;;
  match w_fs w !! stem with
  | None => ret cleaned
  | Some f =>
    let age := now - mtime f in
    if max_age_seconds <? age then
      job <- load_job stem ;;
      match job with
      | Some job =>
        if cleanable (job_status job) then
          (if dry_run then ret false else delete_job (job_id job)) ;;;
          ret (cleaned + 1)
        else ret cleaned
      | None => ret cleaned
      end
    else ret cleaned
  end.

Fixpoint cleanup_loop (max_age_seconds : Z) (dry_run : bool) (now : Z)
    (stems : list string) (cleaned : Z) : M Z :=
  match stems with
  | [] => ret cleaned
  | stem :: rest =>
    cleaned <- cleanup_step max_age_seconds dry_run now stem cleaned ;;
    cleanup_loop max_age_seconds dry_run now rest cleaned
  end.

Definition cleanup_old_jobs (max_age_seconds : Z) (dry_run : bool) : M Z :=
  w <- get_world ;;
  let now := w_clock w in
  cleanup_loop max_age_seconds dry_run now (map fst (map_to_list (w_fs w))) 0.

(** *** What the store promises *)

(** A save is atomic when, whatever happens to the write, the file holds
    after [save_job] either what it held before or the whole new record. *)
Definition atomic_save (env : Env) (config : AudioChunker.t) (job : Job)
    (chunks_dir : option string) (w : World) : Prop :=
  let fs' := w_fs (snd (save_job env config job chunks_dir w)) in
  fs' !! job_id job = w_fs w !! job_id job \/
  content <$> fs' !! job_id job
    = Some (job_text config (set_updated_at job (w_clock w)) chunks_dir).

(** The file [stem] is older than [max_age_seconds] and holds a readable
    record whose status is [COMPLETED] or [FAILED]. *)
Definition cleaned_up (fs : gmap string File) (max_age_seconds now : Z)
    (stem : string) : bool :=
  match fs !! stem with
  | Some f =>
    (max_age_seconds <? now - mtime f) &&
    match decode_job (content f) with
    | Some job => cleanable (job_status job)
    | None => false
    end
  | None => false
  end.

(** Every readable record is stored under its own id, as [save_job]
    stores it. *)
Definition store_ok (fs : gmap string File) : Prop :=
  forall stem job, read_job fs stem = Some job -> job_id job = stem.

(** [status ∈ {COMPLETED, FAILED, CANCELLED}]. *)
Definition terminal (s : JobStatus) : bool :=
  match s with JS_COMPLETED | JS_FAILED | JS_CANCELLED => true | _ => false end.

(** The cleanup contract with [CANCELLED] counted as terminal: every
    record older than [max_age_seconds] whose status is terminal is gone
    after a cleanup that is not a dry run. *)
Definition cleanup_contract (max_age_seconds : Z) (w : World) : Prop :=
  forall stem f job,
    w_fs w !! stem = Some f ->
    max_age_seconds < w_clock w - mtime f ->
    read_job (w_fs w) stem = Some job ->
    terminal (job_status job) = true ->
    w_fs (snd (cleanup_old_jobs max_age_seconds false w)) !! stem = None.

End WithJson.

End StateManager.

(** ** Orchestrator ([bout/pipeline/orchestrator.py])

    The orchestrator runs over the live [Job] object and the world. *)

Definition OM (A : Type) : Type := State (Job * World) A.

(** Run an engine or store computation, leaving the job alone. *)
Definition lift {A} (m : M A) : OM A :=
  fun s => let '(r, w') := m (snd s) in (r, (fst s, w')).

Definition get_job : OM Job := fun s => (Ok (fst s), s).

Definition modify_job (f : Job -> Job) : OM unit :=
  fun s => (Ok tt, (f (fst s), snd s)).

Module Orchestrator.

Record t := mk {
  config_chunk : AudioChunker.t;
  temp_dir : string;
  use_diarization : bool;
  diarization_available : bool;
  transcription_engine : TranscriptionEngine.t;
}.

Definition chunk_merger (self : t) : ChunkMerger.t :=
  ChunkMerger.mk (inject_Z (AudioChunker.overlap (config_chunk self))).

Section WithJson.
Context `{JsonLib}.

(** [self.state_manager.save_job(job, chunks_dir)] on the live job. *)
Definition save (env : Env) (self : t) (chunks_dir : option string) : OM unit :=
  fun s =>
    let '(r, w') := StateManager.save_job env (config_chunk self) (fst s)
                      chunks_dir (snd s) in
    match r with
    | Ok job' => (Ok tt, (job', w'))
    | Raise e => (Raise e, (fst s, w'))
    end.

Definition set_status_and_save (env : Env) (self : t) (st : JobStatus)
    (chunks_dir : option string) : OM unit :=
  modify_job (fun j => set_job_status j st) ;;;
  save env self chunks_dir.

(** [on_chunk_progress]: it only feeds the reporter and the tracker. *)
Definition on_chunk_progress (current total : Z) : M unit := ret tt.

(** [on_chunk_checkpoint]. *)
Definition on_chunk_checkpoint (env : Env) (self : t) (job_id : string)
    (chunk : Chunk) : M unit :=
  StateManager.save_chunk_result env (config_chunk self) job_id chunk.

(** [job.chunks = self.transcription_engine.transcribe_all_chunks(job.chunks,
    ...)]: the chunks of the live job are updated in place. *)
Definition transcribe_stage (env : Env) (self : t) : OM unit :=
  fun s =>
    let job := fst s in
    let '((r, cs), w') :=
      TranscriptionEngine.transcribe_all_chunks env (transcription_engine self)
        (chunks job) (Some on_chunk_progress)
        (Some (on_chunk_checkpoint env self (job_id job))) (snd s) in
    match r with
    | None => (Ok tt, (set_chunks job cs, w'))
    | Some e => (Raise e, (set_chunks job cs, w'))
    end.

Definition set_file_path (c : Chunk) (p : option string) : Chunk :=
  mkChunk (index c) (start_time c) (end_time c) (overlap_start c) p
          (status c) (text c) (segments c) (completed_at c) (error c).

(** [AudioChunker.split_audio]. *)
Fixpoint split_audio (env : Env) (chunks : list Chunk) : OM (list Chunk) :=
  match chunks with
  | [] => ret []
  | c :: rest =>
    match split_audio_file env c with
    | Ok p =>
      rest' <- split_audio env rest ;;
      ret (set_file_path c (Some p) :: rest')
    | Raise e =>
      if is_Exception e then
        raise (ChunkingError ("Audio chunking failed: Chunk " +:+ pretty (index c)
                              +:+ ": " +:+ exn_str e))
      else raise e
    end
  end.

Definition merge_stage (self : t) : OM (string * list TranscriptionSegment) :=
  lift (emit EvMerge) ;;;
  job <- get_job ;;
  let '(full_text, segments) :=
    ChunkMerger.merge_chunks (chunk_merger self) (chunks job) in
  modify_job (fun j => set_transcription j (Some full_text) segments) ;;;
  ret (full_text, segments).

Definition generate_stage (env : Env) (text : string)
    (segments : list TranscriptionSegment) : OM string :=
  lift (emit EvGenerate) ;;;
  match generate_document env text segments with
  | Ok p => modify_job (fun j => set_output_path j (Some p)) ;;; ret p
  | Raise e => raise e
  end.

Definition _cleanup : OM unit := lift (emit EvCleanup).

Definition _execute_pipeline (env : Env) (self : t) : OM (option string) :=
  job0 <- get_job ;;
  let chunks_dir := Some (temp_dir self +:+ "/" +:+ job_id job0 +:+ "_chunks") in
  (* Stage 1: extract audio *)
  set_status_and_save env self JS_EXTRACTING None ;;;
  lift (emit EvExtract) ;;;
  audio_path <- match extract_audio env (default EmptyString (video_path job0)) with
                | Ok p => ret p
                | Raise e => raise e
                end ;;
  modify_job (fun j => set_audio_path j (Some audio_path)) ;;;
  (* Stage 2: split into chunks *)
  set_status_and_save env self JS_CHUNKING None ;;;
  lift (emit EvPlan) ;;;
  planned <- match AudioChunker.calculate_chunks (config_chunk self)
                     (duration_seconds job0) with
             | Some cs => ret cs
             | None => raise (OtherException "the planner does not return")
             end ;;
  chunks <- (if (1 <? Z.of_nat (length planned)) then
               lift (emit EvSplit) ;;; split_audio env planned
             else
               match planned with
               | c :: rest => ret (set_file_path c (Some audio_path) :: rest)
               | [] => raise (OtherException "list index out of range")
               end) ;;
  modify_job (fun j => set_chunks j chunks) ;;;
  save env self chunks_dir ;;;
  (* Stage 3: transcribe chunks *)
  set_status_and_save env self JS_TRANSCRIBING chunks_dir ;;;
  transcribe_stage env self ;;;
  (* Stage 4: merge chunks *)
  set_status_and_save env self JS_MERGING chunks_dir ;;;
  merged <- merge_stage self ;;
  let '(full_text, segments) := merged in
  (* Stage 5: diarization (optional) *)
  segments <- (if use_diarization self then
                 set_status_and_save env self JS_DIARIZING chunks_dir ;;;
                 lift (emit EvDiarize) ;;;
                 if diarization_available self then
                   match diarize env segments with
                   | Ok segs =>
                     modify_job (fun j => set_job_segments j segs) ;;; ret segs
                   | Raise e => if is_Exception e then ret segments else raise e
                   end
                 else ret segments
               else ret segments) ;;
  (* Stage 6: generate document *)
  set_status_and_save env self JS_GENERATING chunks_dir ;;;
  output_path <- generate_stage env full_text segments ;;
  (* Mark complete *)
  set_status_and_save env self JS_COMPLETED None ;;;
  _cleanup ;;;
  ret (Some output_path).

(** [process], from the freshly created job on. *)
Definition process (env : Env) (self : t) : OM (option string) :=
  catch (_execute_pipeline env self)
    (fun e =>
       match e with
       | KeyboardInterrupt =>
         set_status_and_save env self JS_CANCELLED None ;;;
         ret None
       | _ =>
         modify_job (fun j => set_job_error (set_job_status j JS_FAILED)
                                            (Some (exn_str e))) ;;;
         save env self None ;;;
         if is_BoutError e then raise e
         else raise (BoutError ("Pipeline failed: " +:+ exn_str e))
       end).

Definition _resume_from_status (env : Env) (self : t) : OM (option string) :=
  job <- get_job ;;
  (* Skip completed stages *)
  (if decide (job_status job = JS_TRANSCRIBING) then transcribe_stage env self
   else ret tt) ;;;
  (* Continue with remaining stages *)
  job <- get_job ;;
  (if bool_decide (job_status job = JS_TRANSCRIBING)
      || bool_decide (job_status job = JS_MERGING) then
     modify_job (fun j => set_job_status j JS_MERGING) ;;;
     merge_stage self ;;;
     ret tt
   else ret tt) ;;;
  job <- get_job ;;
  (if bool_decide (job_status job = JS_TRANSCRIBING)
      || bool_decide (job_status job = JS_MERGING)
      || bool_decide (job_status job = JS_GENERATING) then
     modify_job (fun j => set_job_status j JS_GENERATING) ;;;
     generate_stage env (default EmptyString (transcription_text job))
                    (job_segments job) ;;;
     ret tt
   else ret tt) ;;;
  (* Mark complete *)
  set_status_and_save env self JS_COMPLETED None ;;;
  _cleanup ;;;
  job <- get_job ;;
  ret (output_path job).

Definition resume (env : Env) (self : t) : OM (option string) :=
  job <- get_job ;;
  state <- lift (StateManager.get_job_state (job_id job)) ;;
  match state with
  | None => raise (BoutError ("Could not load state for job " +:+ job_id job))
  | Some state =>
    catch (_resume_from_status env self)
      (fun e =>
         if is_Exception e then
           modify_job (fun j => set_job_error (set_job_status j JS_FAILED)
                                              (Some (exn_str e))) ;;;
           save env self None ;;;
           raise e
         else raise e)
  end.

End WithJson.

End Orchestrator.

(** ** A JSON printer and parser

    An instance of [JsonLib] for running the store on concrete records: the
    layout of [indent=2], numbers in decimal notation, the escapes of
    [ensure_ascii=False]. *)

Module MiniJson.

Definition dquote : ascii := ascii_of_nat 34.
Definition backslash : ascii := ascii_of_nat 92.
Definition newline : ascii := ascii_of_nat 10.

Definition hex_digit (n : nat) : ascii :=
  if (n <? 10)%nat then ascii_of_nat (48 + n) else ascii_of_nat (87 + n).

Fixpoint escape (s : string) : string :=
  match s with
  | EmptyString => EmptyString
  | String a s' =>
    let n := nat_of_ascii a in
    if Nat.eqb n 34 then String backslash (String dquote (escape s'))
    else if Nat.eqb n 92 then String backslash (String backslash (escape s'))
    else if Nat.eqb n 10 then String backslash (String "n" (escape s'))
    else if Nat.eqb n 13 then String backslash (String "r" (escape s'))
    else if Nat.eqb n 9 then String backslash (String "t" (escape s'))
    else if (n <? 32)%nat then
      String backslash
        (String "u" (String "0" (String "0"
          (String (hex_digit (n / 16)) (String (hex_digit (n mod 16)) (escape s'))))))
    else String a (escape s')
  end.

Definition quote (s : string) : string :=
  String dquote (escape s +:+ String dquote EmptyString).

(** The first [n] digits of the fraction [r / d], for [0 <= r < d]. *)
Fixpoint frac_digits (n : nat) (r d : Z) : string :=
  match n with
  | O => EmptyString
  | S n' =>
    if r =? 0 then EmptyString
    else pretty ((10 * r) / d) +:+ frac_digits n' ((10 * r) mod d) d
  end.

Definition render_float (q : Q) : string :=
  let n := Qnum q in
  let d := Z.pos (Qden q) in
  let a := Z.abs n in
  let frac := frac_digits 17 (a mod d) d in
  (if n <? 0 then "-" else "") +:+ pretty (a / d) +:+ "." +:+
  (match frac with EmptyString => "0" | _ => frac end).

Definition indent (lvl : nat) : string :=
  String newline (String.concat "" (repeat "  "%string lvl)).

Fixpoint render (lvl : nat) (j : json) {struct j} : string :=
  match j with
  | JNull => "null"
  | JBool true => "true"
  | JBool false => "false"
  | JInt z => pretty z
  | JFloat q => render_float q
  | JStr s => quote s
  | JList [] => "[]"
  | JList l =>
    "[" +:+ indent (S lvl) +:+
    (fix items (l : list json) : string :=
       match l with
       | [] => EmptyString
       | [x] => render (S lvl) x
       | x :: rest => render (S lvl) x +:+ "," +:+ indent (S lvl) +:+ items rest
       end) l
    +:+ indent lvl +:+ "]"
  | JDict [] => "{}"
  | JDict kvs =>
    "{" +:+ indent (S lvl) +:+
    (fix members (kvs : list (string * json)) : string :=
       match kvs with
       | [] => EmptyString
       | [(k, v)] => quote k +:+ ": " +:+ render (S lvl) v
       | (k, v) :: rest =>
         quote k +:+ ": " +:+ render (S lvl) v +:+ "," +:+ indent (S lvl)
         +:+ members rest
       end) kvs
    +:+ indent lvl +:+ "}"
  end.

Definition dumps (j : json) : string := render 0 j.

(** *** Parsing *)

Definition is_ws (a : ascii) : bool :=
  let n := nat_of_ascii a in
  Nat.eqb n 32 || Nat.eqb n 10 || Nat.eqb n 13 || Nat.eqb n 9.

Fixpoint skip_ws (s : string) : string :=
  match s with
  | String a s' => if is_ws a then skip_ws s' else s
  | EmptyString => s
  end.

(** The digits at the head of [s]: their value, their number, the rest. *)
Fixpoint read_digits (acc : Z) (count : nat) (s : string) : Z * nat * string :=
  match s with
  | String a s' =>
    match Ascii.is_nat a with
    | Some n => read_digits (10 * acc + Z.of_nat n) (S count) s'
    | None => (acc, count, s)
    end
  | EmptyString => (acc, count, s)
  end.

Definition read_number (s : string) : option (json * string) :=
  let '(neg, s1) := match s with
                    | String "-" r => (true, r)
                    | _ => (false, s)
                    end in
  let '(ip, n1, s2) := read_digits 0 0 s1 in
  if Nat.eqb n1 0 then None
  else
    let sign := if neg then (-1) else 1 in
    match s2 with
    | String "." s3 =>
      let '(fp, n2, s4) := read_digits 0 0 s3 in
      if Nat.eqb n2 0 then None
      else
        let den := Z.to_pos (10 ^ Z.of_nat n2) in
        Some (JFloat (Qred ((sign * (ip * Z.pos den + fp)) # den)), s4)
    | _ => Some (JInt (sign * ip), s2)
    end.

Definition hex_value (a : ascii) : option nat :=
  let n := nat_of_ascii a in
  if (48 <=? n)%nat && (n <=? 57)%nat then Some (n - 48)%nat
  else if (97 <=? n)%nat && (n <=? 102)%nat then Some (n - 87)%nat
  else if (65 <=? n)%nat && (n <=? 70)%nat then Some (n - 55)%nat
  else None.

(** The rest of a string literal after its opening quote; [acc] is
    reversed. *)
Fixpoint read_string (acc : string) (s : string) : option (string * string) :=
  match s with
  | EmptyString => None
  | String a s' =>
    let n := nat_of_ascii a in
    if Nat.eqb n 34 then Some (String.rev acc, s')
    else if Nat.eqb n 92 then
      match s' with
      | String b s'' =>
        let m := nat_of_ascii b in
        if Nat.eqb m 34 then read_string (String dquote acc) s''
        else if Nat.eqb m 92 then read_string (String backslash acc) s''
        else if Nat.eqb m 47 then read_string (String "/" acc) s''
        else if Nat.eqb m 110 then read_string (String newline acc) s''
        else if Nat.eqb m 114 then read_string (String (ascii_of_nat 13) acc) s''
        else if Nat.eqb m 116 then read_string (String (ascii_of_nat 9) acc) s''
        else if Nat.eqb m 98 then read_string (String (ascii_of_nat 8) acc) s''
        else if Nat.eqb m 102 then read_string (String (ascii_of_nat 12) acc) s''
        else if Nat.eqb m 117 then
          match s'' with
          | String "0" (String "0" (String h1 (String h2 s3))) =>
            match hex_value h1, hex_value h2 with
            | Some x, Some y => read_string (String (ascii_of_nat (16 * x + y)) acc) s3
            | _, _ => None
            end
          | _ => None
          end
        else None
      | EmptyString => None
      end
    else if (n <? 32)%nat then None
    else read_string (String a acc) s'
  end.

Definition expect (word : string) (v : json) (s : string) : option (json * string) :=
  if String.prefix word s
  then Some (v, String.substring (String.length word) (String.length s) s)
  else None.

Fixpoint read_value (fuel : nat) (s : string) : option (json * string) :=
  match fuel with
  | O => None
  | S fuel' =>
    match skip_ws s with
    | EmptyString => None
    | String a r as s0 =>
      let n := nat_of_ascii a in
      if Nat.eqb n 34 then
        '(str, r') ← read_string EmptyString r; Some (JStr str, r')
      else if Nat.eqb n 91 then
        match skip_ws r with
        | String "]" r' => Some (JList [], r')
        | r1 => '(l, r') ← read_items fuel' r1 []; Some (JList l, r')
        end
      else if Nat.eqb n 123 then
        match skip_ws r with
        | String "}" r' => Some (JDict [], r')
        | r1 => '(d, r') ← read_members fuel' r1 []; Some (JDict d, r')
        end
      else if Nat.eqb n 110 then expect "null" JNull s0
      else if Nat.eqb n 116 then expect "true" (JBool true) s0
      else if Nat.eqb n 102 then expect "false" (JBool false) s0
      else read_number s0
    end
  end
with read_items (fuel : nat) (s : string) (acc : list json)
    : option (list json * string) :=
  match fuel with
  | O => None
  | S fuel' =>
    '(v, r) ← read_value fuel' s;
    match skip_ws r with
    | String "," r' => read_items fuel' r' (v :: acc)
    | String "]" r' => Some (rev (v :: acc), r')
    | _ => None
    end
  end
with read_members (fuel : nat) (s : string) (acc : list (string * json))
    : option (list (string * json) * string) :=
  match fuel with
  | O => None
  | S fuel' =>
    match skip_ws s with
    | String a r =>
      if Nat.eqb (nat_of_ascii a) 34 then
        '(k, r1) ← read_string EmptyString r;
        match skip_ws r1 with
        | String ":" r2 =>
          '(v, r3) ← read_value fuel' r2;
          match skip_ws r3 with
          | String "," r4 => read_members fuel' r4 (dict_set k v acc)
          | String "}" r4 => Some (dict_set k v acc, r4)
          | _ => None
          end
        | _ => None
        end
      else None
    | EmptyString => None
    end
  end.

Definition loads (s : string) : option json :=
  '(v, r) ← read_value (2 * String.length s + 2) s;
  match skip_ws r with
  | EmptyString => Some v
  | _ => None
  end.

End MiniJson.

#[global] Instance mini_json : JsonLib :=
  {| json_dumps := MiniJson.dumps; json_loads := MiniJson.loads |}.

(** ** Scenarios

    Concrete collaborators and inputs on which the pipeline is run. *)

(** [f"chunk_{index:03d}.wav"]. *)
Definition chunk_file_name (i : Z) : string :=
  let digits := pretty i in
  "chunk_" +:+ String.concat "" (repeat "0"%string (3 - String.length digits))
  +:+ digits +:+ ".wav".

Definition audio_file : string := "temp/video_audio.wav".

Definition chunk_file (c : Chunk) : string :=
  "temp/job00001_chunks/" +:+ chunk_file_name (index c).

(** The stub model: for the file of the chunk [k] of [plan], spanning
    [[a, b]], the single segment [(0, b - a, "T_k")]. *)
Definition stub_answer (plan : list Chunk) (path : string) : Result WhisperResult :=
  match List.find (fun c => String.eqb (chunk_file c) path
                            || (String.eqb audio_file path && (index c =? 0))) plan with
  | Some c =>
    let t := "T_" +:+ pretty (index c) in
    Ok (mkWhisper t [mkRaw 0 (end_time c - start_time c) t])
  | None => Raise (RuntimeError "file not found")
  end.

Definition stub_env (plan : list Chunk) : Env :=
  {| path_exists := fun _ => true;
     cuda_usable := true;
     whisper_load_model := fun _ => None;
     whisper_transcribe := fun _ path _ => stub_answer plan path;
     extract_audio := fun _ => Ok audio_file;
     split_audio_file := fun c => Ok (chunk_file c);
     diarize := fun segs => Ok segs;
     generate_document := fun _ _ => Ok "output/video.docx"%string;
     disk := fun _ _ => IoOk |}.

Definition scenario_orchestrator : Orchestrator.t :=
  Orchestrator.mk default_chunker "temp" false false
                  (TranscriptionEngine.mk "medium" "es" None).

Definition scenario_job (duration : Q) : Job :=
  mkJob "job00001" (Some "input/video.mp4"%string) "video.mp4" 0 0 duration
        JS_PENDING None None [] None None [].

Definition scenario_plan (duration : Q) : list Chunk :=
  default [] (AudioChunker.calculate_chunks default_chunker duration).

(** The whole pipeline on [duration] seconds of audio with the stub model. *)
Definition scenario_run (duration : Q) : Result (option string) * (Job * World) :=
  Orchestrator.process (stub_env (scenario_plan duration)) scenario_orchestrator
                       (scenario_job duration, initial_world).

(** Scenario 2 as the specification words it: the merged segments are
    clipped to [[0, 290]] and [[300, 600]]. *)
Definition scenario_600_as_specified : Prop :=
  AudioChunker.calculate_chunks default_chunker 600 =
    Some [new_chunk 0 0 300 0; new_chunk 1 290 600 10] /\
  let job := fst (snd (scenario_run 600)) in
  ChunkMerger.merge_chunks (ChunkMerger.mk 10) (chunks job) =
    ("T_0 T_1"%string,
     [mkSegment 0 290 "T_0" None; mkSegment 300 600 "T_1" None]).

Definition sample_engine : TranscriptionEngine.t :=
  TranscriptionEngine.mk "medium" "es" None.

Definition sample_chunk : Chunk :=
  mkChunk 1 290 600 10 (Some "temp/job00001_chunks/chunk_001.wav"%string)
          PENDING None [] None None.

(** U+00A0, the no-break space, in UTF-8. *)
Definition nbsp : string :=
  String (ascii_of_nat 194) (String (ascii_of_nat 160) EmptyString).

(** A model answer whose times are floats that are not integers (7.96 and
    12.04) and whose text is padded with no-break spaces. *)
Definition fractional_answer : WhisperResult :=
  mkWhisper (nbsp +:+ "hola" +:+ nbsp)
    [mkRaw (round_double (796 # 100)) (round_double (1204 # 100))
           (" " +:+ nbsp +:+ "hola" +:+ nbsp)].

(** A model that answers with a padded segment and a blank one. *)
Definition padded_env : Env :=
  {| path_exists := fun _ => true;
     cuda_usable := true;
     whisper_load_model := fun _ => None;
     whisper_transcribe := fun _ _ _ =>
       Ok (mkWhisper " hola " [mkRaw 0 2 " hola "; mkRaw 2 3 "   "]);
     extract_audio := fun _ => Ok audio_file;
     split_audio_file := fun c => Ok (chunk_file c);
     diarize := fun segs => Ok segs;
     generate_document := fun _ _ => Ok "output/video.docx"%string;
     disk := fun _ _ => IoOk |}.

(** The chunk [transcribe_chunk] hands back on [padded_env]. *)
Definition padded_result : Chunk :=
  match fst (TranscriptionEngine.transcribe_chunk padded_env sample_engine
               sample_chunk 3 initial_world) with
  | Ok c => c
  | Raise _ => sample_chunk
  end.

(** The indices of the chunks whose transcription begins, in order. *)
Definition transcribed (tr : list Event) : list Z :=
  omap (fun e => match e with EvTranscribe i => Some i | _ => None end) tr.

(** The chunk at position [i] has index [k + i]. *)
Definition dense_from (k : Z) (chunks : list Chunk) : Prop :=
  forall (i : nat) c, chunks !! i = Some c -> index c = k + Z.of_nat i.

(** The event belongs to a chunk at index [k] or later. *)
Definition event_from (k : Z) (e : Event) : Prop :=
  match e with
  | EvTranscribe j | EvCheckpoint j => k <= j
  | EvProgress j _ => k + 1 <= j
  | _ => False
  end.


(** A job checkpointed during transcription, and the world whose jobs
    directory holds its record. *)
Definition stored_job : Job :=
  mkJob "job00001" (Some "input/video.mp4"%string) "video.mp4" 0 3 600
        JS_TRANSCRIBING None (Some audio_file)
        [mkChunk 0 0 300 0 (Some "temp/job00001_chunks/chunk_000.wav"%string)
                 COMPLETED (Some "T_0"%string) [mkSegment 0 300 "T_0" None]
                 (Some 2) None;
         sample_chunk]
        None None [].

Definition stored_text : string :=
  StateManager.job_text default_chunker stored_job
                        (Some "temp/job00001_chunks"%string).

Definition stored_world : World :=
  mkWorld {[ "job00001"%string := mkFile 4 stored_text ]} 5 None None 0 [].

(** A disk on which every write to the jobs directory fails after 100
    characters. *)
Definition torn_env : Env :=
  {| path_exists := fun _ => true;
     cuda_usable := true;
     whisper_load_model := fun _ => None;
     whisper_transcribe := fun _ _ _ => Raise (RuntimeError "file not found");
     extract_audio := fun _ => Ok "temp/video_audio.wav"%string;
     split_audio_file := fun _ => Raise (OSError "disk full");
     diarize := fun segs => Ok segs;
     generate_document := fun _ _ => Raise (OSError "disk full");
     disk := fun _ _ => IoWriteFails 100 |}.

(** A result for a chunk the stored job does not have. *)
Definition stray_chunk : Chunk :=
  mkChunk 7 2030 2330 10 (Some "temp/job00001_chunks/chunk_007.wav"%string)
          COMPLETED (Some "T_7"%string) [mkSegment 2030 2330 "T_7" None]
          (Some 4) None.

(** A model that fails on the GPU with an error that is not an
    out-of-memory error, and on the CPU likewise. *)
Definition broken_env : Env :=
  {| path_exists := fun _ => true;
     cuda_usable := true;
     whisper_load_model := fun _ => None;
     whisper_transcribe := fun d _ _ =>
       match d with
       | Cuda => Raise (RuntimeError "cuDNN error")
       | Cpu => Raise (RuntimeError "boom")
       end;
     extract_audio := fun _ => Ok audio_file;
     split_audio_file := fun c => Ok (chunk_file c);
     diarize := fun segs => Ok segs;
     generate_document := fun _ _ => Ok "output/video.docx"%string;
     disk := fun _ _ => IoOk |}.

(** A model that runs out of memory on the GPU at every attempt and fails
    on the CPU with another error. *)
Definition cpu_failing_env : Env :=
  {| path_exists := fun _ => true;
     cuda_usable := true;
     whisper_load_model := fun _ => None;
     whisper_transcribe := fun d _ _ =>
       match d with
       | Cuda => Raise (RuntimeError "CUDA out of memory")
       | Cpu => Raise (RuntimeError "boom")
       end;
     extract_audio := fun _ => Ok audio_file;
     split_audio_file := fun c => Ok (chunk_file c);
     diarize := fun segs => Ok segs;
     generate_document := fun _ _ => Ok "output/video.docx"%string;
     disk := fun _ _ => IoOk |}.

(** The world with the GPU model loaded. *)
Definition loaded_world : World := mkWorld ∅ 0 (Some Cuda) (Some Cuda) 0 [].

(** The contract under which an error of the model that is not an
    out-of-memory error is fatal: a chunk on which such an error is recorded
    is [FAILED], and then the job is [FAILED] and the run raised
    [TranscriptionError]. *)
Definition non_oom_failure_is_fatal `{JsonLib} (env : Env) (self : Orchestrator.t)
    (s : Job * World) : Prop :=
  forall r job w c msg,
    Orchestrator.process env self s = (r, (job, w)) ->
    c ∈ chunks job -> error c = Some msg -> is_oom_message msg = false ->
    status c = FAILED /\ job_status job = JS_FAILED /\
    exists m, r = Raise (TranscriptionError m).

(** A job whose last checkpoint was written at the start of the extraction
    stage, and the world holding its record. *)
Definition extracting_job : Job :=
  mkJob "job00002" (Some "input/video.mp4"%string) "video.mp4" 0 1 600
        JS_EXTRACTING None None [] None None [].

Definition extracting_world : World :=
  mkWorld {[ "job00002"%string :=
               mkFile 2 (StateManager.job_text default_chunker extracting_job None) ]}
          9 None None 0 [].

(** A jobs directory with three old records: one completed, one cancelled,
    one still transcribing. *)
Definition finished_job : Job :=
  mkJob "done0001" (Some "input/a.mp4"%string) "a.mp4" 0 10 250
        JS_COMPLETED None None [] (Some "output/a.docx"%string)
        (Some "T_0"%string) [].

Definition cancelled_job : Job :=
  mkJob "canc0001" (Some "input/b.mp4"%string) "b.mp4" 0 10 250
        JS_CANCELLED None None [] None None [].

Definition running_job : Job :=
  mkJob "run00001" (Some "input/c.mp4"%string) "c.mp4" 0 10 250
        JS_TRANSCRIBING None None [] None None [].

Definition record_of (job : Job) : File :=
  mkFile 10 (StateManager.job_text default_chunker job None).

Definition archive : gmap string File :=
  <["done0001"%string := record_of finished_job]>
    (<["canc0001"%string := record_of cancelled_job]>
       (<["run00001"%string := record_of running_job]> ∅)).

Definition archive_world : World := mkWorld archive 1000000 None None 0 [].

(** Seven days, the default of [cleanup_old_jobs]. *)
Definition week : Z := 7 * 24 * 3600.

(** The chunks of the 600 s plan once split, and their transcription with
    the orchestrator's callbacks. *)
Definition split_plan : list Chunk :=
  map (fun c => Orchestrator.set_file_path c (Some (chunk_file c)))
      (scenario_plan 600).

Definition split_plan_run : (option exn * list Chunk) * World :=
  TranscriptionEngine.transcribe_all_chunks (stub_env (scenario_plan 600))
    sample_engine split_plan
    (Some Orchestrator.on_chunk_progress)
    (Some (Orchestrator.on_chunk_checkpoint (stub_env (scenario_plan 600))
             scenario_orchestrator "job00001"))
    initial_world.

(** ** Further definitions for the properties of the rest of the code *)

(** The segments [merge_chunks] keeps when two or more chunks carry a text:
    [all_segments] as the loop leaves it, in chunk order, before it is
    sorted by start time. *)
Definition kept_segments (self : ChunkMerger.t) (chunks : list Chunk)
    : list TranscriptionSegment :=
  let completed :=
    List.filter ChunkMerger.has_text
      (py_sorted (fun a b => index a <? index b) chunks) in
  concat (imap (ChunkMerger.filter_segments self (length completed)) completed).

(** A segment that lasts from the float just below 1 to 1: the sum of its
    two ends is half-way between two floats. *)
Definition tie_segment : TranscriptionSegment :=
  mkSegment (1 - pow2 (-53)) 1 "a" None.

(** Two chunks of a 600 s plan that carry a text; the first is marked
    [FAILED], as the CPU fallback leaves a chunk it transcribed when the
    model cannot be loaded again afterwards. *)
Definition failed_sample : list Chunk :=
  [ mkChunk 0 0 300 0 None FAILED (Some "hola"%string)
            [mkSegment 0 280 "hola" None; mkSegment 280 300 "mundo" None]
            (Some 2) (Some "reload failed"%string);
    mkChunk 1 290 600 10 None COMPLETED (Some "adios"%string)
            [mkSegment 301 400 "adios" None] (Some 3) None ].

(** Two transcribed chunks of a 600 s plan; the second repeats in its
    leading overlap what the first heard last. *)
Definition merge_sample : list Chunk :=
  [ mkChunk 0 0 300 0 None COMPLETED (Some "hola mundo"%string)
      [mkSegment 0 280 "hola" None; mkSegment 285 299 " mundo " None]
      None None;
    mkChunk 1 290 600 10 None COMPLETED (Some "mundo adios"%string)
      [mkSegment 291 299 "mundo" None; mkSegment 301 400 "adios  amigos" None]
      None None ].

(** A computation that makes at most [n] calls to the speech model. *)
Definition calls_within {A} (n : nat) (m : M A) : Prop :=
  forall w, (w_calls w <= w_calls (snd (m w)) <= w_calls w + n)%nat.

(** A model that runs out of memory on its first [k] calls and answers from
    then on. *)
Definition flaky_env (k : nat) : Env :=
  {| path_exists := fun _ => true;
     cuda_usable := true;
     whisper_load_model := fun _ => None;
     whisper_transcribe := fun _ _ n =>
       if (n <? k)%nat then Raise (RuntimeError "CUDA out of memory")
       else Ok (mkWhisper " hola " [mkRaw 0 2 " hola "]);
     extract_audio := fun _ => Ok audio_file;
     split_audio_file := fun c => Ok (chunk_file c);
     diarize := fun segs => Ok segs;
     generate_document := fun _ _ => Ok "output/video.docx"%string;
     disk := fun _ _ => IoOk |}.

(** A model that always runs out of memory on the GPU and answers on the
    CPU. *)
Definition gpu_oom_env : Env :=
  {| path_exists := fun _ => true;
     cuda_usable := true;
     whisper_load_model := fun _ => None;
     whisper_transcribe := fun d _ _ =>
       match d with
       | Cuda => Raise (RuntimeError "CUDA out of memory")
       | Cpu => Ok (mkWhisper " hola " [mkRaw 0 2 " hola "])
       end;
     extract_audio := fun _ => Ok audio_file;
     split_audio_file := fun c => Ok (chunk_file c);
     diarize := fun segs => Ok segs;
     generate_document := fun _ _ => Ok "output/video.docx"%string;
     disk := fun _ _ => IoOk |}.

(** An engine pinned to the CPU, and the world with its model loaded. *)
Definition cpu_engine : TranscriptionEngine.t :=
  TranscriptionEngine.mk "medium" "es" (Some Cpu).

Definition cpu_world : World := mkWorld ∅ 0 (Some Cpu) (Some Cpu) 0 [].

(** The chunks the batch driver has to transcribe: those not [COMPLETED]. *)
Definition to_transcribe (chunks : list Chunk) : list Chunk :=
  List.filter (fun c => negb (bool_decide (status c = COMPLETED))) chunks.

(** The 600 s plan on resume: the first chunk is already transcribed, the
    second one is not. *)
Definition resumed_plan : list Chunk :=
  match split_plan with
  | c0 :: rest =>
    TranscriptionEngine.completed_chunk c0 (mkWhisper "T_0" [mkRaw 0 300 "T_0"]) 0
    :: rest
  | [] => []
  end.

Definition resumed_plan_run : (option exn * list Chunk) * World :=
  TranscriptionEngine.transcribe_all_chunks (stub_env (scenario_plan 600))
    sample_engine resumed_plan
    (Some Orchestrator.on_chunk_progress)
    (Some (Orchestrator.on_chunk_checkpoint (stub_env (scenario_plan 600))
             scenario_orchestrator "job00001"))
    initial_world.

(** What a run of the loop does to each chunk: a [COMPLETED] chunk stays as
    it is; any other chunk stays as it is or is replaced by what
    [transcribe_chunk] returned for it, and it is replaced when the run ends
    without an exception. *)
Definition chunk_step (env : Env) (self : TranscriptionEngine.t) (r : option exn)
    (c c' : Chunk) : Prop :=
  (status c = COMPLETED -> c' = c) /\
  (c' = c \/ exists w0 w1,
     TranscriptionEngine.transcribe_chunk env self c 3 w0 = (Ok c', w1)) /\
  (r = None -> status c <> COMPLETED -> exists w0 w1,
     TranscriptionEngine.transcribe_chunk env self c 3 w0 = (Ok c', w1)).

(** *** Records that survive a round trip through the store

    A [Path] is never the empty string ([Path("")] is ["."]); the model
    writes paths as strings, so it has to say it. *)
Definition storable_chunk (c : Chunk) : Prop := file_path c <> Some EmptyString.

Definition storable (job : Job) : Prop :=
  video_path job <> Some EmptyString /\
  audio_path job <> Some EmptyString /\
  output_path job <> Some EmptyString /\
  Forall storable_chunk (chunks job).

(** *** The other queries of the store ([bout/state/manager.py]) *)

Section StoreQueries.
Context `{JsonLib}.

(** [get_all_jobs]: the readable records of the jobs directory, newest
    first ([jobs.sort(key=created_at, reverse=True)], a stable sort). *)
Definition get_all_jobs : M (list Job) :=
  w <- get_world ;;
  let jobs := omap (StateManager.read_job (w_fs w))
                   (map fst (map_to_list (w_fs w))) in
  ret (py_sorted (fun a b => created_at b <? created_at a) jobs).

(** [job.status in resumable_statuses]. *)
Definition resumable (s : JobStatus) : bool :=
  match s with
  | JS_EXTRACTING | JS_CHUNKING | JS_TRANSCRIBING | JS_MERGING
  | JS_GENERATING => true
  | _ => false
  end.

Definition get_incomplete_jobs : M (list Job) :=
  jobs <- get_all_jobs ;;
  ret (List.filter (fun j => resumable (job_status j)) jobs).

Definition update_job_status (env : Env) (config : AudioChunker.t)
    (job_id : string) (status : JobStatus) (error : option string) : M unit :=
  job <- StateManager.load_job job_id ;;
  match job with
  | Some job =>
    let job := set_job_error (set_job_status job status) error in
    StateManager.save_job env config job None ;;;
    ret tt
  | None => ret tt
  end.

End StoreQueries.

(** The result of transcribing the second chunk of [stored_job]. *)
Definition second_result : Chunk :=
  TranscriptionEngine.completed_chunk sample_chunk
    (mkWhisper "T_1" [mkRaw 0 310 "T_1"]) 4.

(** A step of the orchestrator that leaves the chunk list of the live job
    alone. *)
Definition keeps_chunks {A} (m : OM A) : Prop :=
  forall s, chunks (fst (snd (m s))) = chunks (fst s).

(** A job stored while merging, with both chunks transcribed, and a job
    stored while its document was being generated. *)
Definition merging_job : Job :=
  mkJob "job00003" (Some "input/video.mp4"%string) "video.mp4" 0 7 600
        JS_MERGING None (Some audio_file)
        [mkChunk 0 0 300 0 (Some "temp/job00003_chunks/chunk_000.wav"%string)
                 COMPLETED (Some "T_0"%string) [mkSegment 0 300 "T_0" None]
                 (Some 2) None;
         mkChunk 1 290 600 10 (Some "temp/job00003_chunks/chunk_001.wav"%string)
                 COMPLETED (Some "T_1"%string) [mkSegment 290 600 "T_1" None]
                 (Some 4) None]
        None None [].

Definition merging_world : World :=
  mkWorld {[ "job00003"%string :=
               mkFile 7 (StateManager.job_text default_chunker merging_job None) ]}
          9 None None 0 [].

Definition generating_job : Job :=
  mkJob "job00004" (Some "input/video.mp4"%string) "video.mp4" 0 8 600
        JS_GENERATING None (Some audio_file) [] None (Some "T_0 T_1"%string) [].

Definition generating_world : World :=
  mkWorld {[ "job00004"%string :=
               mkFile 8 (StateManager.job_text default_chunker generating_job None) ]}
          9 None None 0 [].

(** ** Speaker labels ([bout/diarization/engine.py])

    [merge_with_transcription] and [consolidate_segments] update some of the
    segments they are given in place; what is modelled here is the list
    they return. *)

(** Python's [max(a, b)]: [b] when [b > a], else [a]. *)
Definition py_max (a b : Q) : Q := if Qltb a b then b else a.

Module DiarizationEngine.

(** One turn of the diarization: [{"start": .., "end": .., "speaker": ..}]. *)
Record Turn := mkTurn {
  turn_start : Q;
  turn_end : Q;
  turn_speaker : string;
}.

(** [max(0, min(trans_seg.end, diar_seg["end"])
            - max(trans_seg.start, diar_seg["start"]))]. *)
Definition overlap (seg : TranscriptionSegment) (d : Turn) : Q :=
  py_max 0 (py_min (seg_end seg) (turn_end d)
            - py_max (seg_start seg) (turn_start d)).

(** The [for diar_seg in diarization_segments] loop. *)
Fixpoint best_speaker_loop (seg : TranscriptionSegment) (turns : list Turn)
    (best_speaker : option string) (best_overlap : Q) : option string :=
  match turns with
  | [] => best_speaker
  | d :: rest =>
    let o := overlap seg d in
    if Qltb best_overlap o then best_speaker_loop seg rest (Some (turn_speaker d)) o
    else best_speaker_loop seg rest best_speaker best_overlap
  end.

(** [best_speaker or "Hablante"]: [None] and the empty string are falsy. *)
Definition or_default (o : option string) : string :=
  match o with
  | None | Some EmptyString => "Hablante"
  | Some s => s
  end.

Definition assign_speaker (turns : list Turn) (seg : TranscriptionSegment)
    : TranscriptionSegment :=
  mkSegment (seg_start seg) (seg_end seg) (seg_text seg)
            (Some (or_default (best_speaker_loop seg turns None 0))).

Definition merge_with_transcription (transcription_segments : list TranscriptionSegment)
    (diarization_segments : list Turn) : list TranscriptionSegment :=
  map (assign_speaker diarization_segments) transcription_segments.

(** [current.end = seg.end; current.text = current.text + " " + seg.text]. *)
Definition extend (current seg : TranscriptionSegment) : TranscriptionSegment :=
  mkSegment (seg_start current) (seg_end seg)
            (seg_text current +:+ " " +:+ seg_text seg) (seg_speaker current).

(** [same_speaker and small_gap]. *)
Definition mergeable (gap_threshold : Q) (current seg : TranscriptionSegment) : bool :=
  bool_decide (seg_speaker seg = seg_speaker current)
  && Qleb (seg_start seg - seg_end current) gap_threshold.

(** The [for seg in segments[1:]] loop, with the final
    [consolidated.append(current)]. *)
Fixpoint consolidate_loop (gap_threshold : Q) (current : TranscriptionSegment)
    (rest : list TranscriptionSegment) : list TranscriptionSegment :=
  match rest with
  | [] => [current]
  | seg :: rest' =>
    if mergeable gap_threshold current seg then
      consolidate_loop gap_threshold (extend current seg) rest'
    else
      current :: consolidate_loop gap_threshold
                   (mkSegment (seg_start seg) (seg_end seg) (seg_text seg)
                              (seg_speaker seg)) rest'
  end.

Definition consolidate_segments (segments : list TranscriptionSegment)
    (gap_threshold : Q) : list TranscriptionSegment :=
  match segments with
  | [] => []
  | first :: rest => consolidate_loop gap_threshold first rest
  end.

End DiarizationEngine.

(** The labelled segments of a talk between two speakers, and the turns a
    diarization found in it. *)
Definition talk_segments : list TranscriptionSegment :=
  [mkSegment 0 4 "hola" None; mkSegment (9 # 2) 8 "como estas" None;
   mkSegment 9 12 "bien" None; mkSegment 20 22 "adios" None].

Definition talk_turns : list DiarizationEngine.Turn :=
  [DiarizationEngine.mkTurn 0 (17 # 2) "Hablante 1";
   DiarizationEngine.mkTurn (17 # 2) 13 "Hablante 2";
   DiarizationEngine.mkTurn 19 23 "Hablante 1"].

(** [Job.total_chunks] and [Job.progress] ([bout/core/types.py]). *)
Definition total_chunks (j : Job) : nat := length (chunks j).

Definition Job_progress (j : Job) : Q :=
  if decide (job_status j = JS_COMPLETED) then 1
  else if decide (job_status j = JS_FAILED) then 0
  else match chunks j with
       | [] => 0
       | _ => inject_Z (Z.of_nat (completed_chunks j))
              / inject_Z (Z.of_nat (total_chunks j))
       end.

(** A splitter that fails on the chunk with index 1. *)
Definition split_failing_env : Env :=
  {| path_exists := fun _ => true;
     cuda_usable := true;
     whisper_load_model := fun _ => None;
     whisper_transcribe := fun _ path _ => stub_answer [] path;
     extract_audio := fun _ => Ok audio_file;
     split_audio_file := fun c =>
       if index c =? 1 then Raise (OSError "disk full") else Ok (chunk_file c);
     diarize := fun segs => Ok segs;
     generate_document := fun _ _ => Ok "output/video.docx"%string;
     disk := fun _ _ => IoOk |}.

(** ** Further definitions for the fate of a job whose model fails *)

(** The model is loaded on the device [d], or can be: [load_model] leaves
    it loaded on [d]. *)
Definition model_ready (env : Env) (self : TranscriptionEngine.t) (w : World)
    (d : Device) : Prop :=
  w_model w = Some d \/
  (w_model w = None /\ TranscriptionEngine._detect_device env self = d /\
   whisper_load_model env d = None).

(** The file of the chunk [c] is there and the model answers every call
    made for it on the device [d]. *)
Definition model_answers (env : Env) (d : Device) (c : Chunk) : Prop :=
  TranscriptionEngine.file_missing env c = false /\
  forall n, exists r,
    whisper_transcribe env d (default "None"%string (file_path c)) n = Ok r.

(** The chunk list that stage 2 of the pipeline leaves in the job when every
    chunk file can be cut: the planned chunks with the paths of their files
    or, for a plan of a single chunk, that chunk with the extracted audio as
    its file. *)
Definition staged_chunks (env : Env) (audio_path : string)
    (planned cs : list Chunk) : Prop :=
  if 1 <? Z.of_nat (length planned) then
    Forall2 (fun c c' => exists p, split_audio_file env c = Ok p /\
                                   c' = Orchestrator.set_file_path c (Some p))
            planned cs
  else
    exists c rest, planned = c :: rest /\
                   cs = Orchestrator.set_file_path c (Some audio_path) :: rest.

(** A model that answers for the first chunk of the 600 s plan and fails
    for the file of the second with an error that is not an out-of-memory
    error, on either device. *)
Definition second_broken_env : Env :=
  {| path_exists := fun _ => true;
     cuda_usable := true;
     whisper_load_model := fun _ => None;
     whisper_transcribe := fun _ path _ =>
       if String.eqb path "temp/job00001_chunks/chunk_001.wav"
       then Raise (RuntimeError "cuDNN error")
       else stub_answer (scenario_plan 600) path;
     extract_audio := fun _ => Ok audio_file;
     split_audio_file := fun c => Ok (chunk_file c);
     diarize := fun segs => Ok segs;
     generate_document := fun _ _ => Ok "output/video.docx"%string;
     disk := fun _ _ => IoOk |}.
(** * Properties *)

(** ** Comparisons *)

Lemma Qltb_lt x y : Qltb x y = true <-> (x < y)%Q.
Proof.
  unfold Qltb. rewrite negb_true_iff, <- not_true_iff_false, Qle_bool_iff.
  split; [apply Qnot_le_lt | apply Qlt_not_le].
Qed.

Lemma Qltb_ge x y : Qltb x y = false <-> (y <= x)%Q.
Proof.
  unfold Qltb. rewrite negb_false_iff. apply Qle_bool_iff.
Qed.

Lemma Qleb_le x y : Qleb x y = true <-> (x <= y)%Q.
Proof. apply Qle_bool_iff. Qed.

Lemma Qleb_gt x y : Qleb x y = false <-> (y < x)%Q.
Proof.
  unfold Qleb. rewrite <- not_true_iff_false, Qle_bool_iff.
  split; [apply Qnot_le_lt | apply Qlt_not_le].
Qed.

Lemma py_min_le_l a b : (py_min a b <= a)%Q.
Proof.
  unfold py_min. destruct (Qltb b a) eqn:E; [|lra].
  apply Qltb_lt in E. lra.
Qed.

Lemma py_min_le_r a b : (py_min a b <= b)%Q.
Proof.
  unfold py_min. destruct (Qltb b a) eqn:E; [lra|].
  apply Qltb_ge in E. lra.
Qed.

Lemma py_min_glb a b c : (c <= a)%Q -> (c <= b)%Q -> (c <= py_min a b)%Q.
Proof. unfold py_min. destruct (Qltb b a); auto. Qed.


(** ** Floats: rounding to binary64 *)

Lemma pow2_pos k : (0 < pow2 k)%Q.
Proof. apply Qpower_0_lt. reflexivity. Qed.

Lemma pow2_add a b : (pow2 (a + b) == pow2 a * pow2 b)%Q.
Proof. apply Qpower_plus. discriminate. Qed.

Lemma pow2_le a b : a <= b -> (pow2 a <= pow2 b)%Q.
Proof. intros H. apply Qpower_le_compat_l; [exact H|discriminate]. Qed.

Lemma pow2_lt a b : a < b -> (pow2 a < pow2 b)%Q.
Proof. intros H. apply Qpower_lt_compat_l; [exact H|reflexivity]. Qed.

Lemma pow2_lt_inv a b : (pow2 a < pow2 b)%Q -> a < b.
Proof. intros H. apply (Qpower_lt_compat_l_inv 2); [exact H|reflexivity]. Qed.

Lemma pow2_Z k : 0 <= k -> (pow2 k == inject_Z (2 ^ k))%Q.
Proof. intros H. symmetry. apply (Zpower_Qpower 2 k H). Qed.

Lemma round_half_even_bounds q :
  Qfloor q <= round_half_even q <= Qfloor q + 1.
Proof.
  unfold round_half_even. destruct (_ ?= _)%Q; [destruct (Z.even _)| |]; lia.
Qed.

Lemma round_half_even_le x y : (x <= y)%Q -> round_half_even x <= round_half_even y.
Proof.
  intros Hxy. pose proof (Qfloor_resp_le x y Hxy) as Hf.
  destruct (Z.eq_dec (Qfloor x) (Qfloor y)) as [Heq|Hne].
  - unfold round_half_even. rewrite <- Heq.
    destruct (Qcompare_spec (x - inject_Z (Qfloor x)) (1 # 2)) as [Hx|Hx|Hx];
      destruct (Qcompare_spec (y - inject_Z (Qfloor x)) (1 # 2)) as [Hy|Hy|Hy];
      try destruct (Z.even (Qfloor x)); try lia; exfalso; lra.
  - pose proof (round_half_even_bounds x). pose proof (round_half_even_bounds y). lia.
Qed.

Lemma round_half_even_Z n : round_half_even (inject_Z n) = n.
Proof.
  unfold round_half_even. rewrite Qfloor_Z.
  replace (inject_Z n - inject_Z n ?= 1 # 2)%Q with Lt; [reflexivity|].
  symmetry. apply Qlt_alt. setoid_replace (inject_Z n - inject_Z n)%Q with 0%Q using relation Qeq by ring. reflexivity.
Qed.

Lemma round_half_even_comp x y : (x == y)%Q -> round_half_even x = round_half_even y.
Proof.
  intros Hxy. unfold round_half_even. rewrite (Qfloor_comp x y Hxy).
  assert (Hc : (x - inject_Z (Qfloor y) ?= 1 # 2)%Q
               = (y - inject_Z (Qfloor y) ?= 1 # 2)%Q).
  { apply Qcompare_comp; [|reflexivity]. rewrite Hxy. reflexivity. }
  rewrite Hc. reflexivity.
Qed.

(** The binary64 numbers around [q] are the multiples of [2^u] for
    [u = ulp_exponent q]: [|q| < 2^(u+53)], and [2^(u+52) <= |q|] unless [q]
    is in the subnormal range. *)
Lemma ulp_exponent_spec q :
  -1074 <= ulp_exponent q /\
  (Qabs q < pow2 (ulp_exponent q + 53))%Q /\
  (-1074 < ulp_exponent q -> (pow2 (ulp_exponent q + 52) <= Qabs q)%Q).
Proof.
  unfold ulp_exponent.
  set (t := (Qabs q * pow2 1074)%Q). set (M := Qfloor t).
  assert (Ht : (0 <= t)%Q).
  { unfold t. apply Qmult_le_0_compat; [apply Qabs_nonneg|].
    apply Qlt_le_weak, pow2_pos. }
  assert (HM : 0 <= M).
  { unfold M. change 0 with (Qfloor 0). apply Qfloor_resp_le, Ht. }
  pose proof (Qfloor_le t) as Hlo. pose proof (Qlt_floor t) as Hhi.
  fold M in Hlo, Hhi.
  assert (Hx : forall k, (Qabs q * pow2 1074 < pow2 (k + 1074))%Q ->
                         (Qabs q < pow2 k)%Q).
  { intros k Hk. rewrite pow2_add in Hk.
    pose proof (pow2_pos 1074). 
    apply Qmult_lt_r with (z := pow2 1074); assumption. }
  assert (Hy : forall k, (pow2 (k + 1074) <= Qabs q * pow2 1074)%Q ->
                         (pow2 k <= Qabs q)%Q).
  { intros k Hk. rewrite pow2_add in Hk.
    pose proof (pow2_pos 1074).
    apply Qmult_le_r with (z := pow2 1074); assumption. }
  split; [lia|].
  destruct (Z.le_gt_cases 52 (Z.log2 M)) as [HL|HL].
  - assert (HMpos : 0 < M).
    { destruct (Z.eq_dec M 0) as [E|E]; [rewrite E in HL; simpl in HL; lia|lia]. }
    pose proof (Z.log2_spec M HMpos) as [Hl Hh].
    rewrite Z.max_l by lia. split.
    + apply Hx. fold t.
      apply Qlt_le_trans with (1 := Hhi).
      rewrite pow2_Z by lia. rewrite <- Zle_Qle.
      replace (Z.log2 M - 1126 + 53 + 1074) with (Z.succ (Z.log2 M)) by lia. lia.
    + intros _. apply Hy. fold t.
      apply Qle_trans with (2 := Hlo).
      rewrite pow2_Z by lia. rewrite <- Zle_Qle.
      replace (Z.log2 M - 1126 + 52 + 1074) with (Z.log2 M) by lia. lia.
  - rewrite Z.max_r by lia. split; [|lia].
    apply Hx. fold t. apply Qlt_le_trans with (1 := Hhi).
    rewrite pow2_Z by lia. rewrite <- Zle_Qle.
    assert (M < 2 ^ 52).
    { destruct (Z.eq_dec M 0) as [E|E]; [rewrite E; reflexivity|].
      pose proof (Z.log2_spec M ltac:(lia)) as [_ Hh].
      apply Z.lt_le_trans with (1 := Hh).
      apply Z.pow_le_mono_r; lia. }
    change (-1074 + 53 + 1074) with 53.
    assert (2 ^ 52 < 2 ^ 53) by (apply Z.pow_lt_mono_r; lia). lia.
Qed.

Lemma ulp_exponent_le a b :
  (Qabs a <= Qabs b)%Q -> ulp_exponent a <= ulp_exponent b.
Proof.
  intros H. unfold ulp_exponent.
  apply Z.max_le_compat_r, Z.sub_le_mono_r, Z.log2_le_mono, Qfloor_resp_le.
  apply Qmult_le_compat_r; [exact H|]. apply Qlt_le_weak, pow2_pos.
Qed.

Lemma round_double_eq q :
  (round_double q ==
   inject_Z (round_half_even (q / pow2 (ulp_exponent q))) * pow2 (ulp_exponent q))%Q.
Proof. unfold round_double. apply Qred_correct. Qed.

Lemma grid_le u x y :
  (x <= y)%Q ->
  (inject_Z (round_half_even (x / pow2 u)) * pow2 u <=
   inject_Z (round_half_even (y / pow2 u)) * pow2 u)%Q.
Proof.
  intros Hxy. pose proof (pow2_pos u) as Hp.
  apply Qmult_le_compat_r; [|apply Qlt_le_weak, Hp].
  rewrite <- Zle_Qle. apply round_half_even_le.
  apply Qmult_le_compat_r; [exact Hxy|].
  apply Qlt_le_weak, Qinv_lt_0_compat, Hp.
Qed.

Lemma grid_Z u (n : Z) (x : Q) :
  (x == inject_Z n * pow2 u)%Q ->
  (inject_Z (round_half_even (x / pow2 u)) * pow2 u == x)%Q.
Proof.
  intros Hx. pose proof (pow2_pos u) as Hp.
  assert (Hq : (x / pow2 u == inject_Z n)%Q).
  { rewrite Hx. field. lra. }
  rewrite (round_half_even_comp _ _ Hq), round_half_even_Z, Hx. reflexivity.
Qed.

Lemma grid_pow2 u k :
  u <= k ->
  (inject_Z (round_half_even (pow2 k / pow2 u)) * pow2 u == pow2 k)%Q /\
  (inject_Z (round_half_even (- pow2 k / pow2 u)) * pow2 u == - pow2 k)%Q.
Proof.
  intros Hk.
  assert (E : (pow2 k == inject_Z (2 ^ (k - u)) * pow2 u)%Q).
  { rewrite <- pow2_Z by lia. rewrite <- pow2_add. f_equiv. lia. }
  split.
  - apply (grid_Z u (2 ^ (k - u))), E.
  - apply (grid_Z u (- 2 ^ (k - u))). rewrite inject_Z_opp, E at 1. ring.
Qed.

(** Rounding to binary64 is monotone. *)
Lemma round_double_le a b : (a <= b)%Q -> (round_double a <= round_double b)%Q.
Proof.
  intros Hab. rewrite !round_double_eq.
  destruct (ulp_exponent_spec a) as (_ & Ha & Ha').
  destruct (ulp_exponent_spec b) as (Hb0 & Hb & Hb').
  destruct (ulp_exponent_spec a) as (Ha0 & _).
  pose proof (Qle_Qabs a) as Ha1. pose proof (Qle_Qabs (- a)) as Ha2.
  pose proof (Qle_Qabs b) as Hb1. pose proof (Qle_Qabs (- b)) as Hb2.
  rewrite Qabs_opp in Ha2, Hb2.
  destruct (Z.lt_trichotomy (ulp_exponent a) (ulp_exponent b)) as [Hu|[Hu|Hu]].
  - specialize (Hb' ltac:(lia)).
    pose proof (pow2_le (ulp_exponent a + 53) (ulp_exponent b + 52) ltac:(lia)) as Hp.
    destruct (grid_pow2 (ulp_exponent a) (ulp_exponent b + 52) ltac:(lia)) as [G1 _].
    destruct (grid_pow2 (ulp_exponent b) (ulp_exponent b + 52) ltac:(lia)) as [G2 _].
    assert (Hbpos : (pow2 (ulp_exponent b + 52) <= b)%Q).
    { destruct (Qlt_le_dec b 0) as [Hneg|Hpos].
      - pose proof (Qabs_neg a ltac:(lra)). pose proof (Qabs_neg b ltac:(lra)). lra.
      - pose proof (Qabs_pos b Hpos). lra. }
    apply Qle_trans with (y := pow2 (ulp_exponent b + 52)).
    + eapply Qle_trans; [apply (grid_le _ a (pow2 (ulp_exponent b + 52))); lra|].
      rewrite G1. apply Qle_refl.
    + eapply Qle_trans; [|apply (grid_le _ (pow2 (ulp_exponent b + 52)) b Hbpos)].
      rewrite G2. apply Qle_refl.
  - rewrite Hu. apply grid_le, Hab.
  - specialize (Ha' ltac:(lia)).
    pose proof (pow2_le (ulp_exponent b + 53) (ulp_exponent a + 52) ltac:(lia)) as Hp.
    destruct (grid_pow2 (ulp_exponent a) (ulp_exponent a + 52) ltac:(lia)) as [_ G1].
    destruct (grid_pow2 (ulp_exponent b) (ulp_exponent a + 52) ltac:(lia)) as [_ G2].
    assert (Haneg : (a <= - pow2 (ulp_exponent a + 52))%Q).
    { destruct (Qlt_le_dec 0 a) as [Hpos|Hneg].
      - pose proof (Qabs_pos a ltac:(lra)). pose proof (Qabs_pos b ltac:(lra)). lra.
      - pose proof (Qabs_neg a Hneg). lra. }
    apply Qle_trans with (y := (- pow2 (ulp_exponent a + 52))%Q).
    + eapply Qle_trans;
        [apply (grid_le _ a (- pow2 (ulp_exponent a + 52))%Q Haneg)|].
      rewrite G1. apply Qle_refl.
    + eapply Qle_trans;
        [|apply (grid_le _ (- pow2 (ulp_exponent a + 52))%Q b); lra].
      rewrite G2. apply Qle_refl.
Qed.

Lemma round_double_between lo hi x :
  is_double lo -> is_double hi -> (lo <= x)%Q -> (x <= hi)%Q ->
  (lo <= round_double x)%Q /\ (round_double x <= hi)%Q.
Proof.
  intros Hlo Hhi H1 H2. unfold is_double in *.
  pose proof (round_double_le lo x H1). pose proof (round_double_le x hi H2).
  split; lra.
Qed.

(** Twice a binary64 number is one. *)
Lemma is_double_twice q : is_double q -> is_double (2 * q).
Proof.
  unfold is_double. intros Hq. rewrite round_double_eq in Hq |- *.
  set (u := ulp_exponent q) in *. set (u' := ulp_exponent (2 * q)).
  set (k := round_half_even (q / pow2 u)) in *.
  destruct (ulp_exponent_spec q) as (Hu0 & Hu & _). fold u in Hu0, Hu.
  destruct (ulp_exponent_spec (2 * q)) as (Hu0' & _ & Hu'). fold u' in Hu0', Hu'.
  assert (Habs : (Qabs (2 * q) == 2 * Qabs q)%Q).
  { rewrite Qabs_Qmult. reflexivity. }
  assert (Hle : u <= u').
  { apply ulp_exponent_le. rewrite Habs. pose proof (Qabs_nonneg q). lra. }
  assert (Hge : u' <= u + 1).
  { destruct (Z.eq_dec u' (-1074)) as [E|E]; [lia|].
    specialize (Hu' ltac:(lia)). rewrite Habs in Hu'.
    assert (H54 : (pow2 (u + 54) == 2 * pow2 (u + 53))%Q).
    { replace (u + 54) with (1 + (u + 53)) by lia. rewrite pow2_add. reflexivity. }
    assert (Hlt : (pow2 (u' + 52) < pow2 (u + 54))%Q) by lra.
    apply pow2_lt_inv in Hlt. lia. }
  assert (Hcase : u' = u \/ u' = u + 1) by lia.
  destruct Hcase as [-> | ->].
  - apply (grid_Z u (2 * k)). rewrite inject_Z_mult, <- Hq at 1.
    change (inject_Z 2) with 2%Q. ring.
  - apply (grid_Z (u + 1) k). rewrite pow2_add. change (pow2 1) with 2%Q.
    rewrite <- Hq at 1. ring.
Qed.

Lemma pow2_le_inv a b : (pow2 a <= pow2 b)%Q -> a <= b.
Proof. intros H. apply (Qpower_le_compat_l_inv 2); [exact H|reflexivity]. Qed.

(** What rounding returns is a binary64 number. *)
Lemma round_double_is_double q : is_double (round_double q).
Proof.
  unfold is_double. rewrite (round_double_eq (round_double q)).
  pose proof (round_double_eq q) as HR.
  set (R := round_double q) in *. set (u := ulp_exponent q) in *.
  set (k := round_half_even (q / pow2 u)) in *.
  destruct (ulp_exponent_spec q) as (Hu0 & Hu & _). fold u in Hu0, Hu.
  destruct (ulp_exponent_spec R) as (_ & _ & HuR).
  set (uR := ulp_exponent R) in *.
  pose proof (pow2_pos u) as Hp.
  assert (Hk : - 2 ^ 53 <= k <= 2 ^ 53).
  { assert (Hq : (- pow2 53 <= q / pow2 u <= pow2 53)%Q).
    { rewrite pow2_add in Hu.
      pose proof (Qle_Qabs q) as H1. pose proof (Qle_Qabs (- q)) as H2.
      rewrite Qabs_opp in H2.
      split.
      - apply Qle_shift_div_l; [exact Hp|]. lra.
      - apply Qle_shift_div_r; [exact Hp|]. lra. }
    destruct Hq as [Hq1 Hq2].
    apply round_half_even_le in Hq1. apply round_half_even_le in Hq2.
    rewrite (round_half_even_comp (- pow2 53) (inject_Z (- 2 ^ 53))) in Hq1
      by reflexivity.
    rewrite (round_half_even_comp (pow2 53) (inject_Z (2 ^ 53))) in Hq2
      by reflexivity.
    rewrite round_half_even_Z in Hq1, Hq2. fold k in Hq1, Hq2. lia. }
  destruct (Z.le_gt_cases uR u) as [Hle|Hgt].
  - apply (grid_Z uR (k * 2 ^ (u - uR))).
    rewrite HR, inject_Z_mult, <- pow2_Z by lia.
    rewrite <- Qmult_assoc, <- pow2_add. f_equiv. f_equiv. lia.
  - specialize (HuR ltac:(lia)).
    assert (Habs : (Qabs R == inject_Z (Z.abs k) * pow2 u)%Q).
    { rewrite HR, Qabs_Qmult. rewrite (Qabs_pos (pow2 u)) by lra.
      apply Qmult_comp; [|reflexivity].
      unfold Qabs, inject_Z. simpl. reflexivity. }
    rewrite Habs in HuR.
    assert (Hk' : (inject_Z (Z.abs k) <= inject_Z (2 ^ 53))%Q)
      by (rewrite <- Zle_Qle; lia).
    assert (H53 : (pow2 (u + 53) == inject_Z (2 ^ 53) * pow2 u)%Q).
    { rewrite <- pow2_Z by lia. rewrite <- pow2_add. f_equiv. lia. }
    assert (Hup : (inject_Z (Z.abs k) * pow2 u <= pow2 (u + 53))%Q).
    { rewrite H53. apply Qmult_le_compat_r; [exact Hk'|lra]. }
    assert (HuR1 : uR = u + 1).
    { assert (Hpow : (pow2 (uR + 52) <= pow2 (u + 53))%Q) by lra.
      apply pow2_le_inv in Hpow. lia. }
    assert (Hkabs : Z.abs k = 2 ^ 53).
    { rewrite HuR1 in HuR. replace (u + 1 + 52) with (u + 53) in HuR by lia.
      rewrite H53 in HuR. apply Qmult_le_r in HuR; [|exact Hp].
      rewrite <- Zle_Qle in HuR. lia. }
    rewrite HuR1.
    assert (Hk2 : k = 2 * (k / 2)).
    { assert (H2 : (2 | k)).
      { apply Z.divide_abs_r. rewrite Hkabs. exists (2 ^ 52). reflexivity. }
      apply Z.divide_div_mul_exact with (c := 2) in H2; [|lia].
      rewrite Z.mul_comm, Z.div_mul in H2 by lia. 
      destruct (Z.abs_spec k) as [[_ E]|[_ E]]; rewrite E in Hkabs.
      - rewrite Hkabs. reflexivity.
      - replace k with (- 2 ^ 53) by lia. reflexivity. }
    apply (grid_Z (u + 1) (k / 2)). rewrite HR, pow2_add.
    change (pow2 1) with 2%Q. rewrite Hk2 at 1. rewrite inject_Z_mult.
    change (inject_Z 2) with 2%Q. ring.
Qed.

(** The integers up to [2^53] in absolute value are binary64 numbers. *)
Lemma is_double_Z k : Z.abs k <= 2 ^ 53 -> is_double (inject_Z k).
Proof.
  intros Hk. unfold is_double. rewrite round_double_eq.
  destruct (ulp_exponent_spec (inject_Z k)) as (Hu0 & _ & Hu).
  set (u := ulp_exponent (inject_Z k)) in *.
  assert (Habs : (Qabs (inject_Z k) == inject_Z (Z.abs k))%Q)
    by (unfold Qabs, inject_Z; simpl; reflexivity).
  assert (Hle : u <= 1).
  { destruct (Z.eq_dec u (-1074)) as [E|E]; [lia|].
    specialize (Hu ltac:(lia)). rewrite Habs in Hu.
    assert (Hpow : (pow2 (u + 52) <= pow2 53)%Q).
    { apply Qle_trans with (1 := Hu). rewrite pow2_Z by lia.
      rewrite <- Zle_Qle. exact Hk. }
    apply pow2_le_inv in Hpow. lia. }
  destruct (Z.le_gt_cases u 0) as [H0|H1].
  - apply (grid_Z u (k * 2 ^ (- u))).
    rewrite inject_Z_mult, <- pow2_Z by lia.
    rewrite <- Qmult_assoc, <- pow2_add.
    replace (- u + u) with 0 by lia. change (pow2 0) with 1%Q. ring.
  - assert (u = 1) as -> by lia.
    specialize (Hu ltac:(lia)). rewrite Habs in Hu.
    change (1 + 52) with 53 in Hu. rewrite pow2_Z in Hu by lia.
    rewrite <- Zle_Qle in Hu.
    assert (Hkabs : Z.abs k = 2 ^ 53) by lia.
    assert (Hk2 : k = 2 ^ 52 * 2 \/ k = (- 2 ^ 52) * 2).
    { destruct (Z.abs_spec k) as [[_ E]|[_ E]]; rewrite E in Hkabs; [left|right];
        [rewrite Hkabs; reflexivity|].
      replace k with (- 2 ^ 53) by lia. reflexivity. }
    change (pow2 1) with 2%Q.
    destruct Hk2 as [-> | ->].
    + apply (grid_Z 1 (2 ^ 52)). rewrite inject_Z_mult. reflexivity.
    + apply (grid_Z 1 (- 2 ^ 52)). rewrite inject_Z_mult. reflexivity.
Qed.
(** ** The chunk planner *)

Example plan_600 :
  AudioChunker.calculate_chunks default_chunker 600 =
  Some [new_chunk 0 0 300 0; new_chunk 1 290 600 10].
Proof. vm_compute. reflexivity. Qed.

Example plan_905 :
  option_map (map (fun c => (start_time c, end_time c)))
    (AudioChunker.calculate_chunks default_chunker 905) =
  Some [(0, 300); (290, 590); (580, 880); (870, 905)]%Q.
Proof. vm_compute. reflexivity. Qed.

Example plan_301 :
  AudioChunker.calculate_chunks default_chunker 301 = Some [new_chunk 0 0 301 0].
Proof. vm_compute. reflexivity. Qed.

Lemma set_last_end_time_snoc l c d :
  AudioChunker.set_last_end_time (l ++ [c]) d = l ++ [set_end_time c d].
Proof.
  induction l as [|x l IH]; [reflexivity|].
  change ((x :: l) ++ [c]) with (x :: (l ++ [c])).
  cbn [AudioChunker.set_last_end_time]. rewrite IH.
  destruct l; reflexivity.
Qed.

Section PlannerLoop.
Variable self : AudioChunker.t.
Variable duration : Q.

Abbreviation cd := (AudioChunker.chunk_duration self).
Abbreviation ov := (AudioChunker.overlap self).
Abbreviation mc := (AudioChunker.min_chunk self).
Abbreviation step := (effective_step self).

Hypothesis Hparams : params_ok self.

Lemma step_pos : (1 <= inject_Z step)%Q.
Proof.
  destruct Hparams as [[H1 H2] _]. unfold effective_step.
  change 1%Q with (inject_Z 1). rewrite <- Zle_Qle. lia.
Qed.

Lemma step_le_cd : (inject_Z step <= inject_Z cd)%Q.
Proof.
  destruct Hparams as [[H1 H2] _]. unfold effective_step.
  rewrite <- Zle_Qle. lia.
Qed.

Lemma start_next (k : nat) :
  (inject_Z (Z.of_nat (S k) * step) == inject_Z (Z.of_nat k * step) + inject_Z step)%Q.
Proof.
  rewrite <- inject_Z_plus. apply inject_Z_injective. lia.
Qed.

Lemma fuel_step start fuel :
  (start < duration)%Q ->
  (Z.to_nat (Qceiling (duration - start)) < S fuel)%nat ->
  (Z.to_nat (Qceiling (duration - (start + inject_Z step))) < fuel)%nat.
Proof.
  intros Hlt Hf. pose proof step_pos as Hs.
  pose proof (Qle_ceiling (duration - start)) as Hc.
  set (c := Qceiling (duration - start)) in *.
  assert (Hc0 : 0 < c).
  { rewrite Zlt_Qlt. change (inject_Z 0) with 0%Q. lra. }
  assert (Hle : Qceiling (duration - (start + inject_Z step)) <= c - 1).
  { rewrite <- (Qceiling_Z (c - 1)). apply Qceiling_resp_le.
    unfold Z.sub. rewrite inject_Z_plus, inject_Z_opp.
    change (inject_Z 1) with 1%Q. lra. }
  lia.
Qed.

Lemma plan_loop_inv fuel : forall chunks start idx,
  (forall (i : nat) c, chunks !! i = Some c -> chunk_inv self duration i c) ->
  idx = Z.of_nat (length chunks) ->
  (start == inject_Z (idx * step))%Q ->
  (chunks = [] -> (start < duration)%Q) ->
  (Z.to_nat (Qceiling (duration - start)) < fuel)%nat ->
  exists res,
    AudioChunker.plan_loop fuel self duration chunks start idx = Some res /\
    (forall (i : nat) c, res !! i = Some c -> chunk_inv self duration i c) /\
    (exists c, last res = Some c /\ (end_time c == duration)%Q).
Proof.
  induction fuel as [|fuel IH]; intros chunks start idx Hinv Hidx Hstart Hne Hfuel;
    [lia|].
  cbn [AudioChunker.plan_loop].
  destruct (Qltb start duration) eqn:Hcond.
  - apply Qltb_lt in Hcond.
    destruct (Qltb (duration - start) (inject_Z mc) && (0 <? idx)) eqn:Hbrk.
    + (* remaining audio too short: extend the previous chunk *)
      apply andb_true_iff in Hbrk as [_ Hpos]. apply Z.ltb_lt in Hpos.
      destruct chunks as [|c0 l] using rev_ind; [simpl in Hidx; lia|].
      clear IHl. rewrite set_last_end_time_snoc.
      eexists; split; [reflexivity|]. split.
      * intros i c Hi.
        destruct (decide (i < length l)%nat) as [Hlt|Hge].
        -- rewrite lookup_app_l in Hi by exact Hlt.
           apply Hinv. rewrite lookup_app_l by exact Hlt. exact Hi.
        -- assert (Hlen : (i < length (l ++ [set_end_time c0 duration]))%nat)
             by (apply lookup_lt_Some in Hi; exact Hi).
           rewrite length_app in Hlen. simpl in Hlen.
           assert (i = length l) as -> by lia.
           rewrite list_lookup_middle in Hi by reflexivity.
           injection Hi as <-.
           specialize (Hinv (length l) c0).
           rewrite list_lookup_middle in Hinv by reflexivity.
           destruct (Hinv eq_refl) as (I1 & I2 & I3 & I4 & I5 & I6 & I7).
           unfold chunk_inv. cbn [set_end_time index start_time end_time overlap_start].
           repeat split; auto; try lra; try apply py_min_le_r.
      * exists (set_end_time c0 duration). rewrite last_snoc. split; [reflexivity|].
        simpl. reflexivity.
    + (* a new chunk is appended *)
      set (chunk := new_chunk idx start
             (py_min (start + inject_Z cd) duration)
             (if 0 <? idx then inject_Z ov else 0%Q)).
      apply (IH (chunks ++ [chunk]) (start + inject_Z step)%Q (idx + 1)).
      * intros i c Hi.
        destruct (decide (i < length chunks)%nat) as [Hlt|Hge].
        -- rewrite lookup_app_l in Hi by exact Hlt. apply Hinv, Hi.
        -- assert (Hlen : (i < length (chunks ++ [chunk]))%nat)
             by (apply lookup_lt_Some in Hi; exact Hi).
           rewrite length_app in Hlen. simpl in Hlen.
           assert (i = length chunks) as -> by lia.
           rewrite list_lookup_middle in Hi by reflexivity.
           injection Hi as <-. subst idx.
           unfold chunk_inv, chunk, new_chunk.
           cbn [index start_time end_time overlap_start].
           repeat split; auto; try lra.
           ++ destruct (length chunks); reflexivity.
           ++ apply py_min_le_r.
           ++ intros Hnz. apply andb_false_iff in Hbrk as [Hb|Hb].
              ** apply Qltb_ge in Hb. exact Hb.
              ** apply Z.ltb_ge in Hb. lia.
      * rewrite length_app. simpl. lia.
      * subst idx. rewrite Hstart.
        replace (Z.of_nat (length chunks) + 1) with (Z.of_nat (S (length chunks))) by lia.
        rewrite start_next. reflexivity.
      * intros Hnil. destruct chunks; discriminate Hnil.
      * apply fuel_step; assumption.
  - apply Qltb_ge in Hcond.
    exists chunks. split; [reflexivity|]. split; [exact Hinv|].
    destruct chunks as [|c0 l] using rev_ind.
    { specialize (Hne eq_refl). lra. }
    clear IHl. exists c0. rewrite last_snoc. split; [reflexivity|].
    specialize (Hinv (length l) c0).
    rewrite list_lookup_middle in Hinv by reflexivity.
    destruct (Hinv eq_refl) as (I1 & I2 & I3 & I4 & I5 & I6 & I7).
    assert (Hd : (duration <= py_min (start_time c0 + inject_Z cd) duration)%Q).
    { apply py_min_glb; [|lra].
      rewrite length_app in Hidx. simpl in Hidx. subst idx.
      replace (Z.of_nat (length l + 1)) with (Z.of_nat (S (length l))) in Hstart by lia.
      rewrite start_next in Hstart. pose proof step_le_cd. lra. }
    lra.
Qed.

End PlannerLoop.

Lemma chunk_inv_plan_ok self duration chunks :
  params_ok self ->
  (forall (i : nat) c, chunks !! i = Some c -> chunk_inv self duration i c) ->
  (exists c, last chunks = Some c /\ (end_time c == duration)%Q) ->
  plan_ok self duration chunks.
Proof.
  intros Hp Hinv Hlast. split.
  - intros _. destruct chunks as [|c0 l].
    + destruct Hlast as (c & Hc & _). discriminate Hc.
    + exists c0. split; [reflexivity|].
      destruct (Hinv 0%nat c0 eq_refl) as (_ & I2 & _).
      rewrite I2. reflexivity.
  - intros _. exact Hlast.
  - intros i c Hi. apply (Hinv i c Hi).
  - intros i c c' Hi Hi'.
    destruct (Hinv i c Hi) as (_ & I2 & _).
    destruct (Hinv (S i) c' Hi') as (_ & I2' & _).
    rewrite I2, I2'. apply start_next.
  - intros i c Hi. destruct (Hinv i c Hi) as (_ & _ & I3 & _).
    rewrite I3. reflexivity.
  - intros i c c' Hi Hi'.
    destruct (Hinv i c Hi) as (_ & I2 & _ & _ & _ & I6 & _).
    destruct (Hinv (S i) c' Hi') as (_ & I2' & _ & I4' & _).
    rewrite start_next in I2'. pose proof (step_le_cd self Hp) as Hstep.
    apply Qle_trans with (2 := I6). apply py_min_glb; lra.
Qed.

Lemma chunk_inv_min_length self duration chunks :
  AudioChunker.min_chunk self <= AudioChunker.chunk_duration self ->
  (inject_Z (AudioChunker.chunk_duration self) <= duration)%Q ->
  (forall (i : nat) c, chunks !! i = Some c -> chunk_inv self duration i c) ->
  min_length_ok self chunks.
Proof.
  intros Hmc Hlong Hinv c Hc.
  apply list_elem_of_lookup in Hc as [i Hi].
  destruct (Hinv i c Hi) as (_ & I2 & _ & I4 & I5 & I6 & I7).
  rewrite Zle_Qle in Hmc.
  assert (Hb : (start_time c + inject_Z (AudioChunker.min_chunk self)
                <= py_min (start_time c + inject_Z (AudioChunker.chunk_duration self))
                          duration)%Q).
  { apply py_min_glb; [lra|].
    destruct i as [|i].
    - change (Z.of_nat 0 * effective_step self) with 0 in I2.
      change (inject_Z 0) with 0%Q in I2. lra.
    - specialize (I7 ltac:(discriminate)). lra. }
  lra.
Qed.

Lemma single_chunk_inv self duration :
  (0 < duration)%Q ->
  forall (i : nat) c, [new_chunk 0 0 duration 0] !! i = Some c ->
    chunk_inv self duration i c.
Proof.
  intros Hd i c Hi. destruct i as [|i]; [|destruct i; discriminate Hi].
  injection Hi as <-. unfold chunk_inv, new_chunk.
  cbn [index start_time end_time overlap_start Nat.eqb].
  repeat split; try reflexivity; try lra.
  - apply py_min_le_r.
  - intros H. exfalso. apply H. reflexivity.
Qed.

(** C4 (as amended): for [0 <= overlap < chunk_duration], [min_chunk > 0] and
    [duration >= 0] the planner returns a plan; when [duration > 0] the plan
    starts at 0 and ends at [duration], and no chunk starts after the end of
    the chunk before it; chunk [i] has index [i]; consecutive
    starts differ by [chunk_duration - overlap]; [overlap_start] is 0 for
    chunk 0 and [overlap] for the others; and, provided
    [min_chunk <= chunk_duration], every chunk is at least [min_chunk] long
    unless [duration < chunk_duration]. *)
Theorem calculate_chunks_plan (self : AudioChunker.t) (duration : Q) :
  params_ok self -> (0 <= duration)%Q ->
  exists chunks,
    AudioChunker.calculate_chunks self duration = Some chunks /\
    plan_ok self duration chunks /\
    (AudioChunker.min_chunk self <= AudioChunker.chunk_duration self ->
     ~ (duration < inject_Z (AudioChunker.chunk_duration self))%Q ->
     min_length_ok self chunks).
Proof.
  intros Hp Hd. unfold AudioChunker.calculate_chunks.
  destruct (Qleb duration 0) eqn:H0.
  - apply Qleb_le in H0. exists []. split; [reflexivity|]. split.
    + split.
      * intros; lra.
      * intros; lra.
      * intros i c Hi. rewrite lookup_nil in Hi. discriminate Hi.
      * intros i c c' Hi. rewrite lookup_nil in Hi. discriminate Hi.
      * intros i c Hi. rewrite lookup_nil in Hi. discriminate Hi.
      * intros i c c' Hi. rewrite lookup_nil in Hi. discriminate Hi.
    + intros _ _ c Hc. apply elem_of_nil in Hc. destruct Hc.
  - apply Qleb_gt in H0.
    destruct (Qleb duration (inject_Z (AudioChunker.chunk_duration self))) eqn:H1.
    + apply Qleb_le in H1. eexists. split; [reflexivity|].
      pose proof (single_chunk_inv self duration H0) as Hinv.
      split.
      * apply chunk_inv_plan_ok; [exact Hp|exact Hinv|].
        eexists. split; [reflexivity|]. simpl. reflexivity.
      * intros Hmc Hnlt. apply (chunk_inv_min_length self duration); auto.
        apply Qnot_lt_le, Hnlt.
    + apply Qleb_gt in H1.
      destruct (plan_loop_inv self duration Hp (AudioChunker.plan_fuel duration) [] 0%Q 0)
        as (res & Hres & Hinv & Hlast).
      * intros i c Hi. rewrite lookup_nil in Hi. discriminate Hi.
      * reflexivity.
      * reflexivity.
      * intros _. exact H0.
      * unfold AudioChunker.plan_fuel.
        assert (Heq : (duration - 0 == duration)%Q) by lra.
        rewrite (Qceiling_comp _ _ Heq). lia.
      * exists res. split; [exact Hres|]. split.
        -- apply chunk_inv_plan_ok; assumption.
        -- intros Hmc _. apply (chunk_inv_min_length self duration); auto. lra.
Qed.

Lemma calculate_chunks_plan_witness :
  params_ok default_chunker /\ (0 <= 600)%Q /\
  exists chunks,
    AudioChunker.calculate_chunks default_chunker 600 = Some chunks /\
    plan_ok default_chunker 600 chunks /\
    (AudioChunker.min_chunk default_chunker <= AudioChunker.chunk_duration default_chunker ->
     ~ (600 < inject_Z (AudioChunker.chunk_duration default_chunker))%Q ->
     min_length_ok default_chunker chunks).
Proof.
  assert (Hp : params_ok default_chunker) by (unfold params_ok; simpl; lia).
  assert (Hd : (0 <= 600)%Q) by (unfold Qle; simpl; lia).
  split; [exact Hp|]. split; [exact Hd|].
  exact (calculate_chunks_plan default_chunker 600 Hp Hd).
Defined.

(** With [chunk_duration = 20 < min_chunk = 30] and 45 s of audio the plan is
    [[0,20]; [10,45]]: the first chunk is 20 s long, below [min_chunk],
    although the audio is longer than [chunk_duration]. *)
Lemma planner_contract_fails : ~ planner_contract short_chunker 45.
Proof.
  unfold planner_contract. intros H.
  destruct H as (chunks & Hc & _ & Hmin).
  - unfold params_ok; simpl; lia.
  - unfold Qle; simpl; lia.
  - vm_compute in Hc. injection Hc as <-.
    assert (Hn : ~ (45 < inject_Z (AudioChunker.chunk_duration short_chunker))%Q).
    { unfold Qlt; simpl; lia. }
    specialize (Hmin Hn (new_chunk 0 0 20 0)).
    assert (Hin : new_chunk 0 0 20 0 ∈ [new_chunk 0 0 20 0; new_chunk 1 10 45 10]).
    { apply elem_of_cons. left. reflexivity. }
    specialize (Hmin Hin). revert Hmin. unfold Qle. simpl. lia.
Qed.

(** ** The chunk merger *)

Example py_strip_ex : py_strip "  a b 
 "%string = "a b"%string.
Proof. reflexivity. Qed.

Example py_split_ex : py_split " T_0   T_1 "%string = ["T_0"; "T_1"]%string.
Proof. reflexivity. Qed.

Example py_sorted_stable :
  py_sorted (fun a b : Z * Z => fst a <? fst b) [(2, 0); (1, 0); (2, 1); (1, 1)]
  = [(1, 0); (1, 1); (2, 0); (2, 1)].
Proof. reflexivity. Qed.

Lemma insert_sorted_In {A} (lt : A -> A -> bool) x y l :
  In y (insert_sorted lt x l) <-> y = x \/ In y l.
Proof.
  induction l as [|z l IH]; simpl.
  - intuition congruence.
  - destruct (lt z x); simpl; rewrite ?IH; intuition congruence.
Qed.

Lemma py_sorted_In {A} (lt : A -> A -> bool) y l :
  In y (py_sorted lt l) <-> In y l.
Proof.
  unfold py_sorted. induction l as [|x l IH]; simpl; [tauto|].
  rewrite insert_sorted_In, IH. intuition congruence.
Qed.

(** [py_sorted] sorts: its result is a rearrangement of the list, in
    ascending order of the key. *)
Lemma insert_sorted_perm {A} (lt : A -> A -> bool) x l :
  insert_sorted lt x l ≡ₚ x :: l.
Proof.
  induction l as [|y l IH]; simpl; [reflexivity|].
  destruct (lt y x); [|reflexivity].
  rewrite IH. apply Permutation_swap.
Qed.

Lemma py_sorted_perm {A} (lt : A -> A -> bool) l : py_sorted lt l ≡ₚ l.
Proof.
  unfold py_sorted. induction l as [|x l IH]; simpl; [reflexivity|].
  rewrite insert_sorted_perm, IH. reflexivity.
Qed.

Lemma insert_sorted_index_sorted x l :
  StronglySorted (fun a b : Chunk => index a <= index b) l ->
  StronglySorted (fun a b : Chunk => index a <= index b)
                 (insert_sorted (fun a b => index a <? index b) x l).
Proof.
  induction 1 as [|y l Hs IH Hall]; simpl; [repeat constructor|].
  destruct (index y <? index x) eqn:E.
  - apply Z.ltb_lt in E. constructor; [exact IH|].
    rewrite (insert_sorted_perm _ x l). constructor; [lia|exact Hall].
  - apply Z.ltb_ge in E. constructor; [constructor; assumption|].
    constructor; [exact E|].
    eapply Forall_impl; [exact Hall|]. intros z Hz. simpl in Hz. lia.
Qed.

Lemma py_sorted_index_sorted l :
  StronglySorted (fun a b : Chunk => index a <= index b)
                 (py_sorted (fun a b => index a <? index b) l).
Proof.
  unfold py_sorted. induction l as [|x l IH]; simpl; [constructor|].
  apply insert_sorted_index_sorted, IH.
Qed.

Lemma insert_sorted_map {A B} (g : A -> B) (lt : A -> A -> bool)
    (lt' : B -> B -> bool) x l :
  (forall a b, lt' (g a) (g b) = lt a b) ->
  insert_sorted lt' (g x) (map g l) = map g (insert_sorted lt x l).
Proof.
  intros Hlt. induction l as [|y l IH]; simpl; [reflexivity|].
  rewrite Hlt. destruct (lt y x); simpl; [rewrite IH|]; reflexivity.
Qed.

Lemma py_sorted_map {A B} (g : A -> B) (lt : A -> A -> bool)
    (lt' : B -> B -> bool) l :
  (forall a b, lt' (g a) (g b) = lt a b) ->
  py_sorted lt' (map g l) = map g (py_sorted lt l).
Proof.
  intros Hlt. unfold py_sorted. induction l as [|x l IH]; simpl; [reflexivity|].
  rewrite IH. apply insert_sorted_map, Hlt.
Qed.

Lemma filter_segments_In self n i c s :
  In s (ChunkMerger.filter_segments self n i c) -> In s (segments c).
Proof.
  unfold ChunkMerger.filter_segments,
    ChunkMerger._filter_segments_first_chunk,
    ChunkMerger._filter_segments_last_chunk,
    ChunkMerger._filter_segments_middle_chunk.
  destruct (Nat.eqb i 0); [|destruct (Nat.eqb i (n - 1))];
    intros Hs; apply filter_In in Hs; tauto.
Qed.

Lemma filter_segments_set_status self n i c st :
  ChunkMerger.filter_segments self n i (set_status c st)
  = ChunkMerger.filter_segments self n i c.
Proof. reflexivity. Qed.

(** The chunks that take part in a merge: those whose [text] is not [None],
    in index order. *)
Lemma completed_In chunks c :
  In c (List.filter ChunkMerger.has_text
          (py_sorted (fun a b : Chunk => index a <? index b) chunks)) ->
  In c chunks /\ text c <> None.
Proof.
  intros Hc. apply filter_In in Hc as [Hc Ht]. apply py_sorted_In in Hc.
  split; [exact Hc|]. unfold ChunkMerger.has_text in Ht.
  destruct (text c); [discriminate|discriminate Ht].
Qed.

Lemma filter_segments_clear self n i c s :
  In s (segments c) ->
  (i <> 0%nat -> (start_time c + overlap_start c <= seg_start s)%Q) ->
  (i = 0%nat \/ S i <> n ->
   (seg_end s <= end_time c - ChunkMerger.overlap_seconds self)%Q) ->
  In s (ChunkMerger.filter_segments self n i c).
Proof.
  intros Hs Hstart Hend.
  unfold ChunkMerger.filter_segments,
    ChunkMerger._filter_segments_first_chunk,
    ChunkMerger._filter_segments_last_chunk,
    ChunkMerger._filter_segments_middle_chunk.
  destruct (Nat.eqb i 0) eqn:E0.
  - apply Nat.eqb_eq in E0. apply filter_In. split; [exact Hs|].
    unfold ChunkMerger.keep_first.
    rewrite (proj2 (Qleb_le _ _) (Hend (or_introl E0))). reflexivity.
  - apply Nat.eqb_neq in E0. destruct (Nat.eqb i (n - 1)) eqn:E1.
    + apply filter_In. split; [exact Hs|].
      unfold ChunkMerger.keep_last.
      rewrite (proj2 (Qleb_le _ _) (Hstart E0)). reflexivity.
    + apply Nat.eqb_neq in E1. apply filter_In. split; [exact Hs|].
      unfold ChunkMerger.keep_middle.
      rewrite (proj2 (Qleb_le _ _) (Hstart E0)).
      rewrite (proj2 (Qleb_le _ _) (Hend ltac:(right; lia))). reflexivity.
Qed.

(** C9: [merge_chunks] only selects, and what it selects from are the chunks
    whose [text] is not [None], whatever their [status]: [completed] holds
    exactly those chunks.  Every segment of its result is a segment of such
    a chunk, with [start], [end], [text] and [speaker] as they were.  The
    result does not depend on the [status] fields, so a [FAILED] chunk that
    carries a text is merged like a [COMPLETED] one.  When one chunk carries
    a text, the result is that text and all the segments of that chunk.
    When two or more do, the result holds exactly the segments that pass
    the filter of their chunk, and in particular every segment that keeps
    clear of the overlaps of its chunk: one that starts at or after
    [start_time + overlap_start] (unless the chunk is the first with a text)
    and ends by [end_time - overlap_seconds] (unless it is the last). *)
Theorem merge_chunks_selects (self : ChunkMerger.t) (chunks : list Chunk) :
  let completed :=
    List.filter ChunkMerger.has_text
      (py_sorted (fun a b : Chunk => index a <? index b) chunks) in
  (forall c, In c completed <-> In c chunks /\ text c <> None) /\
  (forall s, In s (snd (ChunkMerger.merge_chunks self chunks)) ->
     exists c, In c chunks /\ text c <> None /\ In s (segments c)) /\
  (forall st : Chunk -> ChunkStatus,
     ChunkMerger.merge_chunks self (map (fun c => set_status c (st c)) chunks)
     = ChunkMerger.merge_chunks self chunks) /\
  (forall c, completed = [c] ->
     ChunkMerger.merge_chunks self chunks
     = (default EmptyString (text c), segments c)) /\
  ((2 <= length completed)%nat ->
   (forall s, In s (snd (ChunkMerger.merge_chunks self chunks)) <->
      exists (i : nat) c,
        completed !! i = Some c /\
        In s (ChunkMerger.filter_segments self (length completed) i c)) /\
   (forall (i : nat) c s,
      completed !! i = Some c -> In s (segments c) ->
      (i <> 0%nat -> (start_time c + overlap_start c <= seg_start s)%Q) ->
      (i = 0%nat \/ S i <> length completed ->
       (seg_end s <= end_time c - ChunkMerger.overlap_seconds self)%Q) ->
      In s (snd (ChunkMerger.merge_chunks self chunks)))).
Proof.
  intros completed.
  assert (Hmulti : (2 <= length completed)%nat ->
            forall s, In s (snd (ChunkMerger.merge_chunks self chunks)) <->
              exists (i : nat) c,
                completed !! i = Some c /\
                In s (ChunkMerger.filter_segments self (length completed) i c)).
  { intros Hlen s. unfold ChunkMerger.merge_chunks. subst completed.
    destruct chunks as [|c0 chunks0]; [simpl in Hlen; lia|].
    set (chunks := c0 :: chunks0) in *.
    destruct (List.filter ChunkMerger.has_text
                (py_sorted (fun a b : Chunk => index a <? index b) chunks))
      as [|c1 [|c2 rest]]; [simpl in Hlen; lia|simpl in Hlen; lia|].
    cbn [snd]. rewrite py_sorted_In, in_concat. split.
    - intros (segs & Hsegs & Hs).
      apply list_elem_of_In, elem_of_lookup_imap in Hsegs as (i & c & -> & Hi).
      eauto.
    - intros (i & c & Hi & Hs). eexists. split; [|exact Hs].
      apply list_elem_of_In, elem_of_lookup_imap. eauto. }
  split; [|split; [|split; [|split]]].
  - intros c. split; [apply completed_In|].
    intros [Hin Ht]. apply filter_In. split; [apply py_sorted_In, Hin|].
    unfold ChunkMerger.has_text. destruct (text c); [reflexivity|contradiction].
  - intros s. unfold ChunkMerger.merge_chunks.
    destruct chunks as [|c0 chunks0]; [intros []|].
    set (chunks := c0 :: chunks0) in *.
    pose proof (completed_In chunks) as Hcompleted. fold completed in Hcompleted.
    destruct (List.filter ChunkMerger.has_text
                (py_sorted (fun a b : Chunk => index a <? index b) chunks))
      as [|c1 [|c2 rest]] eqn:Ecompleted; subst completed.
    + intros [].
    + simpl. intros Hs. exists c1.
      destruct (Hcompleted c1 (or_introl eq_refl)) as [Hin Ht]. auto.
    + cbn [snd]. intros Hs. apply py_sorted_In in Hs.
      apply in_concat in Hs as (segs & Hsegs & Hs).
      apply list_elem_of_In, elem_of_lookup_imap in Hsegs as (i & c & -> & Hi).
      apply filter_segments_In in Hs.
      assert (Hc : In c (c1 :: c2 :: rest)).
      { apply list_elem_of_In. eapply list_elem_of_lookup_2, Hi. }
      destruct (Hcompleted c Hc) as [Hin Ht]. eauto.
  - intros st. unfold ChunkMerger.merge_chunks.
    destruct chunks as [|c0 chunks0]; [reflexivity|].
    set (chunks := c0 :: chunks0) in *.
    change (map (fun c => set_status c (st c)) chunks)
      with (set_status c0 (st c0) :: map (fun c => set_status c (st c)) chunks0).
    change (set_status c0 (st c0) :: map (fun c => set_status c (st c)) chunks0)
      with (map (fun c => set_status c (st c)) chunks).
    rewrite (py_sorted_map (fun c => set_status c (st c))
               (fun a b : Chunk => index a <? index b)) by reflexivity.
    rewrite filter_map_swap.
    change (fun a : Chunk => ChunkMerger.has_text (set_status a (st a)))
      with ChunkMerger.has_text.
    destruct (List.filter ChunkMerger.has_text
                (py_sorted (fun a b : Chunk => index a <? index b) chunks))
      as [|c1 [|c2 rest]]; [reflexivity|reflexivity|].
    cbn [map]. rewrite !length_cons, length_map.
    change (set_status c1 (st c1) :: set_status c2 (st c2)
              :: map (fun c => set_status c (st c)) rest)
      with ((fun c => set_status c (st c)) <$> (c1 :: c2 :: rest)).
    rewrite imap_fmap.
    reflexivity.
  - intros c Hc. unfold ChunkMerger.merge_chunks.
    destruct chunks as [|c0 chunks0]; [discriminate Hc|].
    fold completed. rewrite Hc. reflexivity.
  - intros Hlen. split; [apply Hmulti, Hlen|].
    intros i c s Hi Hs Hstart Hend. apply Hmulti; [assumption|].
    exists i, c. split; [exact Hi|].
    apply filter_segments_clear; assumption.
Qed.

(** In a merge of two chunks the first, marked [FAILED], contributes the
    segment it holds clear of its trailing overlap, and its text. *)
Lemma merge_chunks_selects_witness :
  In (mkSegment 0 280 "hola" None)
     (snd (ChunkMerger.merge_chunks (ChunkMerger.mk 10) failed_sample)).
Proof.
  apply (proj2 (proj2 (proj2 (proj2 (proj2 (merge_chunks_selects
                                              (ChunkMerger.mk 10) failed_sample))))
                  ltac:(simpl; lia))
           0%nat (mkChunk 0 0 300 0 None FAILED (Some "hola"%string)
                    [mkSegment 0 280 "hola" None; mkSegment 280 300 "mundo" None]
                    (Some 2) (Some "reload failed"%string))).
  - reflexivity.
  - left. reflexivity.
  - intros Hne. contradiction Hne. reflexivity.
  - intros _. vm_compute. discriminate.
Defined.

Example failed_chunk_is_merged :
  ChunkMerger.merge_chunks (ChunkMerger.mk 10)
    [mkChunk 0 0 250 0 None FAILED (Some "T_0"%string)
             [mkSegment 0 250 "T_0" None] None (Some "reload failed"%string)]
  = ("T_0"%string, [mkSegment 0 250 "T_0" None]) /\
  ChunkMerger.merge_chunks (ChunkMerger.mk 10) failed_sample
  = ("hola adios"%string,
     [mkSegment 0 280 "hola" None; mkSegment 301 400 "adios" None]).
Proof. vm_compute. split; reflexivity. Qed.

(** ** Computations with state and exceptions *)

Lemma bind_Ok_inv {S A B} (m : State S A) (k : A -> State S B) s b s' :
  bind m k s = (Ok b, s') ->
  exists a s1, m s = (Ok a, s1) /\ k a s1 = (Ok b, s').
Proof.
  unfold bind. destruct (m s) as [[a|e] s1]; [eauto|discriminate].
Qed.

Lemma bind_Raise_inv {S A B} (m : State S A) (k : A -> State S B) s e s' :
  bind m k s = (Raise e, s') ->
  m s = (Raise e, s') \/ exists a s1, m s = (Ok a, s1) /\ k a s1 = (Raise e, s').
Proof.
  unfold bind. destruct (m s) as [[a|e0] s1]; [eauto|].
  intros [= <- <-]. left. reflexivity.
Qed.

Lemma catch_Ok_inv {S A} (m : State S A) (h : exn -> State S A) s a s' :
  catch m h s = (Ok a, s') ->
  m s = (Ok a, s') \/ exists e s1, m s = (Raise e, s1) /\ h e s1 = (Ok a, s').
Proof.
  unfold catch. destruct (m s) as [[a0|e] s1]; [|eauto].
  intros [= <- <-]. left. reflexivity.
Qed.

Lemma bind_Ok {S A B} (m : State S A) (k : A -> State S B) s a s1 :
  m s = (Ok a, s1) -> bind m k s = k a s1.
Proof. unfold bind. intros ->. reflexivity. Qed.

Lemma bind_Raise {S A B} (m : State S A) (k : A -> State S B) s e s1 :
  m s = (Raise e, s1) -> bind m k s = (Raise e, s1).
Proof. unfold bind. intros ->. reflexivity. Qed.

(** ** The transcription worker *)

Lemma call_model_Ok_inv env d chunk w r w' :
  TranscriptionEngine.call_model env d chunk w = (Ok r, w') ->
  whisper_transcribe env d (default "None"%string (file_path chunk)) (w_calls w) = Ok r.
Proof.
  unfold TranscriptionEngine.call_model, bind, next_call, ret, raise.
  destruct (whisper_transcribe env d _ (w_calls w)); [|discriminate].
  intros [= <- _]. reflexivity.
Qed.

Lemma cpu_failure_not_completed chunk e w c' w' :
  TranscriptionEngine.cpu_failure chunk e w = (Ok c', w') -> status c' = FAILED.
Proof.
  unfold TranscriptionEngine.cpu_failure, ret, raise.
  destruct (is_Exception e); [|discriminate]. intros [= <- _]. reflexivity.
Qed.

Lemma transcribe_on_cpu_completed env self chunk w c' w' :
  TranscriptionEngine._transcribe_on_cpu env self chunk w = (Ok c', w') ->
  status c' = COMPLETED -> holds_answer env chunk c'.
Proof.
  unfold TranscriptionEngine._transcribe_on_cpu. intros Hrun Hst.
  apply catch_Ok_inv in Hrun as [Hrun|(e & w1 & _ & Hh)].
  2:{ apply cpu_failure_not_completed in Hh. congruence. }
  apply bind_Ok_inv in Hrun as (_ & w1 & _ & Hrun).
  destruct (whisper_load_model env Cpu); [discriminate Hrun|].
  apply bind_Ok_inv in Hrun as (result & w2 & Hcall & Hrun).
  apply bind_Ok_inv in Hrun as (t & w3 & _ & Hrun).
  apply catch_Ok_inv in Hrun as [Hrun|(e & w4 & _ & Hh)].
  2:{ apply cpu_failure_not_completed in Hh. congruence. }
  apply bind_Ok_inv in Hrun as (_ & w4 & _ & Hrun).
  injection Hrun as <- _.
  apply call_model_Ok_inv in Hcall.
  exists Cpu, (w_calls w1), result, t. auto.
Qed.

Lemma attempts_completed env self chunk max_retries remaining :
  forall attempt w c' w',
    TranscriptionEngine.attempts env self chunk max_retries attempt remaining w
      = (Ok c', w') ->
    status c' = COMPLETED -> holds_answer env chunk c'.
Proof.
  induction remaining as [|remaining IH]; intros attempt w c' w' Hrun Hst.
  - injection Hrun as <- _. discriminate Hst.
  - cbn [TranscriptionEngine.attempts] in Hrun.
    apply bind_Ok_inv in Hrun as (r & w1 & Htry & Hrun).
    destruct r as [chunk'|]; [|eapply IH; eassumption].
    injection Hrun as -> ->.
    apply catch_Ok_inv in Htry as [Htry|(e & w2 & _ & Hh)].
    + apply bind_Ok_inv in Htry as (w0 & w2 & Hget & Htry).
      injection Hget as <- <-.
      destruct (w_model w) as [d|]; [|discriminate Htry].
      apply bind_Ok_inv in Htry as (result & w3 & Hcall & Htry).
      apply bind_Ok_inv in Htry as (t & w4 & _ & Htry).
      injection Htry as <- _.
      apply call_model_Ok_inv in Hcall.
      exists d, (w_calls w), result, t. auto.
    + destruct (is_RuntimeError e); [|discriminate Hh].
      destruct (is_oom_message (exn_str e)); [|discriminate Hh].
      destruct (Nat.eqb attempt (max_retries - 1)); [|discriminate Hh].
      apply bind_Ok_inv in Hh as (w0 & w3 & _ & Hh).
      destruct (decide (w_device w0 = Some Cpu)); [discriminate Hh|].
      apply bind_Ok_inv in Hh as (r & w4 & Hcpu & Hh).
      injection Hh as <- _.
      eapply transcribe_on_cpu_completed; eassumption.
Qed.

Lemma transcribe_chunk_completed env self chunk max_retries w c' w' :
  TranscriptionEngine.transcribe_chunk env self chunk max_retries w = (Ok c', w') ->
  status c' = COMPLETED -> holds_answer env chunk c'.
Proof.
  unfold TranscriptionEngine.transcribe_chunk.
  destruct (TranscriptionEngine.file_missing env chunk); [discriminate|].
  intros Hrun Hst. apply bind_Ok_inv in Hrun as (_ & w1 & _ & Hrun).
  eapply attempts_completed; eassumption.
Qed.

(** C5 (as amended): a chunk that [transcribe_chunk] hands back [COMPLETED],
    from the GPU or from the CPU fallback, holds one segment for every
    segment of the model's answer, in order: [start] and [end] are the
    float sums of [chunk.start_time] and the model's [start] and [end] (the
    exact sums rounded to binary64), [text] is the model's text without the
    whitespace at its two ends, and [chunk.text] is the model's text
    stripped likewise.  No segment is dropped, a blank one stays with the
    empty text. *)
Theorem transcribe_chunk_segments (env : Env) (self : TranscriptionEngine.t)
    (chunk : Chunk) (max_retries : nat) (w : World) (c' : Chunk) (w' : World) :
  TranscriptionEngine.transcribe_chunk env self chunk max_retries w = (Ok c', w') ->
  status c' = COMPLETED ->
  exists d n result,
    whisper_transcribe env d (default "None"%string (file_path chunk)) n = Ok result /\
    segments c' =
      map (fun seg => mkSegment (float_add (start_time chunk) (raw_start seg))
                                (float_add (start_time chunk) (raw_end seg))
                                (py_strip (raw_text seg)) None)
          (res_segments result) /\
    text c' = Some (py_strip (res_text result)).
Proof.
  intros Hrun Hst.
  destruct (transcribe_chunk_completed _ _ _ _ _ _ _ Hrun Hst)
    as (d & n & result & t & Hanswer & ->).
  exists d, n, result. split; [exact Hanswer|]. split; reflexivity.
Qed.

Lemma transcribe_chunk_segments_witness :
  exists d n result,
    whisper_transcribe padded_env d
      (default "None"%string (file_path sample_chunk)) n = Ok result /\
    segments padded_result =
      map (fun seg => mkSegment (float_add (start_time sample_chunk) (raw_start seg))
                                (float_add (start_time sample_chunk) (raw_end seg))
                                (py_strip (raw_text seg)) None)
          (res_segments result) /\
    text padded_result = Some (py_strip (res_text result)).
Proof.
  apply (transcribe_chunk_segments padded_env sample_engine sample_chunk 3
           initial_world padded_result
           (snd (TranscriptionEngine.transcribe_chunk padded_env sample_engine
                   sample_chunk 3 initial_world))).
  - vm_compute. reflexivity.
  - vm_compute. reflexivity.
Defined.

(** On [padded_env] the blank segment of the answer is kept, with the
    empty text. *)
Lemma blank_segment_kept : ~ worker_contract padded_env sample_engine sample_chunk initial_world.
Proof.
  intros H.
  destruct (H padded_result
              (snd (TranscriptionEngine.transcribe_chunk padded_env sample_engine
                      sample_chunk 3 initial_world)))
    as (d & n & result & Hanswer & Hsegs).
  - vm_compute. reflexivity.
  - vm_compute. reflexivity.
  - simpl in Hanswer. injection Hanswer as <-.
    vm_compute in Hsegs. discriminate Hsegs.
Qed.

Example padded_result_segments :
  segments padded_result =
  [mkSegment 290 292 "hola" None; mkSegment 292 293 "" None].
Proof. vm_compute. reflexivity. Qed.

(** The sum of the start of the chunk and a time of the model is rounded:
    290 + 7.96 is the float 297.96 and not the sum of the two rationals;
    the no-break spaces around the text go with the other whitespace. *)
Example fractional_answer_segments :
  TranscriptionEngine.extract_segments sample_chunk fractional_answer =
  [mkSegment (round_double (29796 # 100)) (round_double (30204 # 100)) "hola" None] /\
  ~ (round_double (29796 # 100) == 290 + round_double (796 # 100))%Q /\
  text (TranscriptionEngine.completed_chunk sample_chunk fractional_answer 0)
  = Some "hola"%string.
Proof.
  split; [vm_compute; reflexivity|]. split; [|vm_compute; reflexivity].
  vm_compute. discriminate.
Qed.

(** The times of the segments the worker builds are floats, whatever the
    model answers. *)
Lemma extract_segments_floats chunk result seg :
  In seg (TranscriptionEngine.extract_segments chunk result) ->
  is_double (seg_start seg) /\ is_double (seg_end seg).
Proof.
  unfold TranscriptionEngine.extract_segments. intros Hin.
  apply in_map_iff in Hin as (raw & <- & _).
  split; apply round_double_is_double.
Qed.

(** *** The worker does not touch the event log and keeps the index *)

Lemma keeps_ret {A} (a : A) : keeps_trace (ret a).
Proof. intros w. reflexivity. Qed.

Lemma keeps_raise {A} e : keeps_trace (@raise World A e).
Proof. intros w. reflexivity. Qed.

Lemma keeps_bind {A B} (m : M A) (k : A -> M B) :
  keeps_trace m -> (forall a, keeps_trace (k a)) -> keeps_trace (bind m k).
Proof.
  intros Hm Hk w. unfold bind. specialize (Hm w).
  destruct (m w) as [[a|e] w1]; simpl in *; [rewrite Hk|]; exact Hm.
Qed.

Lemma keeps_catch {A} (m : M A) (h : exn -> M A) :
  keeps_trace m -> (forall e, keeps_trace (h e)) -> keeps_trace (catch m h).
Proof.
  intros Hm Hh w. unfold catch. specialize (Hm w).
  destruct (m w) as [[a|e] w1]; simpl in *; [|rewrite Hh]; exact Hm.
Qed.

Lemma keeps_get_world : keeps_trace get_world.
Proof. intros w. reflexivity. Qed.

Lemma keeps_now : keeps_trace now.
Proof. intros w. reflexivity. Qed.

Lemma keeps_set_fs fs : keeps_trace (set_fs fs).
Proof. intros w. reflexivity. Qed.

Lemma keeps_set_model m : keeps_trace (set_model m).
Proof. intros w. reflexivity. Qed.

Lemma keeps_set_device d : keeps_trace (set_device d).
Proof. intros w. reflexivity. Qed.

Lemma keeps_next_call : keeps_trace next_call.
Proof. intros w. reflexivity. Qed.

Create HintDb keeps discriminated.
#[local] Hint Resolve keeps_ret keeps_raise keeps_get_world keeps_now
  keeps_set_fs keeps_set_model keeps_set_device keeps_next_call : keeps.

Ltac keeps :=
  repeat first
    [ solve [auto with keeps]
    | match goal with
      | |- keeps_trace (bind _ _) => apply keeps_bind; [|intros ?]
      | |- keeps_trace (catch _ _) => apply keeps_catch; [|intros ?]
      end
    | match goal with
      | |- keeps_trace (match ?x with _ => _ end) => destruct x
      | |- keeps_trace (if ?x then _ else _) => destruct x
      end ].

Lemma keeps_load_model env self :
  keeps_trace (TranscriptionEngine.load_model env self).
Proof. unfold TranscriptionEngine.load_model. keeps. Qed.

Lemma keeps_call_model env d chunk :
  keeps_trace (TranscriptionEngine.call_model env d chunk).
Proof. unfold TranscriptionEngine.call_model. keeps. Qed.

#[local] Hint Resolve keeps_load_model keeps_call_model : keeps.

Lemma keeps_transcribe_on_cpu env self chunk :
  keeps_trace (TranscriptionEngine._transcribe_on_cpu env self chunk).
Proof.
  unfold TranscriptionEngine._transcribe_on_cpu, TranscriptionEngine.unload_model,
    TranscriptionEngine.cpu_failure.
  keeps.
Qed.

#[local] Hint Resolve keeps_transcribe_on_cpu : keeps.

Lemma keeps_attempts env self chunk max_retries remaining :
  forall attempt,
    keeps_trace (TranscriptionEngine.attempts env self chunk max_retries attempt remaining).
Proof.
  induction remaining as [|remaining IH]; intros attempt;
    cbn [TranscriptionEngine.attempts]; keeps.
Qed.

Lemma keeps_transcribe_chunk env self chunk max_retries :
  keeps_trace (TranscriptionEngine.transcribe_chunk env self chunk max_retries).
Proof.
  unfold TranscriptionEngine.transcribe_chunk.
  pose proof (keeps_attempts env self chunk max_retries max_retries 0%nat).
  keeps.
Qed.

Lemma cpu_failure_index chunk e w c' w' :
  TranscriptionEngine.cpu_failure chunk e w = (Ok c', w') -> index c' = index chunk.
Proof.
  unfold TranscriptionEngine.cpu_failure, ret, raise.
  destruct (is_Exception e); [|discriminate]. intros [= <- _]. reflexivity.
Qed.

Lemma transcribe_on_cpu_index env self chunk w c' w' :
  TranscriptionEngine._transcribe_on_cpu env self chunk w = (Ok c', w') ->
  index c' = index chunk.
Proof.
  unfold TranscriptionEngine._transcribe_on_cpu. intros Hrun.
  apply catch_Ok_inv in Hrun as [Hrun|(e & w1 & _ & Hh)].
  2:{ eapply cpu_failure_index, Hh. }
  apply bind_Ok_inv in Hrun as (_ & w1 & _ & Hrun).
  destruct (whisper_load_model env Cpu); [discriminate Hrun|].
  apply bind_Ok_inv in Hrun as (result & w2 & _ & Hrun).
  apply bind_Ok_inv in Hrun as (t & w3 & _ & Hrun).
  apply catch_Ok_inv in Hrun as [Hrun|(e & w4 & _ & Hh)].
  2:{ apply cpu_failure_index in Hh. exact Hh. }
  apply bind_Ok_inv in Hrun as (_ & w4 & _ & Hrun).
  injection Hrun as <- _. reflexivity.
Qed.

Lemma attempts_index env self chunk max_retries remaining :
  forall attempt w c' w',
    TranscriptionEngine.attempts env self chunk max_retries attempt remaining w
      = (Ok c', w') ->
    index c' = index chunk.
Proof.
  induction remaining as [|remaining IH]; intros attempt w c' w' Hrun.
  - injection Hrun as <- _. reflexivity.
  - cbn [TranscriptionEngine.attempts] in Hrun.
    apply bind_Ok_inv in Hrun as (r & w1 & Htry & Hrun).
    destruct r as [chunk'|]; [|eapply IH; eassumption].
    injection Hrun as -> ->.
    apply catch_Ok_inv in Htry as [Htry|(e & w2 & _ & Hh)].
    + apply bind_Ok_inv in Htry as (w0 & w2 & Hget & Htry).
      destruct (w_model w0) as [d|]; [|discriminate Htry].
      apply bind_Ok_inv in Htry as (result & w3 & _ & Htry).
      apply bind_Ok_inv in Htry as (t & w4 & _ & Htry).
      injection Htry as <- _. reflexivity.
    + destruct (is_RuntimeError e); [|discriminate Hh].
      destruct (is_oom_message (exn_str e)); [|discriminate Hh].
      destruct (Nat.eqb attempt (max_retries - 1)); [|discriminate Hh].
      apply bind_Ok_inv in Hh as (w0 & w3 & _ & Hh).
      destruct (decide (w_device w0 = Some Cpu)); [discriminate Hh|].
      apply bind_Ok_inv in Hh as (r & w4 & Hcpu & Hh).
      injection Hh as <- _.
      eapply transcribe_on_cpu_index, Hcpu.
Qed.

Lemma transcribe_chunk_index env self chunk max_retries w c' w' :
  TranscriptionEngine.transcribe_chunk env self chunk max_retries w = (Ok c', w') ->
  index c' = index chunk.
Proof.
  unfold TranscriptionEngine.transcribe_chunk.
  destruct (TranscriptionEngine.file_missing env chunk); [discriminate|].
  intros Hrun. apply bind_Ok_inv in Hrun as (_ & w1 & _ & Hrun).
  eapply attempts_index, Hrun.
Qed.

(** ** The batch driver *)

Lemma precedes_not_in e1 e2 tr : e2 ∉ tr -> precedes e1 e2 tr.
Proof.
  intros Hn l1 l2 ->. exfalso. apply Hn.
  apply elem_of_app. right. apply elem_of_cons. left. reflexivity.
Qed.

Lemma precedes_cons_other e1 e2 x tr :
  x <> e2 -> precedes e1 e2 tr -> precedes e1 e2 (x :: tr).
Proof.
  intros Hx Hp l1 l2 Heq. destruct l1 as [|y l1].
  - injection Heq as ->. congruence.
  - injection Heq as <- ->. apply elem_of_cons. right. eapply Hp. reflexivity.
Qed.

Lemma precedes_cons_same e1 e2 tr : e1 <> e2 -> precedes e1 e2 (e1 :: tr).
Proof.
  intros Hx l1 l2 Heq. destruct l1 as [|y l1].
  - injection Heq as ->. congruence.
  - injection Heq as <- _. apply elem_of_cons. left. reflexivity.
Qed.

Lemma precedes_app e1 e2 l r :
  precedes e1 e2 l -> e1 ∈ l \/ precedes e1 e2 r -> precedes e1 e2 (l ++ r).
Proof.
  intros Hl Hr l1 l2 Heq.
  apply app_eq_inv in Heq as [(k & -> & Hk)|(k & -> & ->)].
  - destruct k as [|x k].
    + simpl in Hk. subst r. rewrite app_nil_r in *.
      destruct Hr as [Hin|Hr]; [exact Hin|].
      exfalso. specialize (Hr [] l2 eq_refl). apply elem_of_nil in Hr. exact Hr.
    + injection Hk as <- ->. eapply Hl. reflexivity.
  - apply elem_of_app. destruct Hr as [Hin|Hr]; [left; exact Hin|].
    right. eapply Hr. reflexivity.
Qed.

Lemma precedes_prefix e1 e2 evs tr :
  evs `prefix_of` tr -> precedes e1 e2 tr -> precedes e1 e2 evs.
Proof.
  intros [k ->] Hp l1 l2 ->. apply (Hp l1 (l2 ++ k)).
  rewrite <- app_assoc. reflexivity.
Qed.

Lemma precedes_trans e1 e2 e3 tr :
  precedes e1 e2 tr -> precedes e2 e3 tr -> precedes e1 e3 tr.
Proof.
  intros H12 H23 l1 l2 ->.
  pose proof (H23 l1 l2 eq_refl) as Hin.
  apply list_elem_of_split in Hin as (la & lb & ->).
  apply elem_of_app. left.
  apply (H12 la (lb ++ e3 :: l2)).
  rewrite <- app_assoc. reflexivity.
Qed.

(** *** The events of a complete run *)

Lemma dense_from_tail k c rest :
  dense_from k (c :: rest) -> index c = k /\ dense_from (k + 1) rest.
Proof.
  intros Hd. split.
  - rewrite (Hd 0%nat c eq_refl). lia.
  - intros i c' Hi. rewrite (Hd (S i) c' Hi). lia.
Qed.

Lemma expected_events_from total chunks :
  forall k, dense_from k chunks ->
    forall e, e ∈ expected_events total k chunks -> event_from k e.
Proof.
  induction chunks as [|c rest IH]; intros k Hd e He.
  - apply elem_of_nil in He. destruct He.
  - apply dense_from_tail in Hd as [Hc Hd].
    cbn [expected_events] in He. apply elem_of_app in He as [He|He].
    + destruct (decide (status c = COMPLETED)).
      * apply list_elem_of_singleton in He as ->. simpl. lia.
      * rewrite !elem_of_cons in He.
        destruct He as [->|[->|[->|He]]]; simpl; try lia.
        apply elem_of_nil in He. destruct He.
    + specialize (IH (k + 1) Hd e He).
      destruct e; simpl in *; lia.
Qed.

Lemma transcribed_sorted total chunks :
  forall k, dense_from k chunks ->
    StronglySorted Z.lt (transcribed (expected_events total k chunks)).
Proof.
  induction chunks as [|c rest IH]; intros k Hd; [constructor|].
  pose proof (expected_events_from total rest (k + 1)) as Hfrom.
  apply dense_from_tail in Hd as [Hc Hd].
  cbn [expected_events]. unfold transcribed. rewrite omap_app.
  apply StronglySorted_app_2; [| |apply IH, Hd].
  - intros x1 x2 H1 H2.
    apply list_elem_of_omap in H2 as (e & He & Hx).
    specialize (Hfrom Hd e He).
    destruct e; try discriminate Hx. injection Hx as ->. simpl in Hfrom.
    destruct (decide (status c = COMPLETED)); simpl in H1.
    + apply elem_of_nil in H1. destruct H1.
    + apply list_elem_of_singleton in H1. lia.
  - destruct (decide (status c = COMPLETED)); simpl; repeat constructor.
Qed.

Lemma progress_before_next total chunks :
  forall k, dense_from k chunks ->
    forall j, k <= j ->
      precedes (EvProgress (j + 1) total) (EvTranscribe (j + 1))
               (expected_events total k chunks).
Proof.
  induction chunks as [|c rest IH]; intros k Hd j Hj.
  - apply precedes_not_in, not_elem_of_nil.
  - apply dense_from_tail in Hd as [Hc Hd]. cbn [expected_events].
    apply precedes_app.
    + apply precedes_not_in.
      destruct (decide (status c = COMPLETED));
        rewrite ?elem_of_cons, ?elem_of_nil; intros Hin;
        repeat (destruct Hin as [Hin|Hin]; [try discriminate Hin|]);
        try exact Hin; injection Hin; lia.
    + destruct (decide (j = k)) as [->|Hne].
      * left. destruct (decide (status c = COMPLETED));
          rewrite ?elem_of_cons; auto.
      * right. apply IH; [exact Hd|lia].
Qed.

Lemma checkpoint_before_progress total chunks :
  forall k, dense_from k chunks ->
    forall (i : nat) c, chunks !! i = Some c -> status c <> COMPLETED ->
      precedes (EvTranscribe (index c)) (EvCheckpoint (index c))
               (expected_events total k chunks) /\
      precedes (EvCheckpoint (index c)) (EvProgress (index c + 1) total)
               (expected_events total k chunks).
Proof.
  induction chunks as [|c0 rest IH]; intros k Hd i c Hi Hst.
  - rewrite lookup_nil in Hi. discriminate Hi.
  - pose proof (Hd i c Hi) as Hidx.
    apply dense_from_tail in Hd as [Hc0 Hd]. cbn [expected_events].
    destruct i as [|i].
    + injection Hi as ->.
      destruct (decide (status c = COMPLETED)); [contradiction|].
      split; apply precedes_app.
      * apply precedes_cons_same. discriminate.
      * left. apply elem_of_cons. left. reflexivity.
      * apply precedes_cons_other; [discriminate|].
        apply precedes_cons_same. discriminate.
      * left. rewrite !elem_of_cons. auto.
    + simpl in Hi. destruct (IH (k + 1) Hd i c Hi Hst) as [IH1 IH2].
      assert (Hgt : k < index c) by lia.
      split; apply precedes_app; try (right; assumption);
        apply precedes_not_in;
        destruct (decide (status c0 = COMPLETED));
        rewrite ?elem_of_cons, ?elem_of_nil; intros Hin;
        repeat (destruct Hin as [Hin|Hin]; [try discriminate Hin|]);
        try exact Hin; injection Hin; lia.
Qed.

(** *** The events of an actual run *)

Lemma call_progress_trace f a b w :
  (forall x y, keeps_trace (f x y)) ->
  w_trace (snd (TranscriptionEngine.call_progress (Some f) a b w))
  = w_trace w ++ [EvProgress a b].
Proof.
  intros Hf. unfold TranscriptionEngine.call_progress, bind, emit.
  match goal with |- context [f a b ?w0] =>
    pose proof (Hf a b w0) as Hk; destruct (f a b w0) as [[[]|e] w1] end;
    simpl in *; exact Hk.
Qed.

Lemma call_checkpoint_trace g c w :
  (forall x, keeps_trace (g x)) ->
  w_trace (snd (TranscriptionEngine.call_checkpoint (Some g) c w))
  = w_trace w ++ [EvCheckpoint (index c)].
Proof.
  intros Hg. unfold TranscriptionEngine.call_checkpoint, bind, emit.
  match goal with |- context [g c ?w0] =>
    pose proof (Hg c w0) as Hk; destruct (g c w0) as [[[]|e] w1] end;
    simpl in *; exact Hk.
Qed.

Lemma begin_transcribe_trace env self chunk w :
  w_trace (snd ((emit (EvTranscribe (index chunk)) ;;;
                 TranscriptionEngine.transcribe_chunk env self chunk 3) w))
  = w_trace w ++ [EvTranscribe (index chunk)].
Proof.
  unfold bind, emit.
  match goal with |- context [TranscriptionEngine.transcribe_chunk _ _ _ _ ?w0] =>
    pose proof (keeps_transcribe_chunk env self chunk 3 w0) as Hk;
    destruct (TranscriptionEngine.transcribe_chunk env self chunk 3 w0)
      as [[c'|e] w1] end;
    simpl in *; exact Hk.
Qed.

Lemma chunk_loop_trace env self f g total :
  (forall x y, keeps_trace (f x y)) ->
  (forall x, keeps_trace (g x)) ->
  forall chunks completed w r cs w',
    TranscriptionEngine.chunk_loop env self (Some f) (Some g) total completed
      chunks w = ((r, cs), w') ->
    exists evs,
      w_trace w' = w_trace w ++ evs /\
      evs `prefix_of` expected_events total completed chunks /\
      (r = None -> evs = expected_events total completed chunks).
Proof.
  intros Hf Hg chunks.
  induction chunks as [|chunk rest IH]; intros completed w r cs w' Hrun.
  - cbn [TranscriptionEngine.chunk_loop] in Hrun.
    injection Hrun as <- <- <-. exists []. rewrite app_nil_r. auto.
  - cbn [TranscriptionEngine.chunk_loop expected_events] in Hrun |- *.
    destruct (decide (status chunk = COMPLETED)) as [Hst|Hst].
    + pose proof (call_progress_trace f (completed + 1) total w Hf) as Hp.
      destruct (TranscriptionEngine.call_progress (Some f) (completed + 1) total w)
        as [[[]|e] w1]; simpl in Hp.
      * destruct (TranscriptionEngine.chunk_loop env self (Some f) (Some g) total
                    (completed + 1) rest w1) as [[r' rest'] w2] eqn:Hrest.
        injection Hrun as <- <- <-.
        destruct (IH _ _ _ _ _ Hrest) as (evs & Ht & Hpre & Hall).
        exists ([EvProgress (completed + 1) total] ++ evs).
        rewrite Ht, Hp, <- app_assoc. split; [reflexivity|]. split.
        -- apply prefix_app, Hpre.
        -- intros Hr. rewrite (Hall Hr). reflexivity.
      * injection Hrun as <- <- <-.
        exists [EvProgress (completed + 1) total]. split; [exact Hp|].
        split; [|discriminate]. apply prefix_app_r. reflexivity.
    + pose proof (begin_transcribe_trace env self chunk w) as Ht.
      destruct ((emit (EvTranscribe (index chunk)) ;;;
                 TranscriptionEngine.transcribe_chunk env self chunk 3) w)
        as [[chunk'|e] w1] eqn:Hbegin; simpl in Ht.
      * assert (Hidx : index chunk' = index chunk).
        { unfold bind, emit in Hbegin. simpl in Hbegin.
          match type of Hbegin with
          | context [TranscriptionEngine.transcribe_chunk _ _ _ _ ?w0] =>
            destruct (TranscriptionEngine.transcribe_chunk env self chunk 3 w0)
              as [[c0|e0] w0'] eqn:Hc
          end; [|discriminate Hbegin].
          injection Hbegin as <- _. eapply transcribe_chunk_index, Hc. }
        pose proof (call_checkpoint_trace g chunk' w1 Hg) as Hc.
        unfold bind in Hrun.
        destruct (TranscriptionEngine.call_checkpoint (Some g) chunk' w1)
          as [[[]|e] w2]; simpl in Hc.
        -- pose proof (call_progress_trace f (completed + 1) total w2 Hf) as Hp.
           destruct (TranscriptionEngine.call_progress (Some f) (completed + 1) total w2)
             as [[[]|e] w3]; simpl in Hp.
           ++ destruct (TranscriptionEngine.chunk_loop env self (Some f) (Some g)
                          total (completed + 1) rest w3) as [[r' rest'] w4] eqn:Hrest.
              injection Hrun as <- <- <-.
              destruct (IH _ _ _ _ _ Hrest) as (evs & Ht' & Hpre & Hall).
              exists ([EvTranscribe (index chunk); EvCheckpoint (index chunk);
                       EvProgress (completed + 1) total] ++ evs).
              rewrite Ht', Hp, Hc, Ht, Hidx, <- !app_assoc.
              split; [reflexivity|]. split.
              ** apply prefix_app, Hpre.
              ** intros Hr. rewrite (Hall Hr). reflexivity.
           ++ injection Hrun as <- <- <-.
              exists [EvTranscribe (index chunk); EvCheckpoint (index chunk);
                      EvProgress (completed + 1) total].
              rewrite Hp, Hc, Ht, Hidx, <- !app_assoc.
              split; [reflexivity|]. split; [|discriminate].
              apply prefix_app_r. reflexivity.
        -- injection Hrun as <- <- <-.
           exists [EvTranscribe (index chunk); EvCheckpoint (index chunk)].
           rewrite Hc, Ht, Hidx, <- !app_assoc.
           split; [reflexivity|]. split; [|discriminate].
           exists (EvProgress (completed + 1) total
                   :: expected_events total (completed + 1) rest).
           reflexivity.
      * injection Hrun as <- <- <-.
        exists [EvTranscribe (index chunk)]. split; [exact Ht|].
        split; [|discriminate].
        exists (EvCheckpoint (index chunk) :: EvProgress (completed + 1) total
                :: expected_events total (completed + 1) rest).
        reflexivity.
Qed.

Lemma transcribed_prefix evs tr :
  evs `prefix_of` tr -> transcribed evs `prefix_of` transcribed tr.
Proof.
  intros [k ->]. unfold transcribed. rewrite omap_app.
  exists (omap (fun e => match e with EvTranscribe i => Some i | _ => None end) k).
  reflexivity.
Qed.


(** ** The checkpoint store *)

Section Store.
Context `{JsonLib}.

Lemma save_job_run env config job chunks_dir w :
  let job' := set_updated_at job (w_clock w) in
  StateManager.save_job env config job chunks_dir w =
  (Ok job',
   with_fs (tick w)
     (StateManager.written env job
        (StateManager.job_text config job' chunks_dir) w)).
Proof.
  unfold StateManager.save_job, StateManager.write_job_file,
    StateManager.written, bind, catch, now, get_world, get_state, set_fs,
    raise, ret, with_fs, tick.
  simpl. destruct (disk env (job_id job) (w_clock w + 1)); reflexivity.
Qed.

Lemma load_job_run job_id w :
  StateManager.load_job job_id w = (Ok (StateManager.read_job (w_fs w) job_id), w).
Proof.
  unfold StateManager.load_job, StateManager.read_job, bind, catch, get_world,
    get_state.
  destruct (w_fs w !! job_id) as [f|]; [|reflexivity].
  destruct (StateManager.decode_job (content f)); reflexivity.
Qed.

Lemma replace_chunk_absent chunks chunk :
  Forall (fun c => index c <> index chunk) chunks ->
  StateManager.replace_chunk chunks chunk = chunks.
Proof.
  induction 1 as [|c rest Hc _ IH]; simpl; [reflexivity|].
  destruct (index c =? index chunk) eqn:E; [apply Z.eqb_eq in E; contradiction|].
  rewrite IH. reflexivity.
Qed.

Lemma set_chunks_same job : set_chunks job (chunks job) = job.
Proof. destruct job; reflexivity. Qed.

Lemma keeps_save_chunk_result env config job_id chunk :
  keeps_trace (StateManager.save_chunk_result env config job_id chunk).
Proof.
  intros w. unfold StateManager.save_chunk_result. unfold bind at 1.
  rewrite load_job_run.
  destruct (StateManager.read_job (w_fs w) job_id) as [job|]; [|reflexivity].
  unfold bind. rewrite save_job_run. reflexivity.
Qed.

(** C10: [save_chunk_result] always returns normally, whatever the jobs
    directory holds and whatever happens to the write.  When [load_job]
    finds no record for [job_id] the world is left as it was, nothing is
    written.  When the stored job has no chunk with the index of [chunk],
    the call amounts to [save_job] of the job as loaded: its chunk list is
    the stored one, the job saved differs from the stored one in
    [updated_at] only, and [chunk] is in it nowhere. *)
Theorem save_chunk_result_never_raises (env : Env) (config : AudioChunker.t)
    (job_id : string) (chunk : Chunk) (w : World) :
  (exists w', StateManager.save_chunk_result env config job_id chunk w = (Ok tt, w')) /\
  (StateManager.read_job (w_fs w) job_id = None ->
   StateManager.save_chunk_result env config job_id chunk w = (Ok tt, w)) /\
  (forall job,
     StateManager.read_job (w_fs w) job_id = Some job ->
     Forall (fun c => index c <> index chunk) (chunks job) ->
     StateManager.save_chunk_result env config job_id chunk w
       = (Ok tt, snd (StateManager.save_job env config job None w)) /\
     fst (StateManager.save_job env config job None w)
       = Ok (set_updated_at job (w_clock w)) /\
     chunks (set_updated_at job (w_clock w)) = chunks job).
Proof.
  unfold StateManager.save_chunk_result.
  split; [|split].
  - unfold bind at 1. rewrite load_job_run.
    destruct (StateManager.read_job (w_fs w) job_id) as [job|].
    + unfold bind. rewrite save_job_run. eexists. reflexivity.
    + eexists. reflexivity.
  - intros Hnone. unfold bind. rewrite load_job_run, Hnone. reflexivity.
  - intros job Hjob Habsent. unfold bind at 1. rewrite load_job_run, Hjob.
    rewrite (replace_chunk_absent _ _ Habsent), set_chunks_same.
    unfold bind. rewrite save_job_run. auto.
Qed.

(** C1 (as amended): [save_job] rewrites [jobs/<id>.json] in place, with no
    temporary file and no rename, and returns normally whatever happens to
    the write.  A save whose write succeeds leaves the whole text of the
    record in the file.  A save whose write fails after [n] characters
    leaves the first [n] characters of the new text in the file, whatever
    the file held before; when that prefix does not decode to a record,
    [load_job] of the job returns [None] afterwards.  A save that cannot
    open the file leaves the jobs directory as it was.  And [load_job] never
    raises: it returns [None] for a file whose text [json.load] rejects. *)
Theorem save_job_in_place (env : Env) (config : AudioChunker.t) (job : Job)
    (chunks_dir : option string) (w : World) :
  let job' := set_updated_at job (w_clock w) in
  let text := StateManager.job_text config job' chunks_dir in
  let run := StateManager.save_job env config job chunks_dir w in
  (disk env (job_id job) (w_clock w + 1) = IoOk ->
   run = (Ok job',
          with_fs (tick w) (<[job_id job := mkFile (w_clock w + 1) text]> (w_fs w)))) /\
  (forall n,
     disk env (job_id job) (w_clock w + 1) = IoWriteFails n ->
     run = (Ok job',
            with_fs (tick w)
              (<[job_id job := mkFile (w_clock w + 1) (String.substring 0 n text)]>
                 (w_fs w))) /\
     (StateManager.decode_job (String.substring 0 n text) = None ->
      StateManager.load_job (job_id job) (snd run) = (Ok None, snd run))) /\
  (disk env (job_id job) (w_clock w + 1) = IoOpenFails ->
   run = (Ok job', with_fs (tick w) (w_fs w))) /\
  (forall id, exists r, StateManager.load_job id w = (Ok r, w)) /\
  (forall id f,
     w_fs w !! id = Some f ->
     json_loads (content f) = None ->
     StateManager.load_job id w = (Ok None, w)).
Proof.
  intros job' text run. subst run. rewrite save_job_run.
  unfold StateManager.written. fold job' text.
  split; [|split; [|split; [|split]]].
  - intros ->. reflexivity.
  - intros n ->. split; [reflexivity|].
    intros Hbad. rewrite load_job_run. unfold StateManager.read_job.
    cbn [snd with_fs w_fs]. rewrite lookup_insert_eq. cbn [content].
    rewrite Hbad. reflexivity.
  - intros ->. reflexivity.
  - intros id. eexists. apply load_job_run.
  - intros id f Hf Hbad. rewrite load_job_run.
    unfold StateManager.read_job, StateManager.decode_job.
    rewrite Hf, Hbad. reflexivity.
Qed.

End Store.

Lemma save_job_in_place_witness :
  StateManager.save_job (stub_env []) default_chunker stored_job None stored_world =
  (Ok (set_updated_at stored_job 5),
   with_fs (tick stored_world)
     (<["job00001"%string :=
          mkFile 6 (StateManager.job_text default_chunker
                      (set_updated_at stored_job 5) None)]>
        (w_fs stored_world))) /\
  StateManager.save_job torn_env default_chunker stored_job None stored_world =
  (Ok (set_updated_at stored_job 5),
   with_fs (tick stored_world)
     (<["job00001"%string :=
          mkFile 6 (String.substring 0 100
                      (StateManager.job_text default_chunker
                         (set_updated_at stored_job 5) None))]>
        (w_fs stored_world))) /\
  StateManager.load_job "job00001"
    (snd (StateManager.save_job torn_env default_chunker stored_job None
            stored_world))
  = (Ok None,
     snd (StateManager.save_job torn_env default_chunker stored_job None
            stored_world)).
Proof.
  split.
  - apply (proj1 (save_job_in_place (stub_env []) default_chunker stored_job None
                    stored_world)).
    reflexivity.
  - destruct (proj1 (proj2 (save_job_in_place torn_env default_chunker stored_job
                              None stored_world)) 100%nat eq_refl)
      as [Hrun Hload].
    split; [exact Hrun|]. apply Hload. vm_compute. reflexivity.
Defined.

(** On a disk where the write fails after 100 characters, a save over the
    record of [stored_job] leaves a file that is neither the old record nor
    the new one. *)
Lemma save_job_tears_record :
  ~ StateManager.atomic_save torn_env default_chunker stored_job None stored_world.
Proof.
  intros Hatomic. vm_compute in Hatomic.
  destruct Hatomic as [Hsame|Hnew]; discriminate.
Qed.

Example torn_record_not_found :
  StateManager.read_job (w_fs stored_world) "job00001" = Some stored_job /\
  StateManager.read_job
    (w_fs (snd (StateManager.save_job torn_env default_chunker stored_job None
                  stored_world))) "job00001" = None.
Proof. vm_compute. split; reflexivity. Qed.

Lemma save_chunk_result_never_raises_witness :
  StateManager.save_chunk_result (stub_env []) default_chunker "job00001"
    stray_chunk stored_world
  = (Ok tt, snd (StateManager.save_job (stub_env []) default_chunker
                   stored_job None stored_world)) /\
  fst (StateManager.save_job (stub_env []) default_chunker stored_job None
         stored_world) = Ok (set_updated_at stored_job 5) /\
  chunks (set_updated_at stored_job 5) = chunks stored_job.
Proof.
  apply (proj2 (proj2 (save_chunk_result_never_raises (stub_env [])
                         default_chunker "job00001" stray_chunk stored_world))).
  - vm_compute. reflexivity.
  - repeat constructor; vm_compute; discriminate.
Defined.

Example mini_json_round_trip :
  let v := JDict [("a\b"%string, JList [JInt (-3); JFloat (5 # 2); JNull; JBool true]);
                  ("text"%string, JStr (String (ascii_of_nat 10) "x y"));
                  ("empty"%string, JDict [])] in
  MiniJson.loads (MiniJson.dumps v) = Some v.
Proof. vm_compute. reflexivity. Qed.

Example mini_json_rejects :
  MiniJson.loads "{" = None /\ MiniJson.loads "[1, 2" = None /\
  MiniJson.loads "{} x" = None /\ MiniJson.loads "" = None.
Proof. vm_compute. repeat split; reflexivity. Qed.

(** After [save_chunk_result] of a chunk the stored job does not have, the
    record reads back as the stored job with its new [updated_at]; the
    result of the chunk is nowhere. *)
Example stray_chunk_dropped :
  let w' := snd (StateManager.save_chunk_result (stub_env []) default_chunker
                   "job00001" stray_chunk stored_world) in
  StateManager.read_job (w_fs w') "job00001" = Some (set_updated_at stored_job 5).
Proof. vm_compute. reflexivity. Qed.

(** With a matching index the stored chunk is replaced by the result. *)
Example chunk_result_stored :
  let done := TranscriptionEngine.completed_chunk sample_chunk
                (mkWhisper "T_1" [mkRaw 0 310 "T_1"]) 4 in
  let w' := snd (StateManager.save_chunk_result (stub_env []) default_chunker
                   "job00001" done stored_world) in
  option_map (fun j => map (fun c => (index c, status c, text c)) (chunks j))
             (StateManager.read_job (w_fs w') "job00001")
  = Some [(0, COMPLETED, Some "T_0"%string); (1, COMPLETED, Some "T_1"%string)].
Proof. vm_compute. reflexivity. Qed.

(** ** Cleanup of old jobs *)

Section Cleanup.
Context `{JsonLib}.

Lemma with_fs_same w : with_fs w (w_fs w) = w.
Proof. destruct w; reflexivity. Qed.

Lemma cleaned_up_ext fs1 fs2 max_age now stem :
  fs1 !! stem = fs2 !! stem ->
  StateManager.cleaned_up fs1 max_age now stem
  = StateManager.cleaned_up fs2 max_age now stem.
Proof. unfold StateManager.cleaned_up. intros ->. reflexivity. Qed.

Lemma cleanup_step_run max_age dry_run now stem cleaned w :
  (forall f job, w_fs w !! stem = Some f ->
                 StateManager.decode_job (content f) = Some job ->
                 job_id job = stem) ->
  StateManager.cleanup_step max_age dry_run now stem cleaned w =
  (Ok (cleaned + if StateManager.cleaned_up (w_fs w) max_age now stem then 1 else 0),
   if StateManager.cleaned_up (w_fs w) max_age now stem && negb dry_run
   then with_fs w (delete stem (w_fs w)) else w).
Proof.
  intros Hid.
  unfold StateManager.cleanup_step, StateManager.cleaned_up.
  unfold bind at 1. cbn [get_world get_state].
  destruct (w_fs w !! stem) as [f|] eqn:Hf.
  2:{ unfold ret. rewrite Z.add_0_r. reflexivity. }
  destruct (max_age <? now - mtime f); cbn [andb].
  2:{ unfold ret. rewrite Z.add_0_r. reflexivity. }
  unfold bind at 1. rewrite load_job_run.
  unfold StateManager.read_job. rewrite Hf.
  destruct (StateManager.decode_job (content f)) as [job|] eqn:Hjob.
  2:{ unfold ret. rewrite Z.add_0_r. reflexivity. }
  rewrite (Hid f job eq_refl Hjob).
  destruct (StateManager.cleanable (job_status job)); simpl.
  2:{ unfold ret. rewrite Z.add_0_r. reflexivity. }
  destruct dry_run; simpl; [reflexivity|].
  unfold StateManager.delete_job, bind, get_world, get_state. simpl.
  rewrite Hf. reflexivity.
Qed.

Lemma cleanup_loop_run max_age dry_run now stems :
  NoDup stems ->
  forall cleaned w,
    (forall stem f job, stem ∈ stems -> w_fs w !! stem = Some f ->
                        StateManager.decode_job (content f) = Some job ->
                        job_id job = stem) ->
    exists fs',
      StateManager.cleanup_loop max_age dry_run now stems cleaned w =
      (Ok (cleaned + Z.of_nat (length (List.filter
              (StateManager.cleaned_up (w_fs w) max_age now) stems))),
       with_fs w fs') /\
      forall k, fs' !! k =
        if bool_decide (k ∈ stems)
           && StateManager.cleaned_up (w_fs w) max_age now k && negb dry_run
        then None else w_fs w !! k.
Proof.
  induction 1 as [|stem rest Hnotin Hnodup IH]; intros cleaned w Hid.
  - exists (w_fs w). simpl. unfold ret. rewrite Z.add_0_r, with_fs_same.
    split; [reflexivity|]. intros k. reflexivity.
  - cbn [StateManager.cleanup_loop]. unfold bind at 1.
    rewrite cleanup_step_run.
    2:{ intros f job. apply Hid. apply elem_of_cons. left. reflexivity. }
    set (hit := StateManager.cleaned_up (w_fs w) max_age now stem).
    set (w1 := if hit && negb dry_run
               then with_fs w (delete stem (w_fs w)) else w).
    assert (Hsame : forall k, k <> stem -> w_fs w1 !! k = w_fs w !! k).
    { intros k Hk. unfold w1. destruct (hit && negb dry_run); [|reflexivity].
      simpl. apply lookup_delete_ne. congruence. }
    assert (Hrest : forall k, k ∈ rest -> k <> stem).
    { intros k Hk ->. contradiction. }
    destruct (IH (cleaned + (if hit then 1 else 0)) w1) as (fs' & Hrun & Hfs').
    { intros k f job Hk. rewrite (Hsame k (Hrest k Hk)).
      apply Hid. apply elem_of_cons. right. exact Hk. }
    exists fs'. split.
    + rewrite Hrun. f_equal; [f_equal|].
      * cbn [List.filter]. fold hit.
        rewrite (filter_ext_in (StateManager.cleaned_up (w_fs w1) max_age now)
                   (StateManager.cleaned_up (w_fs w) max_age now)).
        2:{ intros k Hk. apply cleaned_up_ext, Hsame, Hrest.
            apply list_elem_of_In, Hk. }
        destruct hit; simpl; lia.
      * unfold w1. destruct (hit && negb dry_run); reflexivity.
    + intros k. rewrite Hfs'.
      destruct (decide (k = stem)) as [->|Hk].
      * rewrite (bool_decide_eq_false_2 _ Hnotin). simpl.
        rewrite (bool_decide_eq_true_2 (stem ∈ stem :: rest)).
        2:{ apply elem_of_cons. left. reflexivity. }
        simpl. fold hit. unfold w1.
        destruct (hit && negb dry_run); [|reflexivity].
        simpl. apply lookup_delete_eq.
      * rewrite (cleaned_up_ext (w_fs w1) (w_fs w)) by (apply Hsame, Hk).
        rewrite (Hsame k Hk).
        assert (Hiff : bool_decide (k ∈ rest) = bool_decide (k ∈ stem :: rest)).
        { apply bool_decide_ext. rewrite elem_of_cons. tauto. }
        rewrite Hiff. reflexivity.
Qed.

Lemma store_ok_empty : StateManager.store_ok ∅.
Proof.
  intros stem job. unfold StateManager.read_job. rewrite lookup_empty.
  discriminate.
Qed.

Lemma store_ok_insert fs stem f :
  StateManager.store_ok fs ->
  (forall job, StateManager.decode_job (content f) = Some job -> job_id job = stem) ->
  StateManager.store_ok (<[stem := f]> fs).
Proof.
  intros Hok Hf k job. unfold StateManager.read_job.
  destruct (decide (stem = k)) as [->|Hne].
  - rewrite lookup_insert_eq. apply Hf.
  - rewrite lookup_insert_ne by exact Hne. apply Hok.
Qed.

(** C8 (as amended): on a jobs directory where every readable record sits
    under its own id, [cleanup_old_jobs] returns the number of files older
    than [max_age_seconds] that hold a readable record whose status is
    [COMPLETED] or [FAILED]; when [dry_run] is false exactly these files are
    deleted, when it is true nothing is deleted.  Every other file stays, in
    particular the record of a [CANCELLED] job and the record of a job in any
    status that is not terminal. *)
Theorem cleanup_old_jobs_deletes (max_age_seconds : Z) (dry_run : bool) (w : World) :
  StateManager.store_ok (w_fs w) ->
  exists fs',
    StateManager.cleanup_old_jobs max_age_seconds dry_run w =
    (Ok (Z.of_nat (length (List.filter
            (StateManager.cleaned_up (w_fs w) max_age_seconds (w_clock w))
            (map fst (map_to_list (w_fs w)))))),
     with_fs w fs') /\
    (forall stem,
       fs' !! stem =
       if StateManager.cleaned_up (w_fs w) max_age_seconds (w_clock w) stem
          && negb dry_run
       then None else w_fs w !! stem) /\
    (dry_run = true -> fs' = w_fs w) /\
    (forall stem f job,
       w_fs w !! stem = Some f ->
       StateManager.decode_job (content f) = Some job ->
       job_status job <> JS_COMPLETED -> job_status job <> JS_FAILED ->
       fs' !! stem = Some f).
Proof.
  intros Hok.
  destruct (cleanup_loop_run max_age_seconds dry_run (w_clock w)
              (map fst (map_to_list (w_fs w)))
              (NoDup_fst_map_to_list (w_fs w)) 0 w) as (fs' & Hrun & Hfs').
  { intros stem f job _ Hf Hjob. apply Hok.
    unfold StateManager.read_job. rewrite Hf. exact Hjob. }
  assert (Hpoint : forall stem,
            fs' !! stem =
            if StateManager.cleaned_up (w_fs w) max_age_seconds (w_clock w) stem
               && negb dry_run
            then None else w_fs w !! stem).
  { intros stem. rewrite Hfs'.
    destruct (w_fs w !! stem) as [f|] eqn:Hf.
    - rewrite bool_decide_eq_true_2; [reflexivity|].
      apply list_elem_of_fmap. exists (stem, f). split; [reflexivity|].
      apply elem_of_map_to_list. exact Hf.
    - unfold StateManager.cleaned_up. rewrite Hf.
      rewrite andb_false_r. reflexivity. }
  exists fs'. split; [exact Hrun|]. split; [exact Hpoint|]. split.
  - intros ->. apply map_eq. intros k. rewrite Hpoint, andb_false_r. reflexivity.
  - intros stem f job Hf Hjob Hc Hfl. rewrite Hpoint.
    unfold StateManager.cleaned_up. rewrite Hf, Hjob.
    destruct (job_status job); try contradiction; simpl;
      rewrite andb_false_r; reflexivity.
Qed.

End Cleanup.

Lemma archive_ok : StateManager.store_ok archive.
Proof.
  unfold archive.
  repeat (apply store_ok_insert;
          [|intros job Hjob; vm_compute in Hjob; injection Hjob as <-; reflexivity]).
  apply store_ok_empty.
Qed.

Lemma cleanup_old_jobs_deletes_witness :
  exists fs',
    StateManager.cleanup_old_jobs week false archive_world =
    (Ok (Z.of_nat (length (List.filter
            (StateManager.cleaned_up (w_fs archive_world) week (w_clock archive_world))
            (map fst (map_to_list (w_fs archive_world)))))),
     with_fs archive_world fs') /\
    (forall stem,
       fs' !! stem =
       if StateManager.cleaned_up (w_fs archive_world) week (w_clock archive_world) stem
          && negb false
       then None else w_fs archive_world !! stem) /\
    (false = true -> fs' = w_fs archive_world) /\
    (forall stem f job,
       w_fs archive_world !! stem = Some f ->
       StateManager.decode_job (content f) = Some job ->
       job_status job <> JS_COMPLETED -> job_status job <> JS_FAILED ->
       fs' !! stem = Some f).
Proof.
  exact (cleanup_old_jobs_deletes week false archive_world archive_ok).
Defined.

(** The cancelled job's record is a week old and more, and a cleanup leaves
    it in the jobs directory. *)
Lemma cancelled_record_survives :
  ~ StateManager.cleanup_contract week archive_world.
Proof.
  intros Hcontract.
  specialize (Hcontract "canc0001"%string (record_of cancelled_job) cancelled_job).
  assert (Hgone : w_fs (snd (StateManager.cleanup_old_jobs week false archive_world))
                    !! "canc0001"%string = None).
  { apply Hcontract.
    - vm_compute. reflexivity.
    - vm_compute. reflexivity.
    - vm_compute. reflexivity.
    - reflexivity. }
  vm_compute in Hgone. discriminate Hgone.
Qed.

Example cleanup_archive :
  let '(r, w) := StateManager.cleanup_old_jobs week false archive_world in
  r = Ok 1 /\
  w_fs w !! "done0001"%string = None /\
  w_fs w !! "canc0001"%string = Some (record_of cancelled_job) /\
  w_fs w !! "run00001"%string = Some (record_of running_job).
Proof. vm_compute. repeat split; reflexivity. Qed.

Example cleanup_archive_dry_run :
  StateManager.cleanup_old_jobs week true archive_world = (Ok 1, archive_world).
Proof. vm_compute. reflexivity. Qed.

(** ** Errors of the model and the fate of the job *)

Lemma call_model_raises env d chunk w e :
  whisper_transcribe env d (default "None"%string (file_path chunk)) (w_calls w)
    = Raise e ->
  TranscriptionEngine.call_model env d chunk w = (Raise e, snd (next_call w)).
Proof.
  intros He. unfold TranscriptionEngine.call_model, bind, next_call.
  cbn [fst snd]. rewrite He. reflexivity.
Qed.

(** On the model's device a [RuntimeError] that is not an out-of-memory
    error ends the attempts at once, whatever the attempt. *)
Lemma attempts_non_oom env self chunk max_retries attempt remaining w d msg :
  w_model w = Some d ->
  whisper_transcribe env d (default "None"%string (file_path chunk)) (w_calls w)
    = Raise (RuntimeError msg) ->
  is_oom_message msg = false ->
  TranscriptionEngine.attempts env self chunk max_retries attempt (S remaining) w =
  (Raise (TranscriptionError ("Chunk " +:+ pretty (index chunk) +:+ ": " +:+ msg)),
   snd (next_call w)).
Proof.
  intros Hm He Hoom. cbn [TranscriptionEngine.attempts].
  unfold bind at 1. unfold catch. unfold bind at 1.
  unfold get_world, get_state. rewrite Hm.
  unfold bind at 1. rewrite (call_model_raises _ _ _ _ _ He).
  cbn [is_RuntimeError exn_str]. rewrite Hoom. reflexivity.
Qed.

Lemma load_model_loaded env self w d :
  w_model w = Some d -> TranscriptionEngine.load_model env self w = (Ok tt, w).
Proof.
  intros Hm. unfold TranscriptionEngine.load_model, bind, get_world, get_state.
  rewrite Hm. reflexivity.
Qed.

Lemma transcribe_chunk_non_oom env self chunk w d msg :
  TranscriptionEngine.file_missing env chunk = false ->
  w_model w = Some d ->
  whisper_transcribe env d (default "None"%string (file_path chunk)) (w_calls w)
    = Raise (RuntimeError msg) ->
  is_oom_message msg = false ->
  TranscriptionEngine.transcribe_chunk env self chunk 3 w =
  (Raise (TranscriptionError ("Chunk " +:+ pretty (index chunk) +:+ ": " +:+ msg)),
   snd (next_call w)).
Proof.
  intros Hfile Hm He Hoom. unfold TranscriptionEngine.transcribe_chunk.
  rewrite Hfile. unfold bind at 1. rewrite (load_model_loaded _ _ _ _ Hm).
  apply (attempts_non_oom _ _ _ _ _ _ _ _ _ Hm He Hoom).
Qed.

(** The batch driver stops at the chunk whose transcription raised; the
    chunk and the chunks after it are as they were. *)
Lemma chunk_loop_stops env self f g total completed chunk rest w e w' :
  status chunk <> COMPLETED ->
  TranscriptionEngine.transcribe_chunk env self chunk 3
    (snd (emit (EvTranscribe (index chunk)) w)) = (Raise e, w') ->
  TranscriptionEngine.chunk_loop env self f g total completed (chunk :: rest) w
  = ((Some e, chunk :: rest), w').
Proof.
  intros Hst Hrun. cbn [TranscriptionEngine.chunk_loop].
  destruct (decide (status chunk = COMPLETED)); [contradiction|].
  unfold bind at 1. cbn [emit fst snd] in Hrun |- *. rewrite Hrun. reflexivity.
Qed.

(** During the CPU fallback every exception of the model ends in a chunk
    marked [FAILED] that is returned normally. *)
Lemma transcribe_on_cpu_fails env self chunk w e :
  whisper_load_model env Cpu = None ->
  whisper_transcribe env Cpu (default "None"%string (file_path chunk)) (w_calls w)
    = Raise e ->
  is_Exception e = true ->
  TranscriptionEngine._transcribe_on_cpu env self chunk w =
  (Ok (TranscriptionEngine.failed_chunk chunk (exn_str e)),
   snd (next_call (snd (set_model None w)))).
Proof.
  intros Hload He Hexn. unfold TranscriptionEngine._transcribe_on_cpu.
  unfold catch. unfold bind at 1. unfold TranscriptionEngine.unload_model.
  cbn [set_model fst snd]. rewrite Hload.
  unfold bind at 1.
  rewrite (call_model_raises env Cpu chunk
             (mkWorld (w_fs w) (w_clock w) None (w_device w) (w_calls w) (w_trace w))
             e He).
  unfold TranscriptionEngine.cpu_failure. rewrite Hexn. reflexivity.
Qed.

Section Failure.
Context `{JsonLib}.

(** Whatever exception leaves the pipeline, [process] marks the job
    [FAILED], records the message, saves the job and raises. *)
Lemma process_marks_failed env self s e job' w' :
  Orchestrator._execute_pipeline env self s = (Raise e, (job', w')) ->
  is_Exception e = true ->
  let failed := set_updated_at
                  (set_job_error (set_job_status job' JS_FAILED) (Some (exn_str e)))
                  (w_clock w') in
  Orchestrator.process env self s =
  (Raise (if is_BoutError e then e
          else BoutError ("Pipeline failed: " +:+ exn_str e)),
   (failed,
    with_fs (tick w')
      (StateManager.written env failed
         (StateManager.job_text (Orchestrator.config_chunk self) failed None) w'))).
Proof.
  intros Hrun Hexn failed. unfold Orchestrator.process, catch. rewrite Hrun.
  destruct e; try discriminate Hexn;
    unfold bind, modify_job, Orchestrator.save; cbn [fst snd];
    rewrite save_job_run; reflexivity.
Qed.

End Failure.


Example cpu_fallback_run :
  let '(r, (job, w)) := Orchestrator.process cpu_failing_env scenario_orchestrator
                          (scenario_job 600, initial_world) in
  r = Ok (Some "output/video.docx"%string) /\
  job_status job = JS_COMPLETED /\
  map (fun c => (status c, text c, error c)) (chunks job)
    = [(FAILED, None, Some "boom"%string); (FAILED, None, Some "boom"%string)] /\
  transcription_text job = Some ""%string /\
  w_calls w = 8%nat.
Proof. vm_compute. repeat split; reflexivity. Qed.

Example gpu_error_run :
  let '(r, (job, w)) := Orchestrator.process broken_env scenario_orchestrator
                          (scenario_job 600, initial_world) in
  r = Raise (TranscriptionError "Chunk 0: cuDNN error") /\
  job_status job = JS_FAILED /\
  job_error job = Some "Chunk 0: cuDNN error"%string /\
  map status (chunks job) = [PENDING; PENDING] /\
  w_calls w = 1%nat /\
  option_map job_status (StateManager.read_job (w_fs w) "job00001")
    = Some JS_FAILED.
Proof. vm_compute. repeat split; reflexivity. Qed.

(** ** Resuming *)

Section Resume.
Context `{JsonLib}.

(** Resuming a job whose status is [EXTRACTING] or [CHUNKING] runs no stage
    at all and marks the job [COMPLETED]. *)
Lemma resume_skips_every_stage env self job w :
  job_status job = JS_EXTRACTING \/ job_status job = JS_CHUNKING ->
  exists job' w',
    Orchestrator._resume_from_status env self (job, w)
      = (Ok (output_path job), (job', w')) /\
    job' = set_updated_at (set_job_status job JS_COMPLETED) (w_clock w) /\
    w_trace w' = w_trace w ++ [EvCleanup].
Proof.
  intros Hst. eexists _, _.
  unfold Orchestrator._resume_from_status, Orchestrator.set_status_and_save,
    Orchestrator._cleanup, Orchestrator.save, bind, get_job, modify_job, lift,
    emit, ret.
  destruct job as [id vp vn ca ua ds st er ap cs op tt sg].
  cbn [job_status] in Hst.
  destruct Hst as [-> | ->];
    rewrite decide_False by discriminate;
    repeat first [ progress cbn [fst snd job_status orb]
                 | rewrite bool_decide_eq_false_2 by discriminate ];
    rewrite save_job_run; cbn; (split; [reflexivity|]);
    split; reflexivity.
Qed.

End Resume.

(** C2, at a job checkpointed in [EXTRACTING]: resuming it extracts nothing,
    plans, transcribes, merges and generates nothing, returns no output path
    and leaves the job, live and on disk, [COMPLETED]. *)
Theorem resume_from_extracting :
  let '(r, (job, w)) :=
    Orchestrator.resume (stub_env (scenario_plan 600)) scenario_orchestrator
                        (extracting_job, extracting_world) in
  r = Ok None /\
  job_status job = JS_COMPLETED /\
  chunks job = [] /\ transcription_text job = None /\ output_path job = None /\
  w_trace w = [EvCleanup] /\
  option_map job_status (StateManager.read_job (w_fs w) "job00002")
    = Some JS_COMPLETED.
Proof. vm_compute. repeat split; reflexivity. Qed.

(** Resuming the job checkpointed in [TRANSCRIBING] with chunk 0 done skips
    chunk 0, transcribes chunk 1, merges and generates; the transcript is
    the one of the uninterrupted run. *)
Example resume_from_transcribing :
  let '(r, (job, w)) :=
    Orchestrator.resume (stub_env (scenario_plan 600)) scenario_orchestrator
                        (stored_job, stored_world) in
  r = Ok (Some "output/video.docx"%string) /\
  job_status job = JS_COMPLETED /\
  transcription_text job = Some "T_0 T_1"%string /\
  job_segments job = [mkSegment 0 300 "T_0" None; mkSegment 290 600 "T_1" None] /\
  w_trace w = [EvProgress 1 2; EvTranscribe 1; EvCheckpoint 1; EvProgress 2 2;
               EvMerge; EvGenerate; EvCleanup].
Proof. vm_compute. repeat split; reflexivity. Qed.

(** ** End-to-end scenario: 600 s of audio *)

(** C3 (as amended): with [chunk_duration = 300], [overlap = 10],
    [min_chunk = 30] and 600 s of audio the plan is [[0,300]] and
    [[290,600]] with [overlap_start] 0 and 10; with the stub model the two
    chunks complete with the segments [(0, 300, "T_0")] and
    [(290, 600, "T_1")], and merging them gives the text ["T_0 T_1"] and
    exactly these two segments, whole: neither is clipped at 290 or 300. *)
Theorem scenario_600 :
  AudioChunker.calculate_chunks default_chunker 600 =
    Some [new_chunk 0 0 300 0; new_chunk 1 290 600 10] /\
  let job := fst (snd (scenario_run 600)) in
  map (fun c => (status c, text c, segments c)) (chunks job) =
    [(COMPLETED, Some "T_0"%string, [mkSegment 0 300 "T_0" None]);
     (COMPLETED, Some "T_1"%string, [mkSegment 290 600 "T_1" None])] /\
  ChunkMerger.merge_chunks (ChunkMerger.mk 10) (chunks job) =
    ("T_0 T_1"%string,
     [mkSegment 0 300 "T_0" None; mkSegment 290 600 "T_1" None]).
Proof. vm_compute. repeat split; reflexivity. Qed.

(** The merged segments are not [(0, 290, "T_0")] and [(300, 600, "T_1")]. *)
Lemma scenario_600_not_clipped : ~ scenario_600_as_specified.
Proof.
  intros [_ H]. vm_compute in H. discriminate H.
Qed.

(** ** The batch driver with the orchestrator's callbacks *)

Lemma split_plan_dense : dense_indices split_plan.
Proof.
  intros i c. destruct i as [|[|i]]; vm_compute; intros Hc;
    try discriminate Hc; injection Hc as <-; reflexivity.
Qed.


Example split_plan_events :
  w_trace (snd split_plan_run) =
  [EvTranscribe 0; EvCheckpoint 0; EvProgress 1 2;
   EvTranscribe 1; EvCheckpoint 1; EvProgress 2 2].
Proof. vm_compute. reflexivity. Qed.

(** ** More on the chunk planner: where the chunks lie and how long they get *)

Lemma calculate_chunks_inv (self : AudioChunker.t) (duration : Q) chunks :
  params_ok self ->
  AudioChunker.calculate_chunks self duration = Some chunks ->
  forall (i : nat) c, chunks !! i = Some c -> chunk_inv self duration i c.
Proof.
  intros Hp. unfold AudioChunker.calculate_chunks.
  destruct (Qleb duration 0) eqn:H0.
  - intros [= <-] i c Hi. rewrite lookup_nil in Hi. discriminate Hi.
  - apply Qleb_gt in H0.
    destruct (Qleb duration (inject_Z (AudioChunker.chunk_duration self))) eqn:H1.
    + intros [= <-]. apply single_chunk_inv, H0.
    + destruct (plan_loop_inv self duration Hp (AudioChunker.plan_fuel duration) [] 0%Q 0)
        as (res & Hres & Hinv & _).
      * intros i c Hi. rewrite lookup_nil in Hi. discriminate Hi.
      * reflexivity.
      * reflexivity.
      * intros _. exact H0.
      * unfold AudioChunker.plan_fuel.
        assert (Heq : (duration - 0 == duration)%Q) by lra.
        rewrite (Qceiling_comp _ _ Heq). lia.
      * rewrite Hres. intros [= <-]. exact Hinv.
Qed.

(** X1: every chunk of a plan is a non-empty interval inside the audio:
    [0 <= start_time < end_time <= duration]. *)
Theorem calculate_chunks_within (self : AudioChunker.t) (duration : Q) chunks :
  params_ok self ->
  AudioChunker.calculate_chunks self duration = Some chunks ->
  forall c, c ∈ chunks ->
    (0 <= start_time c)%Q /\ (start_time c < end_time c)%Q /\
    (end_time c <= duration)%Q.
Proof.
  intros Hp Hc c Hin. apply list_elem_of_lookup in Hin as [i Hi].
  destruct (calculate_chunks_inv self duration chunks Hp Hc i c Hi)
    as (_ & I2 & _ & I4 & I5 & I6 & _).
  pose proof (step_pos self Hp) as Hs. pose proof (step_le_cd self Hp) as Hcd.
  assert (H0 : (0 <= inject_Z (Z.of_nat i * effective_step self))%Q).
  { change 0%Q with (inject_Z 0). rewrite <- Zle_Qle.
    apply Z.mul_nonneg_nonneg; [lia|].
    rewrite Zle_Qle. change (inject_Z 0) with 0%Q. lra. }
  split; [lra|]. split; [|exact I5].
  apply Qlt_le_trans with (2 := I6).
  unfold py_min. destruct (Qltb _ _); lra.
Qed.

Lemma calculate_chunks_within_witness :
  (0 <= start_time (new_chunk 1 290 600 10))%Q /\
  (start_time (new_chunk 1 290 600 10) < end_time (new_chunk 1 290 600 10))%Q /\
  (end_time (new_chunk 1 290 600 10) <= 600)%Q.
Proof.
  apply (calculate_chunks_within default_chunker 600
           [new_chunk 0 0 300 0; new_chunk 1 290 600 10]).
  - unfold params_ok; simpl; lia.
  - vm_compute. reflexivity.
  - apply elem_of_cons. right. apply elem_of_cons. left. reflexivity.
Defined.

Section PlannerBound.

Variable self : AudioChunker.t.
Variable duration : Q.

Abbreviation cd' := (AudioChunker.chunk_duration self).
Abbreviation mc' := (AudioChunker.min_chunk self).
Abbreviation step' := (effective_step self).

Lemma plan_loop_bound fuel : forall chunks start idx res,
  (forall (i : nat) c, chunks !! i = Some c ->
     (start_time c == inject_Z (Z.of_nat i * step'))%Q /\
     (end_time c - start_time c <= inject_Z cd')%Q) ->
  idx = Z.of_nat (length chunks) ->
  (start == inject_Z (idx * step'))%Q ->
  AudioChunker.plan_loop fuel self duration chunks start idx = Some res ->
  forall (i : nat) c, res !! i = Some c ->
    (end_time c - start_time c <= inject_Z cd')%Q \/
    (S i = length res /\
     (end_time c - start_time c < inject_Z step' + inject_Z mc')%Q).
Proof.
  induction fuel as [|fuel IH]; intros chunks start idx res Hinv Hidx Hstart;
    [discriminate|].
  cbn [AudioChunker.plan_loop].
  destruct (Qltb start duration) eqn:Hcond.
  - destruct (Qltb (duration - start) (inject_Z mc') && (0 <? idx)) eqn:Hbrk.
    + apply andb_true_iff in Hbrk as [Hrem Hpos].
      apply Z.ltb_lt in Hpos. apply Qltb_lt in Hrem.
      destruct chunks as [|c0 l] using rev_ind; [simpl in Hidx; lia|].
      clear IHl. rewrite set_last_end_time_snoc. intros [= <-] i c Hi.
      destruct (decide (i < length l)%nat) as [Hlt|Hge].
      * rewrite lookup_app_l in Hi by exact Hlt. left.
        apply (Hinv i c). rewrite lookup_app_l by exact Hlt. exact Hi.
      * assert (Hlen : (i < length (l ++ [set_end_time c0 duration]))%nat)
          by (apply lookup_lt_Some in Hi; exact Hi).
        rewrite length_app in Hlen. simpl in Hlen.
        assert (i = length l) as -> by lia.
        rewrite list_lookup_middle in Hi by reflexivity. injection Hi as <-.
        right. split; [rewrite length_app; simpl; lia|].
        destruct (Hinv (length l) c0) as [I1 _].
        { rewrite list_lookup_middle by reflexivity. reflexivity. }
        cbn [set_end_time start_time end_time].
        rewrite length_app in Hidx. simpl in Hidx. subst idx.
        replace (Z.of_nat (length l + 1)) with (Z.of_nat (S (length l))) in Hstart by lia.
        rewrite start_next in Hstart. lra.
    + apply IH.
      * intros i c Hi.
        destruct (decide (i < length chunks)%nat) as [Hlt|Hge].
        -- rewrite lookup_app_l in Hi by exact Hlt. apply Hinv, Hi.
        -- pose proof (lookup_lt_Some _ _ _ Hi) as Hlen.
           rewrite length_app in Hlen. simpl in Hlen.
           assert (i = length chunks) as -> by lia.
           rewrite list_lookup_middle in Hi by reflexivity.
           injection Hi as <-. subst idx.
           cbn [new_chunk start_time end_time]. split; [exact Hstart|].
           pose proof (py_min_le_l (start + inject_Z cd') duration). lra.
      * rewrite length_app. simpl. lia.
      * subst idx. rewrite Hstart.
        replace (Z.of_nat (length chunks) + 1) with (Z.of_nat (S (length chunks))) by lia.
        rewrite start_next. reflexivity.
  - intros [= <-] i c Hi. left. apply (Hinv i c Hi).
Qed.

End PlannerBound.

(** X2: no chunk of a plan is longer than [chunk_duration], except that the
    last chunk, when it absorbs a remainder shorter than [min_chunk], may
    reach up to (but not including) [chunk_duration - overlap + min_chunk]. *)
Theorem calculate_chunks_length_bound (self : AudioChunker.t) (duration : Q) chunks :
  AudioChunker.calculate_chunks self duration = Some chunks ->
  forall (i : nat) c, chunks !! i = Some c ->
    (end_time c - start_time c <= inject_Z (AudioChunker.chunk_duration self))%Q \/
    (S i = length chunks /\
     (end_time c - start_time c <
      inject_Z (effective_step self) + inject_Z (AudioChunker.min_chunk self))%Q).
Proof.
  unfold AudioChunker.calculate_chunks.
  destruct (Qleb duration 0) eqn:H0.
  - intros [= <-] i c Hi. rewrite lookup_nil in Hi. discriminate Hi.
  - destruct (Qleb duration (inject_Z (AudioChunker.chunk_duration self))) eqn:H1.
    + apply Qleb_le in H1. intros [= <-] i c Hi.
      destruct i as [|i]; [|destruct i; discriminate Hi].
      injection Hi as <-. left. cbn [new_chunk start_time end_time]. lra.
    + intros Hres i c Hi.
      apply (plan_loop_bound self duration (AudioChunker.plan_fuel duration) [] 0%Q 0 chunks); auto.
      * intros j c' Hj. rewrite lookup_nil in Hj. discriminate Hj.
      * reflexivity.
Qed.

Lemma calculate_chunks_length_bound_witness :
  (end_time (new_chunk 0 0 301 0) - start_time (new_chunk 0 0 301 0) <=
     inject_Z (AudioChunker.chunk_duration default_chunker))%Q \/
  (1%nat = length [new_chunk 0 0 301 0] /\
   (end_time (new_chunk 0 0 301 0) - start_time (new_chunk 0 0 301 0) <
    inject_Z (effective_step default_chunker) +
    inject_Z (AudioChunker.min_chunk default_chunker))%Q).
Proof.
  apply (calculate_chunks_length_bound default_chunker 301
           [new_chunk 0 0 301 0] eq_refl 0%nat).
  reflexivity.
Defined.

(** ** More on the chunk merger: what the three filters keep *)

(** Turns every boolean comparison of times in the context and the goal into
    the inequality it decides. *)
Ltac Qbool :=
  repeat match goal with
  | H : Qleb _ _ = true |- _ => apply Qleb_le in H
  | H : Qleb _ _ = false |- _ => apply Qleb_gt in H
  | H : Qltb _ _ = true |- _ => apply Qltb_lt in H
  | H : Qltb _ _ = false |- _ => apply Qltb_ge in H
  | H : _ && _ = true |- _ => apply andb_true_iff in H as [? ?]
  | H : _ && _ = false |- _ => apply andb_false_iff in H as [?|?]
  | |- Qleb _ _ = true => apply Qleb_le
  | |- Qleb _ _ = false => apply Qleb_gt
  | |- Qltb _ _ = true => apply Qltb_lt
  | |- Qltb _ _ = false => apply Qltb_ge
  end.

(** The midpoint the code computes lies between the two ends of the
    segment, however the sum is rounded. *)
Lemma midpoint_between seg :
  is_double (seg_start seg) -> is_double (seg_end seg) ->
  (seg_start seg <= seg_end seg)%Q ->
  (seg_start seg <= ChunkMerger.midpoint seg)%Q /\
  (ChunkMerger.midpoint seg <= seg_end seg)%Q.
Proof.
  intros Hs He Hse. unfold ChunkMerger.midpoint, float_div, float_add.
  destruct (round_double_between (2 * seg_start seg) (2 * seg_end seg)
              (seg_start seg + seg_end seg)) as [H1 H2];
    [apply is_double_twice, Hs|apply is_double_twice, He|lra|lra|].
  apply round_double_between; [exact Hs|exact He| |].
  - apply Qle_shift_div_l; [reflexivity|lra].
  - apply Qle_shift_div_r; [reflexivity|lra].
Qed.

Lemma keep_first_midpoint cutoff seg :
  is_double (seg_start seg) -> is_double (seg_end seg) ->
  (seg_start seg <= seg_end seg)%Q ->
  ChunkMerger.keep_first cutoff seg = true <->
  (ChunkMerger.midpoint seg < cutoff)%Q \/ (seg_end seg <= cutoff)%Q.
Proof.
  intros Hs He Hse. destruct (midpoint_between seg Hs He Hse) as [M1 M2].
  unfold ChunkMerger.keep_first.
  destruct (Qleb (seg_end seg) cutoff) eqn:E1;
    [|destruct (Qltb (seg_start seg) cutoff) eqn:E2;
      [destruct (Qltb (ChunkMerger.midpoint seg) cutoff) eqn:E3|]];
    Qbool; split; try discriminate; try reflexivity;
    try (intros _; auto; fail); intros [?|?]; first [lra | exfalso; lra].
Qed.

Lemma keep_last_midpoint skip seg :
  is_double (seg_start seg) -> is_double (seg_end seg) ->
  (seg_start seg <= seg_end seg)%Q ->
  ChunkMerger.keep_last skip seg = true <->
  (skip <= ChunkMerger.midpoint seg)%Q /\
  ((skip <= seg_start seg)%Q \/ (skip < seg_end seg)%Q).
Proof.
  intros Hs He Hse. destruct (midpoint_between seg Hs He Hse) as [M1 M2].
  unfold ChunkMerger.keep_last.
  destruct (Qleb skip (seg_start seg)) eqn:E1;
    [|destruct (Qltb skip (seg_end seg)) eqn:E2;
      [destruct (Qleb skip (ChunkMerger.midpoint seg)) eqn:E3|]];
    Qbool; split; try discriminate; try reflexivity;
    try (intros _; split; [lra|auto]; fail);
    intros [? [?|?]]; first [lra | exfalso; lra].
Qed.

Lemma keep_middle_midpoint skip cutoff seg :
  is_double (seg_start seg) -> is_double (seg_end seg) ->
  (seg_start seg <= seg_end seg)%Q ->
  ChunkMerger.keep_middle skip cutoff seg = true <->
  (skip <= ChunkMerger.midpoint seg)%Q /\ (ChunkMerger.midpoint seg <= cutoff)%Q.
Proof.
  intros Hs He Hse. destruct (midpoint_between seg Hs He Hse) as [M1 M2].
  unfold ChunkMerger.keep_middle.
  destruct (Qleb skip (seg_start seg) && Qleb (seg_end seg) cutoff) eqn:E1;
    [|destruct (Qleb skip (ChunkMerger.midpoint seg)
                && Qleb (ChunkMerger.midpoint seg) cutoff) eqn:E2];
    Qbool; split; try discriminate; try reflexivity;
    try (intros _; split; lra); intros [? ?]; first [lra | exfalso; lra].
Qed.

(** X3: for a segment whose two ends are floats, the second not before the
    first, the midpoint the code computes (with its rounding) lies between
    the two ends, and each of the three boundary filters is a test on it.
    The first-chunk filter keeps the segment iff the midpoint is before the
    cutoff or the segment ends by the cutoff; the middle-chunk filter iff
    the midpoint is between [skip_until] and the cutoff; the last-chunk
    filter whenever the midpoint is after [skip_until] and only when it is
    at or after it: a segment whose midpoint is rounded onto [skip_until] is
    kept iff it starts at [skip_until] or ends after it. *)
Theorem filters_by_midpoint (skip cutoff : Q) (seg : TranscriptionSegment) :
  is_double (seg_start seg) -> is_double (seg_end seg) ->
  (seg_start seg <= seg_end seg)%Q ->
  ((seg_start seg <= ChunkMerger.midpoint seg)%Q /\
   (ChunkMerger.midpoint seg <= seg_end seg)%Q) /\
  (ChunkMerger.keep_first cutoff seg = true <->
     (ChunkMerger.midpoint seg < cutoff)%Q \/ (seg_end seg <= cutoff)%Q) /\
  (ChunkMerger.keep_middle skip cutoff seg = true <->
     (skip <= ChunkMerger.midpoint seg)%Q /\
     (ChunkMerger.midpoint seg <= cutoff)%Q) /\
  (ChunkMerger.keep_last skip seg = true <->
     (skip <= ChunkMerger.midpoint seg)%Q /\
     ((skip <= seg_start seg)%Q \/ (skip < seg_end seg)%Q)) /\
  ((skip < ChunkMerger.midpoint seg)%Q -> ChunkMerger.keep_last skip seg = true).
Proof.
  intros Hs He Hse. destruct (midpoint_between seg Hs He Hse) as [M1 M2].
  split; [split; assumption|]. split; [|split; [|split]].
  - apply keep_first_midpoint; assumption.
  - apply keep_middle_midpoint; assumption.
  - apply keep_last_midpoint; assumption.
  - intros Hlt. apply keep_last_midpoint; try assumption. split; [lra|]. right. lra.
Qed.

Lemma filters_by_midpoint_witness :
  ((seg_start tie_segment <= ChunkMerger.midpoint tie_segment)%Q /\
   (ChunkMerger.midpoint tie_segment <= seg_end tie_segment)%Q) /\
  (ChunkMerger.keep_first 1 tie_segment = true <->
     (ChunkMerger.midpoint tie_segment < 1)%Q \/ (seg_end tie_segment <= 1)%Q) /\
  (ChunkMerger.keep_middle 1 1 tie_segment = true <->
     (1 <= ChunkMerger.midpoint tie_segment)%Q /\
     (ChunkMerger.midpoint tie_segment <= 1)%Q) /\
  (ChunkMerger.keep_last 1 tie_segment = true <->
     (1 <= ChunkMerger.midpoint tie_segment)%Q /\
     ((1 <= seg_start tie_segment)%Q \/ (1 < seg_end tie_segment)%Q)) /\
  ((1 < ChunkMerger.midpoint tie_segment)%Q ->
   ChunkMerger.keep_last 1 tie_segment = true).
Proof.
  apply (filters_by_midpoint 1 1 tie_segment).
  - vm_compute. reflexivity.
  - vm_compute. reflexivity.
  - vm_compute. discriminate.
Defined.

(** The midpoint of a segment from [1 - 2^-53] to [1] is rounded up to [1]:
    the last-chunk filter with [skip_until = 1] drops the segment although
    its midpoint is not before [skip_until], and the middle-chunk filter
    keeps it. *)
Example tie_segment_filters :
  ChunkMerger.midpoint tie_segment = 1%Q /\
  ChunkMerger.keep_last 1 tie_segment = false /\
  ChunkMerger.keep_middle 1 1 tie_segment = true.
Proof. vm_compute. repeat split; reflexivity. Qed.

(** The rounded sum of 0.1 and 0.2 puts the midpoint on
    0.15000000000000002, above the midpoint of the two rationals. *)
Example tenth_fifth_midpoint :
  let seg := mkSegment (round_double (1 # 10)) (round_double (2 # 10)) "a" None in
  ChunkMerger.midpoint seg = round_double (15000000000000002 # 100000000000000000) /\
  ((seg_start seg + seg_end seg) / 2 < ChunkMerger.midpoint seg)%Q /\
  ChunkMerger.keep_last (round_double (15000000000000002 # 100000000000000000)) seg
    = true.
Proof. vm_compute. repeat split; reflexivity. Qed.

(** Two consecutive chunks of a plan: the second starts one step after the
    first, carries the configured overlap, and the first is not longer than
    [chunk_duration]. *)
Lemma consecutive_chunks (self : AudioChunker.t) (duration : Q) chunks
    (i : nat) a b :
  params_ok self ->
  AudioChunker.calculate_chunks self duration = Some chunks ->
  chunks !! i = Some a -> chunks !! S i = Some b ->
  (start_time b == start_time a + inject_Z (effective_step self))%Q /\
  overlap_start b = inject_Z (AudioChunker.overlap self) /\
  (end_time a <= start_time a + inject_Z (AudioChunker.chunk_duration self))%Q.
Proof.
  intros Hp Hc Ha Hb.
  pose proof (calculate_chunks_inv self duration chunks Hp Hc) as Hinv.
  destruct (Hinv i a Ha) as (_ & A2 & _).
  destruct (Hinv (S i) b Hb) as (_ & B2 & B3 & _).
  split; [|split].
  - rewrite A2, B2. apply start_next.
  - exact B3.
  - revert Hc. unfold AudioChunker.calculate_chunks.
    destruct (Qleb duration 0); [intros [= <-]; rewrite lookup_nil in Ha; discriminate|].
    destruct (Qleb duration (inject_Z (AudioChunker.chunk_duration self))).
    + intros [= <-]. discriminate Hb.
    + intros Hres.
      destruct (plan_loop_bound self duration (AudioChunker.plan_fuel duration)
                  [] 0%Q 0 chunks) with (i := i) (c := a) as [Hle|[Hlast _]]; auto.
      * intros j c' Hj. rewrite lookup_nil in Hj. discriminate Hj.
      * reflexivity.
      * lra.
      * apply lookup_lt_Some in Hb. lia.
Qed.

(** X4: the boundary between two consecutive chunks of a plan never keeps a
    segment twice.  With a positive overlap, a segment (its two ends floats)
    that passes the trailing test of chunk [i] (as first or as middle chunk)
    fails the leading test of chunk [i+1] (as middle or as last chunk),
    however its midpoint is rounded. *)
Theorem boundary_keeps_once (chunker : AudioChunker.t) (duration : Q) chunks
    (i : nat) (a b : Chunk) (merger : ChunkMerger.t) (seg : TranscriptionSegment) :
  params_ok chunker -> 0 < AudioChunker.overlap chunker ->
  AudioChunker.calculate_chunks chunker duration = Some chunks ->
  chunks !! i = Some a -> chunks !! S i = Some b ->
  (ChunkMerger.overlap_seconds merger == inject_Z (AudioChunker.overlap chunker))%Q ->
  is_double (seg_start seg) -> is_double (seg_end seg) ->
  (seg_start seg <= seg_end seg)%Q ->
  (ChunkMerger.keep_first (end_time a - ChunkMerger.overlap_seconds merger) seg = true \/
   exists s, ChunkMerger.keep_middle s
               (end_time a - ChunkMerger.overlap_seconds merger) seg = true) ->
  ChunkMerger.keep_last (start_time b + overlap_start b) seg = false /\
  forall c, ChunkMerger.keep_middle (start_time b + overlap_start b) c seg = false.
Proof.
  intros Hp Hov Hc Ha Hb Hm Hds Hde Hse Hkept.
  destruct (consecutive_chunks chunker duration chunks i a b Hp Hc Ha Hb)
    as (Hstart & Ho & Hend).
  rewrite Ho. unfold effective_step in Hstart.
  unfold Z.sub in Hstart. rewrite inject_Z_plus, inject_Z_opp in Hstart.
  rewrite Zlt_Qlt in Hov. change (inject_Z 0) with 0%Q in Hov.
  destruct (midpoint_between seg Hds Hde Hse) as [M1 M2].
  assert (Hmid : (ChunkMerger.midpoint seg
                  <= end_time a - ChunkMerger.overlap_seconds merger)%Q).
  { destruct Hkept as [Hk|[s Hk]].
    - apply keep_first_midpoint in Hk; try assumption. destruct Hk; lra.
    - apply keep_middle_midpoint in Hk; try assumption. tauto. }
  split.
  - apply not_true_iff_false. rewrite keep_last_midpoint by assumption. lra.
  - intros c. apply not_true_iff_false.
    rewrite keep_middle_midpoint by assumption. lra.
Qed.


Lemma boundary_keeps_once_witness :
  ChunkMerger.keep_last
    (start_time (new_chunk 1 290 600 10) + overlap_start (new_chunk 1 290 600 10))
    (mkSegment 280 286 "a" None) = false /\
  forall c, ChunkMerger.keep_middle
    (start_time (new_chunk 1 290 600 10) + overlap_start (new_chunk 1 290 600 10))
    c (mkSegment 280 286 "a" None) = false.
Proof.
  apply (boundary_keeps_once default_chunker 600
           [new_chunk 0 0 300 0; new_chunk 1 290 600 10] 0
           (new_chunk 0 0 300 0) (new_chunk 1 290 600 10) (ChunkMerger.mk 10)).
  - unfold params_ok; simpl; lia.
  - simpl; lia.
  - vm_compute. reflexivity.
  - reflexivity.
  - reflexivity.
  - reflexivity.
  - vm_compute. reflexivity.
  - vm_compute. reflexivity.
  - unfold Qle. simpl. lia.
  - left. vm_compute. reflexivity.
Defined.


(** *** The merged segments and the merged text *)

Lemma filter_perm_length {A} (f : A -> bool) (l l' : list A) :
  l ≡ₚ l' -> length (List.filter f l) = length (List.filter f l').
Proof.
  induction 1 as [|x l l' _ IH|x y l|l l' l'' _ IH1 _ IH2]; simpl.
  - reflexivity.
  - destruct (f x); simpl; congruence.
  - destruct (f x), (f y); reflexivity.
  - congruence.
Qed.

Lemma insert_sorted_start_sorted x l :
  StronglySorted (fun a b => (seg_start a <= seg_start b)%Q) l ->
  StronglySorted (fun a b => (seg_start a <= seg_start b)%Q)
    (insert_sorted (fun a b => Qltb (seg_start a) (seg_start b)) x l).
Proof.
  induction 1 as [|y l Hs IH Hall]; simpl; [repeat constructor|].
  destruct (Qltb (seg_start y) (seg_start x)) eqn:E.
  - apply Qltb_lt in E. constructor; [exact IH|].
    rewrite (insert_sorted_perm _ x l). constructor; [lra|exact Hall].
  - apply Qltb_ge in E. constructor; [constructor; assumption|].
    constructor; [exact E|].
    eapply Forall_impl; [exact Hall|]. intros z Hz. simpl in Hz. lra.
Qed.

Lemma py_sorted_start_sorted l :
  StronglySorted (fun a b => (seg_start a <= seg_start b)%Q)
    (py_sorted (fun a b => Qltb (seg_start a) (seg_start b)) l).
Proof.
  unfold py_sorted. induction l as [|x l IH]; simpl; [constructor|].
  apply insert_sorted_start_sorted, IH.
Qed.

(** With two or more chunks that carry a text, [merge_chunks] takes the
    general branch. *)
Lemma merge_chunks_general self chunks :
  (2 <= length (List.filter ChunkMerger.has_text chunks))%nat ->
  ChunkMerger.merge_chunks self chunks =
  (py_join " " (py_split (py_join " "
     (map (fun segs => py_join " " (map seg_text segs))
        (imap (ChunkMerger.filter_segments self
                 (length (List.filter ChunkMerger.has_text
                    (py_sorted (fun a b => index a <? index b) chunks))))
           (List.filter ChunkMerger.has_text
              (py_sorted (fun a b => index a <? index b) chunks)))))),
   py_sorted (fun a b => Qltb (seg_start a) (seg_start b))
     (kept_segments self chunks)).
Proof.
  intros Hlen. unfold ChunkMerger.merge_chunks, kept_segments.
  destruct chunks as [|c0 chunks0]; [simpl in Hlen; lia|].
  set (chunks := c0 :: chunks0) in *.
  rewrite <- (filter_perm_length _ _ _
                (py_sorted_perm (fun a b : Chunk => index a <? index b) chunks))
    in Hlen.
  destruct (List.filter ChunkMerger.has_text
              (py_sorted (fun a b : Chunk => index a <? index b) chunks))
    as [|c1 [|c2 rest]]; [simpl in Hlen; lia|simpl in Hlen; lia|].
  reflexivity.
Qed.

(** X6: when two or more chunks carry a text, the merged segments are the
    kept segments of the chunks, each exactly once, in non-decreasing order
    of their start times. *)
Theorem merge_chunks_sorted (self : ChunkMerger.t) (chunks : list Chunk) :
  (2 <= length (List.filter ChunkMerger.has_text chunks))%nat ->
  snd (ChunkMerger.merge_chunks self chunks) ≡ₚ kept_segments self chunks /\
  StronglySorted (fun a b => (seg_start a <= seg_start b)%Q)
    (snd (ChunkMerger.merge_chunks self chunks)).
Proof.
  intros Hlen. rewrite (merge_chunks_general self chunks Hlen). cbn [snd].
  split; [apply py_sorted_perm|apply py_sorted_start_sorted].
Qed.

Lemma merge_chunks_sorted_witness :
  snd (ChunkMerger.merge_chunks (ChunkMerger.mk 10) merge_sample)
    ≡ₚ kept_segments (ChunkMerger.mk 10) merge_sample /\
  StronglySorted (fun a b => (seg_start a <= seg_start b)%Q)
    (snd (ChunkMerger.merge_chunks (ChunkMerger.mk 10) merge_sample)).
Proof.
  apply (merge_chunks_sorted (ChunkMerger.mk 10) merge_sample).
  simpl. lia.
Defined.

Lemma py_isspace2_space a : py_isspace2 a " " = false.
Proof. unfold py_isspace2. cbn. apply andb_false_r. Qed.

Lemma py_isspace3_space_2 a c : py_isspace3 a " " c = false.
Proof.
  unfold py_isspace3. cbn.
  destruct (nat_of_ascii a =? 225)%nat, (nat_of_ascii a =? 226)%nat,
    (nat_of_ascii a =? 227)%nat; reflexivity.
Qed.

Lemma py_isspace3_space_3 a b : py_isspace3 a b " " = false.
Proof.
  unfold py_isspace3. cbn.
  destruct (nat_of_ascii a =? 225)%nat, (nat_of_ascii a =? 226)%nat,
    (nat_of_ascii a =? 227)%nat, (nat_of_ascii b =? 154)%nat,
    (nat_of_ascii b =? 128)%nat, (nat_of_ascii b =? 129)%nat; reflexivity.
Qed.

Lemma py_word_app cur l1 l2 : py_word cur (l1 ++ l2) = py_word cur l1 ++ l2.
Proof. destruct cur; reflexivity. Qed.

(** A space after [a] ends the last word of [a]: no character of [a] takes
    the space, or what follows it, as one of its bytes. *)
Lemma py_split_go_app (n : nat) : forall a cur b,
  (String.length a < n)%nat ->
  py_split_go cur (a +:+ String " " b) = py_split_go cur a ++ py_split b.
Proof.
  induction n as [|n IH]; intros a cur b Hlen; [lia|].
  destruct a as [|x a1].
  - change (EmptyString +:+ String " " b) with (String " " b).
    change (py_split_go cur (String " " b))
      with (py_word cur (py_split_go EmptyString b)).
    destruct cur; reflexivity.
  - change (String x a1 +:+ String " " b) with (String x (a1 +:+ String " " b)).
    cbn [String.length] in Hlen. cbn [py_split_go].
    destruct (py_isspace x).
    { rewrite (IH a1) by lia. apply py_word_app. }
    destruct a1 as [|y a2].
    { change (EmptyString +:+ String " " b) with (String " " b).
      cbv beta iota. rewrite py_isspace2_space.
      replace (match b with
               | EmptyString => py_split_go (String x cur) (String " " b)
               | String c s3 =>
                 if py_isspace3 x " " c
                 then py_word cur (py_split_go EmptyString s3)
                 else py_split_go (String x cur) (String " " b)
               end) with (py_split_go (String x cur) (String " " b))
        by (destruct b; [|rewrite py_isspace3_space_2]; reflexivity).
      apply (IH EmptyString). cbn. lia. }
    change (String y a2 +:+ String " " b) with (String y (a2 +:+ String " " b)).
    cbn [String.length] in Hlen. cbv beta iota.
    destruct (py_isspace2 x y).
    { rewrite (IH a2) by lia. apply py_word_app. }
    destruct a2 as [|z a3].
    { change (EmptyString +:+ String " " b) with (String " " b).
      cbv beta iota. rewrite py_isspace3_space_3.
      apply (IH (String y EmptyString)). cbn. lia. }
    change (String z a3 +:+ String " " b) with (String z (a3 +:+ String " " b)).
    cbn [String.length] in Hlen. cbv beta iota.
    destruct (py_isspace3 x y z).
    { rewrite (IH a3) by lia. apply py_word_app. }
    apply (IH (String y (String z a3))). cbn [String.length]. lia.
Qed.

(** Splitting a text joined with single spaces gives the words of its
    parts. *)
Lemma py_split_join parts :
  py_split (py_join " " parts) = concat (map py_split parts).
Proof.
  induction parts as [|p [|q rest] IH].
  - reflexivity.
  - simpl. rewrite app_nil_r. reflexivity.
  - change (py_join " " (p :: q :: rest))
      with (p +:+ String " " (py_join " " (q :: rest))).
    unfold py_split at 1.
    rewrite (py_split_go_app (S (String.length p))) by lia.
    rewrite IH. reflexivity.
Qed.

Lemma words_of_kept (kept : list (list TranscriptionSegment)) :
  py_split (py_join " " (map (fun segs => py_join " " (map seg_text segs)) kept))
  = concat (map (fun s => py_split (seg_text s)) (concat kept)).
Proof.
  rewrite py_split_join. induction kept as [|segs kept IH]; [reflexivity|].
  cbn [map concat]. rewrite map_app, concat_app, IH, py_split_join, map_map.
  reflexivity.
Qed.

(** X7: when two or more chunks carry a text, the merged text is made of the
    words of the kept segments, chunk by chunk in index order, separated by
    single spaces: no word is added, dropped or reordered, and no other
    whitespace survives. *)
Theorem merge_chunks_text (self : ChunkMerger.t) (chunks : list Chunk) :
  (2 <= length (List.filter ChunkMerger.has_text chunks))%nat ->
  fst (ChunkMerger.merge_chunks self chunks) =
  py_join " " (concat (map (fun s => py_split (seg_text s))
                         (kept_segments self chunks))).
Proof.
  intros Hlen. rewrite (merge_chunks_general self chunks Hlen). cbn [fst].
  rewrite words_of_kept. reflexivity.
Qed.

Lemma merge_chunks_text_witness :
  fst (ChunkMerger.merge_chunks (ChunkMerger.mk 10) merge_sample) =
  py_join " " (concat (map (fun s => py_split (seg_text s))
                         (kept_segments (ChunkMerger.mk 10) merge_sample))).
Proof.
  apply (merge_chunks_text (ChunkMerger.mk 10) merge_sample).
  simpl. lia.
Defined.

(** A no-break space separates two words like any other whitespace. *)
Example py_split_nbsp :
  py_split ("hola" +:+ nbsp +:+ "mundo " +:+ nbsp) = ["hola"; "mundo"]%string /\
  py_strip (nbsp +:+ " hola" +:+ nbsp +:+ "mundo " +:+ nbsp)
  = ("hola" +:+ nbsp +:+ "mundo")%string.
Proof. vm_compute. split; reflexivity. Qed.

Example merge_sample_result :
  ChunkMerger.merge_chunks (ChunkMerger.mk 10) merge_sample
  = ("hola adios amigos"%string,
     [mkSegment 0 280 "hola" None; mkSegment 301 400 "adios  amigos" None]).
Proof. reflexivity. Qed.

(** ** More on the transcription worker: retries, fallback and model calls *)

Lemma calls_ret {A} (a : A) : calls_within 0 (ret a).
Proof. intros w. simpl. lia. Qed.

Lemma calls_raise {A} e : calls_within 0 (@raise World A e).
Proof. intros w. simpl. lia. Qed.

Lemma calls_le {A} (n n' : nat) (m : M A) :
  (n <= n')%nat -> calls_within n m -> calls_within n' m.
Proof. intros Hle Hm w. specialize (Hm w). lia. Qed.

Lemma calls_bind {A B} (n1 n2 : nat) (m : M A) (k : A -> M B) :
  calls_within n1 m -> (forall a, calls_within n2 (k a)) ->
  calls_within (n1 + n2) (bind m k).
Proof.
  intros Hm Hk w. unfold bind. specialize (Hm w).
  destruct (m w) as [[a|e] w1]; simpl in *; [|lia].
  specialize (Hk a w1). lia.
Qed.

Lemma calls_catch {A} (n1 n2 : nat) (m : M A) (h : exn -> M A) :
  calls_within n1 m -> (forall e, calls_within n2 (h e)) ->
  calls_within (n1 + n2) (catch m h).
Proof.
  intros Hm Hh w. unfold catch. specialize (Hm w).
  destruct (m w) as [[a|e] w1]; simpl in *; [lia|].
  specialize (Hh e w1). lia.
Qed.

Lemma calls_get_world : calls_within 0 get_world.
Proof. intros w. simpl. lia. Qed.

Lemma calls_now : calls_within 0 now.
Proof. intros w. simpl. lia. Qed.

Lemma calls_emit e : calls_within 0 (emit e).
Proof. intros w. simpl. lia. Qed.

Lemma calls_set_fs fs : calls_within 0 (set_fs fs).
Proof. intros w. simpl. lia. Qed.

Lemma calls_set_model m : calls_within 0 (set_model m).
Proof. intros w. simpl. lia. Qed.

Lemma calls_set_device d : calls_within 0 (set_device d).
Proof. intros w. simpl. lia. Qed.

Create HintDb calls discriminated.
#[local] Hint Resolve calls_ret calls_raise calls_get_world calls_now calls_emit
  calls_set_fs calls_set_model calls_set_device : calls.

(** Steps through a computation none of whose parts calls the model. *)
Ltac no_calls :=
  repeat first
    [ solve [auto with calls]
    | match goal with
      | |- calls_within 0 (bind _ _) => apply (calls_bind 0 0); [|intros ?]
      | |- calls_within 0 (catch _ _) => apply (calls_catch 0 0); [|intros ?]
      end
    | match goal with
      | |- calls_within 0 (match ?x with _ => _ end) => destruct x
      | |- calls_within 0 (if ?x then _ else _) => destruct x
      end ].

Lemma calls_load_model env self :
  calls_within 0 (TranscriptionEngine.load_model env self).
Proof. unfold TranscriptionEngine.load_model. no_calls. Qed.

Lemma calls_cpu_failure chunk e :
  calls_within 0 (TranscriptionEngine.cpu_failure chunk e).
Proof. unfold TranscriptionEngine.cpu_failure. no_calls. Qed.

#[local] Hint Resolve calls_load_model calls_cpu_failure : calls.

Lemma calls_call_model env d chunk :
  calls_within 1 (TranscriptionEngine.call_model env d chunk).
Proof.
  intros w. unfold TranscriptionEngine.call_model, bind, next_call, ret, raise.
  destruct (whisper_transcribe env d _ (w_calls w)); simpl; lia.
Qed.

Lemma calls_transcribe_on_cpu env self chunk :
  calls_within 1 (TranscriptionEngine._transcribe_on_cpu env self chunk).
Proof.
  unfold TranscriptionEngine._transcribe_on_cpu, TranscriptionEngine.unload_model.
  apply (calls_catch 1 0); [|intros e; no_calls].
  apply (calls_bind 0 1); [no_calls|intros _].
  destruct (whisper_load_model env Cpu).
  - apply (calls_le 0); [lia|no_calls].
  - apply (calls_bind 1 0); [apply calls_call_model|intros result].
    no_calls.
Qed.
Lemma attempts_calls env self chunk max_retries remaining :
  forall attempt,
    calls_within (remaining + 1)
      (TranscriptionEngine.attempts env self chunk max_retries attempt remaining).
Proof.
  induction remaining as [|remaining IH]; intros attempt.
  - apply (calls_le 0); [lia|]. apply calls_ret.
  - cbn [TranscriptionEngine.attempts]. intros w.
    match goal with |- context [catch ?m ?h] => set (body := m); set (handler := h) end.
    assert (Hm : calls_within 1 body).
    { subst body. apply (calls_bind 0 1); [apply calls_get_world|intros w0].
      destruct (w_model w0).
      - apply (calls_bind 1 0); [apply calls_call_model|intros ?]. no_calls.
      - apply (calls_le 0); [lia|apply calls_raise]. }
    assert (Hh : forall e, calls_within 1 (handler e)).
    { intros e. subst handler. cbv beta.
      destruct (is_RuntimeError e); [|apply (calls_le 0); [lia|apply calls_raise]].
      destruct (is_oom_message (exn_str e));
        [|apply (calls_le 0); [lia|apply calls_raise]].
      destruct (Nat.eqb attempt (max_retries - 1));
        [|apply (calls_le 0); [lia|apply calls_ret]].
      apply (calls_bind 0 1); [apply calls_get_world|intros w0].
      destruct (decide (w_device w0 = Some Cpu));
        [apply (calls_le 0); [lia|apply calls_raise]|].
      apply (calls_bind 1 0); [apply calls_transcribe_on_cpu|intros ?].
      apply calls_ret. }
    assert (Hnone : forall e w0 w1, handler e w0 = (Ok None, w1) -> w1 = w0).
    { intros e w0 w1. subst handler. cbv beta.
      destruct (is_RuntimeError e); [|discriminate].
      destruct (is_oom_message (exn_str e)); [|discriminate].
      destruct (Nat.eqb attempt (max_retries - 1)); [|intros [= <-]; reflexivity].
      intros Hrun. apply bind_Ok_inv in Hrun as (w2 & w3 & _ & Hrun).
      destruct (decide (w_device w2 = Some Cpu)); [discriminate Hrun|].
      apply bind_Ok_inv in Hrun as (r & w4 & _ & Hrun). discriminate Hrun. }
    unfold bind, catch. specialize (Hm w).
    destruct (body w) as [[r|e] w0]; simpl in Hm.
    + destruct r as [c|]; [unfold ret; simpl; lia|].
      specialize (IH (S attempt) w0). lia.
    + specialize (Hh e w0). pose proof (Hnone e w0) as Hn.
      destruct (handler e w0) as [[r|e'] w1]; simpl in *; [|lia].
      destruct r as [c|]; [unfold ret; simpl; lia|].
      rewrite (Hn w1 eq_refl). specialize (IH (S attempt) w0). lia.
Qed.

Lemma calls_transcribe_chunk env self chunk max_retries :
  calls_within (max_retries + 1)
    (TranscriptionEngine.transcribe_chunk env self chunk max_retries).
Proof.
  unfold TranscriptionEngine.transcribe_chunk.
  destruct (TranscriptionEngine.file_missing env chunk).
  - apply (calls_le 0); [lia|apply calls_raise].
  - apply (calls_bind 0 (max_retries + 1)); [apply calls_load_model|intros _].
    apply attempts_calls.
Qed.

(** X8: one call of [transcribe_chunk] makes at most [max_retries + 1] calls
    to the speech model, whatever the model answers: at most [max_retries]
    on the loaded model and one more on the CPU. *)
Theorem transcribe_chunk_call_bound (env : Env) (self : TranscriptionEngine.t)
    (chunk : Chunk) (max_retries : nat) (w : World) :
  (w_calls w
   <= w_calls (snd (TranscriptionEngine.transcribe_chunk env self chunk max_retries w))
   <= w_calls w + max_retries + 1)%nat.
Proof.
  pose proof (calls_transcribe_chunk env self chunk max_retries w). lia.
Qed.

Lemma attempts_retry env self chunk max_retries d result :
  forall k attempt remaining w,
    (k < remaining)%nat -> (attempt + k < max_retries)%nat ->
    w_model w = Some d ->
    (forall j, (j < k)%nat -> exists msg,
       whisper_transcribe env d (default "None"%string (file_path chunk))
         (w_calls w + j) = Raise (RuntimeError msg) /\
       is_oom_message msg = true) ->
    whisper_transcribe env d (default "None"%string (file_path chunk))
      (w_calls w + k) = Ok result ->
    TranscriptionEngine.attempts env self chunk max_retries attempt remaining w
    = (Ok (TranscriptionEngine.completed_chunk chunk result (w_clock w)),
       mkWorld (w_fs w) (w_clock w + 1) (w_model w) (w_device w)
               (w_calls w + S k) (w_trace w)).
Proof.
  induction k as [|k IH]; intros attempt remaining w Hrem Hatt Hmodel Hoom Hok;
    (destruct remaining as [|remaining]; [lia|]);
    cbn [TranscriptionEngine.attempts];
    unfold TranscriptionEngine.call_model, bind, catch, get_world, get_state,
      next_call; cbv beta iota; rewrite Hmodel; cbv beta iota.
  - rewrite Nat.add_0_r in Hok. rewrite Hok. unfold ret, now. cbn.
    rewrite Nat.add_1_r, ?Hmodel. reflexivity.
  - destruct (Hoom 0%nat) as (msg & Hcall & Hmsg); [lia|].
    rewrite Nat.add_0_r in Hcall. rewrite Hcall. unfold raise. cbv beta iota.
    cbn [is_RuntimeError exn_str]. rewrite Hmsg.
    replace (attempt =? max_retries - 1)%nat with false
      by (symmetry; apply Nat.eqb_neq; lia).
    unfold ret.
    rewrite (IH (S attempt) remaining
               (mkWorld (w_fs w) (w_clock w) (w_model w) (w_device w)
                        (S (w_calls w)) (w_trace w))); cbn.
    + rewrite ?Hmodel. repeat f_equal. lia.
    + lia.
    + lia.
    + exact Hmodel.
    + intros j Hj. destruct (Hoom (S j)) as (msg' & Hc & Hm); [lia|].
      exists msg'. split; [|exact Hm]. rewrite <- Hc. f_equal. lia.
    + rewrite <- Hok. f_equal. lia.
Qed.

Lemma attempts_exhaust env self chunk max_retries d :
  forall remaining attempt w,
    (0 < remaining)%nat -> (attempt + remaining = max_retries)%nat ->
    w_model w = Some d ->
    (forall j, (j < remaining)%nat -> exists msg,
       whisper_transcribe env d (default "None"%string (file_path chunk))
         (w_calls w + j) = Raise (RuntimeError msg) /\
       is_oom_message msg = true) ->
    TranscriptionEngine.attempts env self chunk max_retries attempt remaining w
    = let w' := mkWorld (w_fs w) (w_clock w) (w_model w) (w_device w)
                        (w_calls w + remaining) (w_trace w) in
      if decide (w_device w = Some Cpu) then (Raise OutOfMemoryError, w')
      else TranscriptionEngine._transcribe_on_cpu env self chunk w'.
Proof.
  induction remaining as [|remaining IH]; intros attempt w Hpos Hatt Hmodel Hoom;
    [lia|].
  cbn [TranscriptionEngine.attempts].
  unfold TranscriptionEngine.call_model, bind, catch, get_world, get_state,
    next_call; cbv beta iota; rewrite Hmodel; cbv beta iota.
  destruct (Hoom 0%nat) as (msg & Hcall & Hmsg); [lia|].
  rewrite Nat.add_0_r in Hcall. rewrite Hcall. unfold raise. cbv beta iota.
  cbn [is_RuntimeError exn_str]. rewrite Hmsg.
  destruct remaining as [|remaining].
  - replace (attempt =? max_retries - 1)%nat with true
      by (symmetry; apply Nat.eqb_eq; lia).
    cbn [w_device]. rewrite Nat.add_1_r, ?Hmodel.
    destruct (decide (w_device w = Some Cpu)); [reflexivity|].
    destruct (TranscriptionEngine._transcribe_on_cpu env self chunk _)
      as [[c|e] w2]; reflexivity.
  - replace (attempt =? max_retries - 1)%nat with false
      by (symmetry; apply Nat.eqb_neq; lia).
    unfold ret.
    rewrite (IH (S attempt)
               (mkWorld (w_fs w) (w_clock w) (w_model w) (w_device w)
                        (S (w_calls w)) (w_trace w))); cbn.
    + rewrite ?Hmodel.
      replace (S (w_calls w + S remaining)) with (w_calls w + S (S remaining))%nat
        by lia.
      reflexivity.
    + lia.
    + lia.
    + exact Hmodel.
    + intros j Hj. destruct (Hoom (S j)) as (msg' & Hc & Hm); [lia|].
      exists msg'. split; [|exact Hm]. rewrite <- Hc. f_equal. lia.
Qed.

(** X9: an out-of-memory error of the model is retried on the same device.
    If the first [k < max_retries] calls fail with an out-of-memory
    [RuntimeError] and the next one answers, [transcribe_chunk] returns the
    chunk exactly as a first-try success on that answer would leave it,
    after [k + 1] calls to the model. *)
Theorem transcribe_chunk_retries_oom (env : Env) (self : TranscriptionEngine.t)
    (chunk : Chunk) (max_retries k : nat) (d : Device) (result : WhisperResult)
    (w : World) :
  TranscriptionEngine.file_missing env chunk = false ->
  w_model w = Some d ->
  (k < max_retries)%nat ->
  (forall j, (j < k)%nat -> exists msg,
     whisper_transcribe env d (default "None"%string (file_path chunk))
       (w_calls w + j) = Raise (RuntimeError msg) /\
     is_oom_message msg = true) ->
  whisper_transcribe env d (default "None"%string (file_path chunk))
    (w_calls w + k) = Ok result ->
  TranscriptionEngine.transcribe_chunk env self chunk max_retries w
  = (Ok (TranscriptionEngine.completed_chunk chunk result (w_clock w)),
     mkWorld (w_fs w) (w_clock w + 1) (w_model w) (w_device w)
             (w_calls w + S k) (w_trace w)).
Proof.
  intros Hfile Hmodel Hk Hoom Hok. unfold TranscriptionEngine.transcribe_chunk.
  rewrite Hfile. rewrite (bind_Ok _ _ _ _ _ (load_model_loaded env self w d Hmodel)).
  apply (attempts_retry env self chunk max_retries d result k 0 max_retries w);
    auto.
Qed.

Lemma transcribe_chunk_retries_oom_witness :
  TranscriptionEngine.transcribe_chunk (flaky_env 2) sample_engine sample_chunk 3
    loaded_world
  = (Ok (TranscriptionEngine.completed_chunk sample_chunk
           (mkWhisper " hola " [mkRaw 0 2 " hola "]) 0),
     mkWorld ∅ 1 (Some Cuda) (Some Cuda) 3 []).
Proof.
  apply (transcribe_chunk_retries_oom (flaky_env 2) sample_engine sample_chunk
           3 2 Cuda (mkWhisper " hola " [mkRaw 0 2 " hola "]) loaded_world).
  - reflexivity.
  - reflexivity.
  - lia.
  - intros j Hj. exists "CUDA out of memory"%string.
    destruct j as [|[|j]]; [split; reflexivity|split; reflexivity|lia].
  - reflexivity.
Defined.

(** X10: when every one of the [max_retries] attempts runs out of memory and
    the engine's device is the CPU, there is no fallback: [transcribe_chunk]
    raises [OutOfMemoryError] after exactly [max_retries] calls, and the
    chunk is not marked. *)
Theorem transcribe_chunk_oom_on_cpu (env : Env) (self : TranscriptionEngine.t)
    (chunk : Chunk) (max_retries : nat) (d : Device) (w : World) :
  TranscriptionEngine.file_missing env chunk = false ->
  w_model w = Some d -> w_device w = Some Cpu ->
  (0 < max_retries)%nat ->
  (forall j, (j < max_retries)%nat -> exists msg,
     whisper_transcribe env d (default "None"%string (file_path chunk))
       (w_calls w + j) = Raise (RuntimeError msg) /\
     is_oom_message msg = true) ->
  TranscriptionEngine.transcribe_chunk env self chunk max_retries w
  = (Raise OutOfMemoryError,
     mkWorld (w_fs w) (w_clock w) (w_model w) (w_device w)
             (w_calls w + max_retries) (w_trace w)).
Proof.
  intros Hfile Hmodel Hdev Hpos Hoom. unfold TranscriptionEngine.transcribe_chunk.
  rewrite Hfile. rewrite (bind_Ok _ _ _ _ _ (load_model_loaded env self w d Hmodel)).
  rewrite (attempts_exhaust env self chunk max_retries d max_retries 0 w); auto.
  cbv zeta. rewrite decide_True by exact Hdev. reflexivity.
Qed.

Lemma transcribe_chunk_oom_on_cpu_witness :
  TranscriptionEngine.transcribe_chunk (flaky_env 3) cpu_engine sample_chunk 3
    cpu_world
  = (Raise OutOfMemoryError, mkWorld ∅ 0 (Some Cpu) (Some Cpu) 3 []).
Proof.
  apply (transcribe_chunk_oom_on_cpu (flaky_env 3) cpu_engine sample_chunk
           3 Cpu cpu_world).
  - reflexivity.
  - reflexivity.
  - reflexivity.
  - lia.
  - intros j Hj. exists "CUDA out of memory"%string.
    destruct j as [|[|[|j]]]; [split; reflexivity..|lia].
Defined.

(** X11: when every one of the [max_retries] attempts on the loaded model
    runs out of memory and the engine's device is not the CPU, the chunk is
    transcribed once on the CPU: with an answer from the CPU model and a
    successful reload, [transcribe_chunk] returns the chunk [COMPLETED] with
    that answer, after [max_retries + 1] calls, and the model for the
    detected device is loaded again. *)
Theorem transcribe_chunk_cpu_fallback (env : Env) (self : TranscriptionEngine.t)
    (chunk : Chunk) (max_retries : nat) (d : Device) (result : WhisperResult)
    (w : World) :
  TranscriptionEngine.file_missing env chunk = false ->
  w_model w = Some d -> w_device w <> Some Cpu ->
  (0 < max_retries)%nat ->
  (forall j, (j < max_retries)%nat -> exists msg,
     whisper_transcribe env d (default "None"%string (file_path chunk))
       (w_calls w + j) = Raise (RuntimeError msg) /\
     is_oom_message msg = true) ->
  whisper_load_model env Cpu = None ->
  whisper_transcribe env Cpu (default "None"%string (file_path chunk))
    (w_calls w + max_retries) = Ok result ->
  whisper_load_model env (TranscriptionEngine._detect_device env self) = None ->
  TranscriptionEngine.transcribe_chunk env self chunk max_retries w
  = (Ok (TranscriptionEngine.completed_chunk chunk result (w_clock w)),
     mkWorld (w_fs w) (w_clock w + 1)
             (Some (TranscriptionEngine._detect_device env self))
             (Some (TranscriptionEngine._detect_device env self))
             (S (w_calls w + max_retries)) (w_trace w)).
Proof.
  intros Hfile Hmodel Hdev Hpos Hoom Hcpu Hok Hreload.
  unfold TranscriptionEngine.transcribe_chunk.
  rewrite Hfile. rewrite (bind_Ok _ _ _ _ _ (load_model_loaded env self w d Hmodel)).
  rewrite (attempts_exhaust env self chunk max_retries d max_retries 0 w); auto.
  cbv zeta. rewrite decide_False by exact Hdev.
  unfold TranscriptionEngine._transcribe_on_cpu, TranscriptionEngine.unload_model,
    TranscriptionEngine.call_model, TranscriptionEngine.load_model,
    bind, catch, get_world, get_state, set_model, set_device, next_call, now, ret.
  cbv beta iota. rewrite Hcpu. cbn [w_calls w_model]. rewrite Hok.
  cbv beta iota. cbn [w_model]. rewrite Hreload. reflexivity.
Qed.

Lemma transcribe_chunk_cpu_fallback_witness :
  TranscriptionEngine.transcribe_chunk gpu_oom_env sample_engine sample_chunk 3
    loaded_world
  = (Ok (TranscriptionEngine.completed_chunk sample_chunk
           (mkWhisper " hola " [mkRaw 0 2 " hola "]) 0),
     mkWorld ∅ 1 (Some Cuda) (Some Cuda) 4 []).
Proof.
  apply (transcribe_chunk_cpu_fallback gpu_oom_env sample_engine sample_chunk
           3 Cuda (mkWhisper " hola " [mkRaw 0 2 " hola "]) loaded_world).
  - reflexivity.
  - reflexivity.
  - discriminate.
  - lia.
  - intros j Hj. exists "CUDA out of memory"%string. split; reflexivity.
  - reflexivity.
  - reflexivity.
  - reflexivity.
Defined.

(** ** More on the batch driver: what a run leaves in the chunk list *)

Lemma cpu_failure_status chunk e w c' w' :
  TranscriptionEngine.cpu_failure chunk e w = (Ok c', w') -> status c' = FAILED.
Proof.
  unfold TranscriptionEngine.cpu_failure, ret, raise.
  destruct (is_Exception e); [|discriminate]. intros [= <- _]. reflexivity.
Qed.

Lemma transcribe_on_cpu_status env self chunk w c' w' :
  TranscriptionEngine._transcribe_on_cpu env self chunk w = (Ok c', w') ->
  status c' = COMPLETED \/ status c' = FAILED.
Proof.
  unfold TranscriptionEngine._transcribe_on_cpu. intros Hrun.
  apply catch_Ok_inv in Hrun as [Hrun|(e & w1 & _ & Hh)].
  2:{ right. eapply cpu_failure_status, Hh. }
  apply bind_Ok_inv in Hrun as (_ & w1 & _ & Hrun).
  destruct (whisper_load_model env Cpu); [discriminate Hrun|].
  apply bind_Ok_inv in Hrun as (result & w2 & _ & Hrun).
  apply bind_Ok_inv in Hrun as (t & w3 & _ & Hrun).
  apply catch_Ok_inv in Hrun as [Hrun|(e & w4 & _ & Hh)].
  2:{ right. eapply cpu_failure_status, Hh. }
  apply bind_Ok_inv in Hrun as (_ & w4 & _ & Hrun).
  injection Hrun as <- _. left. reflexivity.
Qed.

Lemma attempts_status env self chunk max_retries remaining :
  forall attempt w c' w',
    TranscriptionEngine.attempts env self chunk max_retries attempt remaining w
      = (Ok c', w') ->
    status c' = COMPLETED \/ status c' = FAILED.
Proof.
  induction remaining as [|remaining IH]; intros attempt w c' w' Hrun.
  - injection Hrun as <- _. right. reflexivity.
  - cbn [TranscriptionEngine.attempts] in Hrun.
    apply bind_Ok_inv in Hrun as (r & w1 & Htry & Hrun).
    destruct r as [chunk'|]; [|eapply IH; eassumption].
    injection Hrun as -> ->.
    apply catch_Ok_inv in Htry as [Htry|(e & w2 & _ & Hh)].
    + apply bind_Ok_inv in Htry as (w0 & w2 & Hget & Htry).
      destruct (w_model w0) as [d|]; [|discriminate Htry].
      apply bind_Ok_inv in Htry as (result & w3 & _ & Htry).
      apply bind_Ok_inv in Htry as (t & w4 & _ & Htry).
      injection Htry as <- _. left. reflexivity.
    + destruct (is_RuntimeError e); [|discriminate Hh].
      destruct (is_oom_message (exn_str e)); [|discriminate Hh].
      destruct (Nat.eqb attempt (max_retries - 1)); [|discriminate Hh].
      apply bind_Ok_inv in Hh as (w0 & w3 & _ & Hh).
      destruct (decide (w_device w0 = Some Cpu)); [discriminate Hh|].
      apply bind_Ok_inv in Hh as (r & w4 & Hcpu & Hh).
      injection Hh as <- _.
      eapply transcribe_on_cpu_status, Hcpu.
Qed.

Lemma transcribe_chunk_status env self chunk max_retries w c' w' :
  TranscriptionEngine.transcribe_chunk env self chunk max_retries w = (Ok c', w') ->
  status c' = COMPLETED \/ status c' = FAILED.
Proof.
  unfold TranscriptionEngine.transcribe_chunk.
  destruct (TranscriptionEngine.file_missing env chunk); [discriminate|].
  intros Hrun. apply bind_Ok_inv in Hrun as (_ & w1 & _ & Hrun).
  eapply attempts_status, Hrun.
Qed.

Lemma chunk_step_same env self r c :
  r <> None \/ status c = COMPLETED -> chunk_step env self r c c.
Proof.
  intros Hr. split; [reflexivity|]. split; [left; reflexivity|].
  intros Hn Hst. destruct Hr; contradiction.
Qed.

Lemma chunk_loop_steps env self f g total :
  forall chunks completed w r cs w',
    TranscriptionEngine.chunk_loop env self f g total completed chunks w
      = ((r, cs), w') ->
    Forall2 (chunk_step env self r) chunks cs.
Proof.
  intros chunks.
  induction chunks as [|chunk rest IH]; intros completed w r cs w' Hrun.
  - cbn [TranscriptionEngine.chunk_loop] in Hrun.
    injection Hrun as <- <- <-. constructor.
  - cbn [TranscriptionEngine.chunk_loop] in Hrun.
    assert (Hrest : forall e, Forall2 (chunk_step env self (Some e)) rest rest).
    { intros e. apply Forall2_same_length_lookup. split; [reflexivity|].
      intros i x y Hx Hy. rewrite Hx in Hy. injection Hy as <-.
      apply chunk_step_same. left. discriminate. }
    destruct (decide (status chunk = COMPLETED)) as [Hst|Hst].
    + destruct (TranscriptionEngine.call_progress f (completed + 1) total w)
        as [[[]|e] w1].
      * destruct (TranscriptionEngine.chunk_loop env self f g total
                    (completed + 1) rest w1) as [[r' rest'] w2] eqn:Hloop.
        injection Hrun as <- <- <-. constructor; [|eapply IH, Hloop].
        apply chunk_step_same. right. exact Hst.
      * injection Hrun as <- <- <-. constructor; [|apply Hrest].
        apply chunk_step_same. left. discriminate.
    + unfold bind at 1 in Hrun. cbn [emit] in Hrun.
      match type of Hrun with
      | context [TranscriptionEngine.transcribe_chunk _ _ _ _ ?w0] =>
        destruct (TranscriptionEngine.transcribe_chunk env self chunk 3 w0)
          as [[chunk'|e] w1] eqn:Hc
      end.
      * assert (Hstep : forall r0, chunk_step env self r0 chunk chunk').
        { intros r0. split; [contradiction|]. split; [right|]; eauto. }
        destruct ((TranscriptionEngine.call_checkpoint g chunk' ;;;
                   TranscriptionEngine.call_progress f (completed + 1) total) w1)
          as [[[]|e] w2].
        -- destruct (TranscriptionEngine.chunk_loop env self f g total
                       (completed + 1) rest w2) as [[r' rest'] w3] eqn:Hloop.
           injection Hrun as <- <- <-. constructor; [apply Hstep|eapply IH, Hloop].
        -- injection Hrun as <- <- <-. constructor; [apply Hstep|apply Hrest].
      * injection Hrun as <- <- <-. constructor; [|apply Hrest].
        apply chunk_step_same. left. discriminate.
Qed.

Lemma transcribe_all_chunks_steps env self chunks f g w r cs w' :
  TranscriptionEngine.transcribe_all_chunks env self chunks f g w = ((r, cs), w') ->
  Forall2 (chunk_step env self r) chunks cs.
Proof.
  unfold TranscriptionEngine.transcribe_all_chunks.
  destruct (TranscriptionEngine.load_model env self w) as [[[]|e] w1].
  - apply chunk_loop_steps.
  - intros [= <- <- <-]. apply Forall2_same_length_lookup. split; [reflexivity|].
    intros i x y Hx Hy. rewrite Hx in Hy. injection Hy as <-.
    apply chunk_step_same. left. discriminate.
Qed.

(** X12: whatever happens during a run of [transcribe_all_chunks], with or
    without an exception, the chunk list keeps its length, every position
    keeps its chunk index, and a chunk that was already [COMPLETED] (a
    resumed job) comes back exactly as it was. *)
Theorem transcribe_all_chunks_keeps_completed (env : Env)
    (self : TranscriptionEngine.t) (chunks : list Chunk)
    (progress_callback : option (Z -> Z -> M unit))
    (checkpoint_callback : option (Chunk -> M unit)) (w : World) :
  length (snd (fst (TranscriptionEngine.transcribe_all_chunks env self chunks
                      progress_callback checkpoint_callback w)))
  = length chunks /\
  forall (i : nat) c, chunks !! i = Some c ->
    exists c',
      snd (fst (TranscriptionEngine.transcribe_all_chunks env self chunks
                  progress_callback checkpoint_callback w)) !! i = Some c' /\
      index c' = index c /\
      (status c = COMPLETED -> c' = c).
Proof.
  destruct (TranscriptionEngine.transcribe_all_chunks env self chunks
              progress_callback checkpoint_callback w) as [[r cs] w'] eqn:Hrun.
  apply transcribe_all_chunks_steps in Hrun. cbn [fst snd].
  split; [symmetry; eapply Forall2_length, Hrun|].
  intros i c Hi.
  destruct (Forall2_lookup_l _ _ _ _ _ Hrun Hi) as (c' & Hc' & Hkeep & Hstep & _).
  exists c'. split; [exact Hc'|]. split; [|exact Hkeep].
  destruct Hstep as [->|(w0 & w1 & Ht)]; [reflexivity|].
  eapply transcribe_chunk_index, Ht.
Qed.

(** X13: when a run of [transcribe_all_chunks] ends without an exception,
    no chunk is left [PENDING] or [PROCESSING]: every chunk of the list is
    [COMPLETED] or [FAILED]. *)
Theorem transcribe_all_chunks_settles (env : Env)
    (self : TranscriptionEngine.t) (chunks : list Chunk)
    (progress_callback : option (Z -> Z -> M unit))
    (checkpoint_callback : option (Chunk -> M unit)) (w : World)
    (cs : list Chunk) (w' : World) :
  TranscriptionEngine.transcribe_all_chunks env self chunks
    progress_callback checkpoint_callback w = ((None, cs), w') ->
  forall c', c' ∈ cs -> status c' = COMPLETED \/ status c' = FAILED.
Proof.
  intros Hrun c' Hin. apply transcribe_all_chunks_steps in Hrun.
  apply list_elem_of_lookup in Hin as [i Hi].
  destruct (Forall2_lookup_r _ _ _ _ _ Hrun Hi) as (c & Hc & Hkeep & _ & Hdone).
  destruct (decide (status c = COMPLETED)) as [Hst|Hst].
  - rewrite (Hkeep Hst). left. exact Hst.
  - destruct (Hdone eq_refl Hst) as (w0 & w1 & Ht).
    eapply transcribe_chunk_status, Ht.
Qed.

Lemma transcribe_all_chunks_settles_witness :
  Forall (fun c' => status c' = COMPLETED \/ status c' = FAILED)
         (snd (fst resumed_plan_run)).
Proof.
  apply Forall_forall.
  apply (transcribe_all_chunks_settles (stub_env (scenario_plan 600))
           sample_engine resumed_plan
           (Some Orchestrator.on_chunk_progress)
           (Some (Orchestrator.on_chunk_checkpoint (stub_env (scenario_plan 600))
                    scenario_orchestrator "job00001"))
           initial_world (snd (fst resumed_plan_run)) (snd resumed_plan_run)).
  vm_compute. reflexivity.
Defined.

(** *** Calls to the model during a run *)

Lemma calls_call_progress f a b :
  (forall cb, f = Some cb -> forall x y, calls_within 0 (cb x y)) ->
  calls_within 0 (TranscriptionEngine.call_progress f a b).
Proof.
  intros Hf. unfold TranscriptionEngine.call_progress.
  destruct f as [cb|]; [|apply calls_ret].
  apply (calls_bind 0 0); [apply calls_emit|intros _]. apply (Hf cb eq_refl).
Qed.

Lemma calls_call_checkpoint g c :
  (forall cb, g = Some cb -> forall x, calls_within 0 (cb x)) ->
  calls_within 0 (TranscriptionEngine.call_checkpoint g c).
Proof.
  intros Hg. unfold TranscriptionEngine.call_checkpoint.
  destruct g as [cb|]; [|apply calls_ret].
  apply (calls_bind 0 0); [apply calls_emit|intros _]. apply (Hg cb eq_refl).
Qed.

Lemma chunk_loop_calls env self f g total :
  (forall cb, f = Some cb -> forall x y, calls_within 0 (cb x y)) ->
  (forall cb, g = Some cb -> forall x, calls_within 0 (cb x)) ->
  forall chunks completed w,
    (w_calls w
     <= w_calls (snd (TranscriptionEngine.chunk_loop env self f g total
                        completed chunks w))
     <= w_calls w + 4 * length (to_transcribe chunks))%nat.
Proof.
  intros Hf Hg chunks.
  induction chunks as [|chunk rest IH]; intros completed w.
  - simpl. lia.
  - cbn [TranscriptionEngine.chunk_loop to_transcribe List.filter].
    fold (to_transcribe rest).
    destruct (decide (status chunk = COMPLETED)) as [Hst|Hst].
    + rewrite (bool_decide_eq_true_2 _ Hst). cbn [negb].
      pose proof (calls_call_progress f (completed + 1) total Hf w) as Hp.
      destruct (TranscriptionEngine.call_progress f (completed + 1) total w)
        as [[[]|e] w1]; cbn [snd] in Hp |- *; [|lia].
      specialize (IH (completed + 1) w1).
      destruct (TranscriptionEngine.chunk_loop env self f g total
                  (completed + 1) rest w1) as [[r' rest'] w2].
      cbn [snd] in IH |- *. lia.
    + rewrite (bool_decide_eq_false_2 _ Hst). cbn [negb length].
      pose proof (calls_bind 0 4 (emit (EvTranscribe (index chunk)))
                    (fun _ => TranscriptionEngine.transcribe_chunk env self chunk 3)
                    (calls_emit _)
                    (fun _ => calls_transcribe_chunk env self chunk 3) w) as Ht.
      destruct ((emit (EvTranscribe (index chunk)) ;;;
                 TranscriptionEngine.transcribe_chunk env self chunk 3) w)
        as [[chunk'|e] w1]; cbn [snd] in Ht |- *; [|lia].
      pose proof (calls_bind 0 0 (TranscriptionEngine.call_checkpoint g chunk')
                    (fun _ => TranscriptionEngine.call_progress f (completed + 1) total)
                    (calls_call_checkpoint g chunk' Hg)
                    (fun _ => calls_call_progress f (completed + 1) total Hf) w1) as Hc.
      destruct ((TranscriptionEngine.call_checkpoint g chunk' ;;;
                 TranscriptionEngine.call_progress f (completed + 1) total) w1)
        as [[[]|e] w2]; cbn [snd] in Hc |- *; [|lia].
      specialize (IH (completed + 1) w2).
      destruct (TranscriptionEngine.chunk_loop env self f g total
                  (completed + 1) rest w2) as [[r' rest'] w3].
      cbn [snd] in IH |- *. lia.
Qed.

(** X14: with callbacks that do not call the model themselves, a run of
    [transcribe_all_chunks] makes at most four calls to the model (three
    attempts and the CPU fallback) for each chunk that is not [COMPLETED],
    and none for the others; on a list of [COMPLETED] chunks it makes no
    call at all. *)
Theorem transcribe_all_chunks_call_bound (env : Env)
    (self : TranscriptionEngine.t) (chunks : list Chunk)
    (progress_callback : option (Z -> Z -> M unit))
    (checkpoint_callback : option (Chunk -> M unit)) (w : World) :
  (forall cb, progress_callback = Some cb ->
     forall x y, calls_within 0 (cb x y)) ->
  (forall cb, checkpoint_callback = Some cb ->
     forall x, calls_within 0 (cb x)) ->
  (w_calls w
   <= w_calls (snd (TranscriptionEngine.transcribe_all_chunks env self chunks
                      progress_callback checkpoint_callback w))
   <= w_calls w + 4 * length (to_transcribe chunks))%nat.
Proof.
  intros Hf Hg. unfold TranscriptionEngine.transcribe_all_chunks.
  pose proof (calls_load_model env self w) as Hl.
  destruct (TranscriptionEngine.load_model env self w) as [[[]|e] w1];
    cbn [snd] in Hl |- *; [|lia].
  pose proof (chunk_loop_calls env self progress_callback checkpoint_callback
                (Z.of_nat (length chunks)) Hf Hg chunks 0 w1).
  lia.
Qed.

Lemma calls_save_job `{JsonLib} env config job chunks_dir :
  calls_within 0 (StateManager.save_job env config job chunks_dir).
Proof.
  unfold StateManager.save_job, StateManager.write_job_file. no_calls.
Qed.

Lemma calls_save_chunk_result `{JsonLib} env config job_id chunk :
  calls_within 0 (StateManager.save_chunk_result env config job_id chunk).
Proof.
  unfold StateManager.save_chunk_result, StateManager.load_job.
  apply (calls_bind 0 0); [no_calls|intros job].
  destruct job as [job|]; [|apply calls_ret].
  apply (calls_bind 0 0); [apply calls_save_job|intros _; apply calls_ret].
Qed.

Lemma transcribe_all_chunks_call_bound_witness :
  (w_calls initial_world <= w_calls (snd resumed_plan_run)
   <= w_calls initial_world + 4 * length (to_transcribe resumed_plan))%nat.
Proof.
  apply (transcribe_all_chunks_call_bound (stub_env (scenario_plan 600))
           sample_engine resumed_plan
           (Some Orchestrator.on_chunk_progress)
           (Some (Orchestrator.on_chunk_checkpoint (stub_env (scenario_plan 600))
                    scenario_orchestrator "job00001"))
           initial_world).
  - intros cb [= <-] x y. apply calls_ret.
  - intros cb [= <-] x. apply calls_save_chunk_result.
Defined.

Example resumed_plan_calls :
  length (to_transcribe resumed_plan) = 1%nat /\
  w_calls (snd resumed_plan_run) = 1%nat /\
  w_trace (snd resumed_plan_run) =
    [EvProgress 1 2; EvTranscribe 1; EvCheckpoint 1; EvProgress 2 2].
Proof. vm_compute. repeat split; reflexivity. Qed.

(** ** More on the checkpoint store: round trips and queries *)

Lemma is_nat_pretty_N_char (d : N) :
  (d < 10)%N -> Ascii.is_nat (pretty_N_char d) = Some (N.to_nat d).
Proof.
  intros Hd.
  assert (d = 0 \/ d = 1 \/ d = 2 \/ d = 3 \/ d = 4 \/ d = 5 \/ d = 6 \/ d = 7
          \/ d = 8 \/ d = 9)%N as Hc by lia.
  repeat (destruct Hc as [->|Hc]; [reflexivity|]). subst d. reflexivity.
Qed.

Lemma parse_digits_pretty_N_go (x : N) : forall s,
  parse_digits 0 (pretty_N_go x s) = parse_digits (Z.of_N x) s.
Proof.
  induction (N.lt_wf_0 x) as [x _ IH]. intros s.
  destruct (decide (x = 0)%N) as [->|Hx]; [reflexivity|].
  rewrite pretty_N_go_step by lia.
  rewrite IH by (apply N.div_lt; lia).
  cbn [parse_digits]. rewrite is_nat_pretty_N_char by (apply N.mod_lt; lia).
  f_equal. rewrite N_nat_Z, N2Z.inj_div, N2Z.inj_mod.
  symmetry. apply Z.div_mod. lia.
Qed.

Lemma parse_digits_pretty_N (x : N) :
  parse_digits 0 (pretty x) = Some (Z.of_N x).
Proof.
  unfold pretty, pretty_N. destruct (decide (x = 0)%N) as [->|Hx]; [reflexivity|].
  rewrite parse_digits_pretty_N_go. reflexivity.
Qed.

Lemma fromisoformat_digits s z :
  parse_digits 0 s = Some z -> z <> 0 -> fromisoformat s = Some z.
Proof.
  intros Hp Hz. destruct s as [|a s]; [injection Hp as <-; contradiction|].
  unfold fromisoformat.
  destruct (Ascii.eqb_spec a "-") as [->|Ha]; [discriminate Hp|].
  destruct a as [[] [] [] [] [] [] [] []]; try exact Hp.
  exfalso. apply Ha. reflexivity.
Qed.

Lemma fromisoformat_isoformat (t : datetime) :
  fromisoformat (isoformat t) = Some t.
Proof.
  unfold isoformat, pretty, pretty_Z. destruct t as [|p|p].
  - reflexivity.
  - apply fromisoformat_digits; [|discriminate].
    apply (parse_digits_pretty_N (Npos p)).
  - pose proof (parse_digits_pretty_N (Npos p)) as Hp.
    unfold pretty, pretty_positive.
    destruct (pretty (N.pos p)) as [|a s] eqn:E; [discriminate Hp|].
    change ("-" +:+ String a s) with (String "-" (String a s)).
    cbn [fromisoformat]. rewrite Hp. reflexivity.
Qed.

Lemma as_opt_str_json o : as_opt_str (Some (json_opt_str o)) = Some o.
Proof. destruct o; reflexivity. Qed.

Lemma path_of_id o : o <> Some EmptyString -> path_of o = o.
Proof. destruct o as [[|a s]|]; [contradiction|reflexivity|reflexivity]. Qed.

Lemma isoformat_nonempty t : isoformat t <> EmptyString.
Proof.
  intros E. pose proof (fromisoformat_isoformat t) as H. rewrite E in H.
  discriminate H.
Qed.

Lemma segment_round_trip s : segment_from_dict (segment_to_dict s) = Some s.
Proof. destruct s as [a b t [sp|]]; reflexivity. Qed.

Lemma map_opt_round_trip {A} (enc : A -> json) (dec : json -> option A) l :
  Forall (fun x => dec (enc x) = Some x) l ->
  map_opt dec (map enc l) = Some l.
Proof.
  induction 1 as [|x l Hx _ IH]; [reflexivity|].
  cbn [map map_opt]. rewrite Hx, IH. reflexivity.
Qed.

Lemma ChunkStatus_round_trip st :
  ChunkStatus_of_value (ChunkStatus_value st) = Some st.
Proof. destruct st; reflexivity. Qed.

Lemma JobStatus_round_trip st :
  JobStatus_of_value (JobStatus_value st) = Some st.
Proof. destruct st; reflexivity. Qed.

Lemma Chunk_round_trip c :
  file_path c <> Some EmptyString ->
  Chunk_from_dict (Chunk_to_dict c) = Some c.
Proof.
  intros Hp. destruct c as [i s e o fp st tx segs ca er]. cbn in Hp.
  unfold Chunk_from_dict, Chunk_to_dict.
  cbn [dict_get String.eqb Ascii.eqb Bool.eqb as_list as_int as_float as_str
       index start_time end_time overlap_start file_path status text segments
       completed_at error mbind option_bind].
  rewrite (map_opt_round_trip segment_to_dict segment_from_dict segs)
    by (apply Forall_forall; intros; apply segment_round_trip).
  cbn [mbind option_bind].
  rewrite !as_opt_str_json, ChunkStatus_round_trip. cbn [mbind option_bind fmap option_fmap option_map].
  rewrite (path_of_id fp Hp).
  destruct ca as [t|]; cbn [option_map path_of]; [|reflexivity].
  pose proof (isoformat_nonempty t) as Hne.
  pose proof (fromisoformat_isoformat t) as Hiso.
  destruct (isoformat t) as [|a r]; [contradiction|].
  rewrite Hiso. reflexivity.
Qed.
Lemma JobState_round_trip st :
  JobState.from_dict (JobState.to_dict st) = Some st.
Proof.
  destruct st. unfold JobState.from_dict, JobState.to_dict.
  cbn [dict_get String.eqb Ascii.eqb Bool.eqb as_list as_int as_float as_str
       JobState.st_job_id JobState.st_video_path JobState.st_video_name
       JobState.st_created_at JobState.st_updated_at
       JobState.st_duration_seconds JobState.st_status JobState.st_error
       JobState.st_audio_path JobState.st_chunks_dir JobState.st_chunk_config
       JobState.st_chunks JobState.st_output_path
       JobState.st_transcription_text mbind option_bind].
  rewrite !as_opt_str_json. reflexivity.
Qed.

Lemma to_job_from_job config job chunks_dir :
  storable job ->
  JobState.to_job (JobState.from_job config job chunks_dir)
  = Some (set_job_segments job []).
Proof.
  intros (Hv & Ha & Ho & Hcs). destruct job as [id vp vn ca ua d st er ap cs op tt sg].
  cbn in Hv, Ha, Ho, Hcs.
  unfold JobState.to_job, JobState.from_job, set_job_segments.
  cbn [JobState.st_job_id JobState.st_video_path JobState.st_video_name
       JobState.st_created_at JobState.st_updated_at
       JobState.st_duration_seconds JobState.st_status JobState.st_error
       JobState.st_audio_path JobState.st_chunks_dir JobState.st_chunk_config
       JobState.st_chunks JobState.st_output_path
       JobState.st_transcription_text
       job_id video_path video_name created_at updated_at duration_seconds
       job_status job_error audio_path chunks output_path transcription_text
       job_segments].
  rewrite !fromisoformat_isoformat, JobStatus_round_trip.
  rewrite (map_opt_round_trip Chunk_to_dict Chunk_from_dict cs)
    by (eapply Forall_impl; [exact Hcs|]; intros c Hc; apply Chunk_round_trip, Hc).
  cbn [mbind option_bind].
  rewrite (path_of_id ap Ha), (path_of_id op Ho).
  replace (path_of (Some (default EmptyString vp))) with vp; [reflexivity|].
  destruct vp as [[|a s]|]; [contradiction|reflexivity|reflexivity].
Qed.

(** X15: a job survives the round trip through its persisted form
    ([JobState.from_job], [to_dict], [from_dict], [to_job], with
    [Chunk.to_dict] and [Chunk.from_dict] for the chunks) in every field
    but one: the job's [segments] come back empty, they are not part of
    the record. *)
Theorem job_record_round_trip (config : AudioChunker.t) (job : Job)
    (chunks_dir : option string) :
  storable job ->
  JobState.from_dict (JobState.to_dict (JobState.from_job config job chunks_dir))
    ≫= JobState.to_job
  = Some (set_job_segments job []).
Proof.
  intros Hs. rewrite JobState_round_trip. cbn [mbind option_bind].
  apply to_job_from_job, Hs.
Qed.

Lemma stored_job_storable : storable stored_job.
Proof.
  repeat split; try discriminate. repeat constructor; discriminate.
Qed.

Lemma job_record_round_trip_witness :
  JobState.from_dict
    (JobState.to_dict
       (JobState.from_job default_chunker stored_job
          (Some "temp/job00001_chunks"%string)))
    ≫= JobState.to_job
  = Some (set_job_segments stored_job []).
Proof.
  apply (job_record_round_trip default_chunker stored_job
           (Some "temp/job00001_chunks"%string)).
  repeat split; try discriminate. repeat constructor; discriminate.
Defined.

Lemma path_of_ne o : path_of o <> Some EmptyString.
Proof. destruct o as [[|a s]|]; discriminate. Qed.

Lemma Chunk_from_dict_storable j c :
  Chunk_from_dict j = Some c -> storable_chunk c.
Proof.
  unfold Chunk_from_dict, storable_chunk. destruct j; try discriminate.
  intros Hc. simplify_option_eq. apply path_of_ne.
Qed.

Lemma map_opt_Forall {A B} (f : A -> option B) (P : B -> Prop) l l' :
  (forall x y, f x = Some y -> P y) ->
  map_opt f l = Some l' -> Forall P l'.
Proof.
  intros Hf. revert l'. induction l as [|x l IH]; intros l' Hl.
  - injection Hl as <-. constructor.
  - cbn [map_opt] in Hl. simplify_option_eq. constructor; eauto.
Qed.

(** A job read from a record is storable and has no segments. *)
Lemma to_job_storable st job :
  JobState.to_job st = Some job -> storable job /\ job_segments job = [].
Proof.
  unfold JobState.to_job. intros Hj. simplify_option_eq.
  split; [|reflexivity]. unfold storable.
  cbn [video_path audio_path output_path chunks].
  assert (Hne : forall o : option string,
            o = None \/ (exists a s, o = Some (String a s)) ->
            o <> Some EmptyString)
    by (intros o [->|(a & s & ->)]; discriminate).
  split; [|split; [|split]];
    try apply path_of_ne;
    try (apply Hne; repeat case_match; eauto; fail).
  eapply map_opt_Forall; [|eassumption]. apply Chunk_from_dict_storable.
Qed.

Lemma set_job_segments_same job :
  job_segments job = [] -> set_job_segments job [] = job.
Proof. destruct job. cbn. intros ->. reflexivity. Qed.

Lemma replace_chunk_dense chunks chunk : forall (k : Z) (i : nat),
  dense_from k chunks -> index chunk = k + Z.of_nat i ->
  StateManager.replace_chunk chunks chunk = <[i := chunk]> chunks.
Proof.
  induction chunks as [|c rest IH]; intros k i Hd Hi; [reflexivity|].
  cbn [StateManager.replace_chunk].
  pose proof (Hd 0%nat c eq_refl) as Hc. rewrite Z.add_0_r in Hc.
  destruct i as [|i].
  - rewrite Z.add_0_r in Hi. rewrite Hc, Hi, Z.eqb_refl. reflexivity.
  - replace (index c =? index chunk) with false
      by (symmetry; apply Z.eqb_neq; lia).
    change (<[S i := chunk]> (c :: rest)) with (c :: <[i := chunk]> rest).
    f_equal. apply (IH (k + 1)).
    + intros j c' Hj. rewrite (Hd (S j) c' Hj). lia.
    + lia.
Qed.

Section StoreRoundTrip.
Context `{JsonLib}.

Lemma read_job_written env config job chunks_dir w :
  storable job ->
  disk env (job_id job) (w_clock w + 1) = IoOk ->
  json_loads (StateManager.job_text config (set_updated_at job (w_clock w)) chunks_dir)
  = Some (JobState.to_dict
            (JobState.from_job config (set_updated_at job (w_clock w)) chunks_dir)) ->
  StateManager.read_job
    (w_fs (snd (StateManager.save_job env config job chunks_dir w))) (job_id job)
  = Some (set_job_segments (set_updated_at job (w_clock w)) []).
Proof.
  intros Hs Hdisk Hcodec. rewrite save_job_run. cbn [snd with_fs w_fs].
  unfold StateManager.written. rewrite Hdisk.
  unfold StateManager.read_job. rewrite lookup_insert_eq. cbn [content].
  unfold StateManager.decode_job. rewrite Hcodec. cbn [mbind option_bind].
  rewrite JobState_round_trip. cbn [mbind option_bind].
  apply to_job_from_job. destruct Hs as (Hv & Ha & Ho & Hcs).
  repeat split; assumption.
Qed.

(** X16: a job saved with [save_job] and read back with [load_job] is the
    job that was saved, with the [updated_at] stamp of the save and without
    its [segments], provided the write succeeds and the JSON library reads
    back the document it wrote. *)
Theorem save_then_load (env : Env) (config : AudioChunker.t) (job : Job)
    (chunks_dir : option string) (w : World) :
  storable job ->
  disk env (job_id job) (w_clock w + 1) = IoOk ->
  json_loads (StateManager.job_text config (set_updated_at job (w_clock w)) chunks_dir)
  = Some (JobState.to_dict
            (JobState.from_job config (set_updated_at job (w_clock w)) chunks_dir)) ->
  fst (StateManager.load_job (job_id job)
         (snd (StateManager.save_job env config job chunks_dir w)))
  = Ok (Some (set_job_segments (set_updated_at job (w_clock w)) [])).
Proof.
  intros Hs Hdisk Hcodec. rewrite load_job_run. cbn [fst].
  rewrite (read_job_written env config job chunks_dir w Hs Hdisk Hcodec).
  reflexivity.
Qed.

End StoreRoundTrip.

Lemma save_then_load_witness :
  fst (StateManager.load_job (job_id stored_job)
         (snd (StateManager.save_job (stub_env []) default_chunker stored_job
                 (Some "temp/job00001_chunks"%string) stored_world)))
  = Ok (Some (set_job_segments (set_updated_at stored_job (w_clock stored_world)) [])).
Proof.
  apply (save_then_load (stub_env []) default_chunker stored_job
           (Some "temp/job00001_chunks"%string) stored_world).
  - repeat split; try discriminate. repeat constructor; discriminate.
  - reflexivity.
  - vm_compute. reflexivity.
Defined.

Section Checkpoints.
Context `{JsonLib}.

Lemma read_job_storable fs id job :
  StateManager.read_job fs id = Some job -> storable job /\ job_segments job = [].
Proof.
  unfold StateManager.read_job, StateManager.decode_job.
  destruct (fs !! id) as [f|]; [|discriminate].
  intros Hj. simplify_option_eq. eapply to_job_storable. eassumption.
Qed.

Lemma save_chunk_result_run env config id chunk job w :
  StateManager.read_job (w_fs w) id = Some job ->
  StateManager.save_chunk_result env config id chunk w
  = (Ok tt,
     snd (StateManager.save_job env config
            (set_chunks job (StateManager.replace_chunk (chunks job) chunk))
            None w)).
Proof.
  intros Hread. unfold StateManager.save_chunk_result. unfold bind at 1.
  rewrite load_job_run, Hread. unfold bind. rewrite save_job_run. reflexivity.
Qed.

(** X17: a checkpoint survives a reload.  After [save_chunk_result] of the
    result for chunk [i] of a stored job whose chunks carry their positions
    as indices, [load_job] returns the stored job with chunk [i] replaced
    by the result, the other chunks as they were and the [updated_at] stamp
    of the checkpoint, provided the write succeeds and the JSON library
    reads back the document it wrote. *)
Theorem checkpoint_survives_reload (env : Env) (config : AudioChunker.t)
    (id : string) (chunk : Chunk) (job : Job) (i : nat) (w : World) :
  StateManager.read_job (w_fs w) id = Some job ->
  job_id job = id ->
  dense_indices (chunks job) ->
  index chunk = Z.of_nat i ->
  storable_chunk chunk ->
  disk env id (w_clock w + 1) = IoOk ->
  json_loads (StateManager.job_text config
                (set_updated_at (set_chunks job (<[i := chunk]> (chunks job)))
                                (w_clock w)) None)
  = Some (JobState.to_dict
            (JobState.from_job config
               (set_updated_at (set_chunks job (<[i := chunk]> (chunks job)))
                               (w_clock w)) None)) ->
  fst (StateManager.load_job id
         (snd (StateManager.save_chunk_result env config id chunk w)))
  = Ok (Some (set_updated_at (set_chunks job (<[i := chunk]> (chunks job)))
                             (w_clock w))).
Proof.
  intros Hread Hid Hdense Hidx Hchunk Hdisk Hcodec.
  destruct (read_job_storable _ _ _ Hread) as [(Hv & Ha & Ho & Hcs) Hsegs].
  rewrite (save_chunk_result_run env config id chunk job w Hread). cbn [snd].
  rewrite (replace_chunk_dense (chunks job) chunk 0 i)
    by (try (intros j c Hj; rewrite (Hdense j c Hj)); lia).
  set (job1 := set_chunks job (<[i := chunk]> (chunks job))) in *.
  assert (Hs1 : storable job1).
  { repeat split; try assumption. subst job1. cbn [set_chunks chunks].
    apply Forall_insert; assumption. }
  assert (Hid1 : job_id job1 = id) by exact Hid.
  rewrite load_job_run. cbn [fst]. rewrite <- Hid1.
  rewrite (read_job_written env config job1 None w Hs1); [| |exact Hcodec].
  - rewrite set_job_segments_same; [reflexivity|]. exact Hsegs.
  - rewrite Hid1. exact Hdisk.
Qed.

(** X18: a checkpoint rewrites the record without the chunks directory.
    Whatever [chunks_dir] the record of a job held, after
    [save_chunk_result] [get_job_state] returns a state whose [chunks_dir]
    is [None], so a later resume does not learn where the chunk files
    are. *)
Theorem checkpoint_drops_chunks_dir (env : Env) (config : AudioChunker.t)
    (id : string) (chunk : Chunk) (job : Job) (w : World) :
  StateManager.read_job (w_fs w) id = Some job ->
  job_id job = id ->
  disk env id (w_clock w + 1) = IoOk ->
  json_loads (StateManager.job_text config
                (set_updated_at
                   (set_chunks job (StateManager.replace_chunk (chunks job) chunk))
                   (w_clock w)) None)
  = Some (JobState.to_dict
            (JobState.from_job config
               (set_updated_at
                  (set_chunks job (StateManager.replace_chunk (chunks job) chunk))
                  (w_clock w)) None)) ->
  exists state,
    fst (StateManager.get_job_state id
           (snd (StateManager.save_chunk_result env config id chunk w)))
    = Ok (Some state) /\
    JobState.st_chunks_dir state = None.
Proof.
  intros Hread Hid Hdisk Hcodec.
  rewrite (save_chunk_result_run env config id chunk job w Hread). cbn [snd].
  rewrite save_job_run. cbn [snd]. unfold StateManager.written.
  cbn [job_id set_chunks set_updated_at]. rewrite Hid, Hdisk.
  unfold StateManager.get_job_state, bind, get_world, get_state, ret.
  cbn [fst snd with_fs w_fs]. rewrite lookup_insert_eq. cbn [content].
  rewrite Hcodec. cbn [mbind option_bind]. rewrite JobState_round_trip.
  eexists. split; [reflexivity|]. reflexivity.
Qed.

End Checkpoints.

Lemma checkpoint_survives_reload_witness :
  fst (StateManager.load_job "job00001"
         (snd (StateManager.save_chunk_result (stub_env []) default_chunker
                 "job00001" second_result stored_world)))
  = Ok (Some (set_updated_at
                (set_chunks stored_job (<[1%nat := second_result]> (chunks stored_job)))
                (w_clock stored_world))).
Proof.
  apply (checkpoint_survives_reload (stub_env []) default_chunker "job00001"
           second_result stored_job 1 stored_world).
  - vm_compute. reflexivity.
  - reflexivity.
  - intros j c. destruct j as [|[|j]]; vm_compute; intros Hc;
      try discriminate Hc; injection Hc as <-; reflexivity.
  - reflexivity.
  - discriminate.
  - reflexivity.
  - vm_compute. reflexivity.
Defined.

Lemma checkpoint_drops_chunks_dir_witness :
  exists state,
    fst (StateManager.get_job_state "job00001"
           (snd (StateManager.save_chunk_result (stub_env []) default_chunker
                   "job00001" second_result stored_world)))
    = Ok (Some state) /\
    JobState.st_chunks_dir state = None.
Proof.
  apply (checkpoint_drops_chunks_dir (stub_env []) default_chunker "job00001"
           second_result stored_job stored_world).
  - vm_compute. reflexivity.
  - reflexivity.
  - reflexivity.
  - vm_compute. reflexivity.
Defined.

Example stored_record_has_chunks_dir :
  match fst (StateManager.get_job_state "job00001" stored_world) with
  | Ok (Some state) => JobState.st_chunks_dir state
  | _ => None
  end = Some "temp/job00001_chunks"%string.
Proof. vm_compute. reflexivity. Qed.

(** *** Listing the jobs *)

Lemma insert_sorted_newest_first x l :
  StronglySorted (fun a b : Job => created_at b <= created_at a) l ->
  StronglySorted (fun a b : Job => created_at b <= created_at a)
    (insert_sorted (fun a b : Job => created_at b <? created_at a) x l).
Proof.
  induction 1 as [|y l Hs IH Hall]; simpl; [repeat constructor|].
  destruct (created_at x <? created_at y) eqn:E.
  - apply Z.ltb_lt in E. constructor; [exact IH|].
    rewrite (insert_sorted_perm _ x l). constructor; [lia|exact Hall].
  - apply Z.ltb_ge in E. constructor; [constructor; assumption|].
    constructor; [exact E|].
    eapply Forall_impl; [exact Hall|]. intros z Hz. simpl in Hz. lia.
Qed.

Lemma py_sorted_newest_first l :
  StronglySorted (fun a b : Job => created_at b <= created_at a)
    (py_sorted (fun a b : Job => created_at b <? created_at a) l).
Proof.
  unfold py_sorted. induction l as [|x l IH]; simpl; [constructor|].
  apply insert_sorted_newest_first, IH.
Qed.

Lemma StronglySorted_List_filter {A} (R : A -> A -> Prop) (f : A -> bool) l :
  StronglySorted R l -> StronglySorted R (List.filter f l).
Proof.
  induction 1 as [|x l Hs IH Hall]; simpl; [constructor|].
  destruct (f x); [|exact IH]. constructor; [exact IH|].
  apply Forall_forall. intros y Hy. apply list_elem_of_In, filter_In in Hy as [Hy _].
  rewrite Forall_forall in Hall. apply Hall, list_elem_of_In, Hy.
Qed.

Section Queries.
Context `{JsonLib}.

Lemma get_all_jobs_elem w job :
  job ∈ py_sorted (fun a b : Job => created_at b <? created_at a)
          (omap (StateManager.read_job (w_fs w)) (map fst (map_to_list (w_fs w))))
  <-> exists stem, StateManager.read_job (w_fs w) stem = Some job.
Proof.
  rewrite list_elem_of_In, py_sorted_In, <- list_elem_of_In, list_elem_of_omap.
  split.
  - intros (stem & _ & Hread). eauto.
  - intros (stem & Hread). exists stem. split; [|exact Hread].
    unfold StateManager.read_job in Hread.
    destruct (w_fs w !! stem) as [f|] eqn:Hf; [|discriminate].
    apply list_elem_of_fmap. exists (stem, f). split; [reflexivity|].
    apply elem_of_map_to_list, Hf.
Qed.

(** X19: [get_all_jobs] returns the jobs of the readable records of the
    jobs directory, and only those, ordered by [created_at] with the newest
    first; records that cannot be read are skipped silently, and the
    directory is left as it was. *)
Theorem get_all_jobs_newest_first (w : World) :
  exists jobs,
    get_all_jobs w = (Ok jobs, w) /\
    StronglySorted (fun a b => created_at b <= created_at a) jobs /\
    (forall job, job ∈ jobs <->
       exists stem, StateManager.read_job (w_fs w) stem = Some job).
Proof.
  eexists. split; [reflexivity|]. split.
  - apply py_sorted_newest_first.
  - intros job. apply get_all_jobs_elem.
Qed.

(** X20: [get_incomplete_jobs] lists, newest first, exactly the readable
    records whose status is [EXTRACTING], [CHUNKING], [TRANSCRIBING],
    [MERGING] or [GENERATING]; a job stored as [PENDING] or [DIARIZING] is
    never offered for resumption, nor is a finished one. *)
Theorem get_incomplete_jobs_resumable (w : World) :
  exists jobs,
    get_incomplete_jobs w = (Ok jobs, w) /\
    StronglySorted (fun a b => created_at b <= created_at a) jobs /\
    (forall job, job ∈ jobs <->
       (exists stem, StateManager.read_job (w_fs w) stem = Some job) /\
       job_status job ∈ [JS_EXTRACTING; JS_CHUNKING; JS_TRANSCRIBING;
                         JS_MERGING; JS_GENERATING]).
Proof.
  eexists. split; [reflexivity|]. split.
  - apply StronglySorted_List_filter, py_sorted_newest_first.
  - intros job. rewrite list_elem_of_In, filter_In, <- list_elem_of_In.
    rewrite get_all_jobs_elem.
    assert (Hst : resumable (job_status job) = true <->
                  job_status job ∈ [JS_EXTRACTING; JS_CHUNKING; JS_TRANSCRIBING;
                                    JS_MERGING; JS_GENERATING]).
    { rewrite !elem_of_cons, elem_of_nil.
      destruct (job_status job); cbn; split; intros Hs;
        try discriminate Hs; try reflexivity; try tauto;
        repeat (destruct Hs as [Hs|Hs]; try discriminate Hs); contradiction. }
    rewrite Hst. reflexivity.
Qed.

(** X21: [update_job_status] on a stored job rewrites its record with the
    new status and error; read back, the job differs from the stored one in
    status, error and [updated_at] only (provided the write succeeds and the
    JSON library reads back the document it wrote).  Without a readable
    record nothing happens. *)
Theorem update_job_status_stored (env : Env) (config : AudioChunker.t)
    (id : string) (st : JobStatus) (err : option string) (job : Job) (w : World) :
  StateManager.read_job (w_fs w) id = Some job ->
  job_id job = id ->
  disk env id (w_clock w + 1) = IoOk ->
  json_loads (StateManager.job_text config
                (set_updated_at (set_job_error (set_job_status job st) err)
                                (w_clock w)) None)
  = Some (JobState.to_dict
            (JobState.from_job config
               (set_updated_at (set_job_error (set_job_status job st) err)
                               (w_clock w)) None)) ->
  fst (update_job_status env config id st err w) = Ok tt /\
  fst (StateManager.load_job id (snd (update_job_status env config id st err w)))
  = Ok (Some (set_updated_at (set_job_error (set_job_status job st) err)
                             (w_clock w))).
Proof.
  intros Hread Hid Hdisk Hcodec.
  destruct (read_job_storable _ _ _ Hread) as [(Hv & Ha & Ho & Hcs) Hsegs].
  set (job1 := set_job_error (set_job_status job st) err) in *.
  assert (Hrun : update_job_status env config id st err w
                 = (Ok tt, snd (StateManager.save_job env config job1 None w))).
  { subst job1. unfold update_job_status. unfold bind at 1.
    rewrite load_job_run, Hread. unfold bind. rewrite save_job_run. reflexivity. }
  rewrite Hrun. cbn [fst snd]. split; [reflexivity|].
  assert (Hs1 : storable job1) by (repeat split; assumption).
  assert (Hid1 : job_id job1 = id) by exact Hid.
  rewrite load_job_run. cbn [fst]. rewrite <- Hid1.
  rewrite (read_job_written env config job1 None w Hs1); [| |exact Hcodec].
  - rewrite set_job_segments_same; [reflexivity|]. exact Hsegs.
  - rewrite Hid1. exact Hdisk.
Qed.

End Queries.

Lemma update_job_status_stored_witness :
  fst (update_job_status (stub_env []) default_chunker "job00001" JS_FAILED
         (Some "boom"%string) stored_world) = Ok tt /\
  fst (StateManager.load_job "job00001"
         (snd (update_job_status (stub_env []) default_chunker "job00001"
                 JS_FAILED (Some "boom"%string) stored_world)))
  = Ok (Some (set_updated_at
                (set_job_error (set_job_status stored_job JS_FAILED)
                               (Some "boom"%string))
                (w_clock stored_world))).
Proof.
  apply (update_job_status_stored (stub_env []) default_chunker "job00001"
           JS_FAILED (Some "boom"%string) stored_job stored_world).
  - vm_compute. reflexivity.
  - reflexivity.
  - reflexivity.
  - vm_compute. reflexivity.
Defined.

Example archive_incomplete :
  match fst (get_incomplete_jobs archive_world) with
  | Ok jobs => map job_id jobs
  | Raise _ => []
  end = ["run00001"%string].
Proof. vm_compute. reflexivity. Qed.

(** ** More on the orchestrator: how a run ends *)

Lemma kc_ret {A} (a : A) : keeps_chunks (ret a).
Proof. intros s. reflexivity. Qed.

Lemma kc_raise {A} e : keeps_chunks (@raise (Job * World) A e).
Proof. intros s. reflexivity. Qed.

Lemma kc_bind {A B} (m : OM A) (k : A -> OM B) :
  keeps_chunks m -> (forall a, keeps_chunks (k a)) -> keeps_chunks (bind m k).
Proof.
  intros Hm Hk s. unfold bind. specialize (Hm s).
  destruct (m s) as [[a|e] s1]; simpl in *; [rewrite Hk|]; exact Hm.
Qed.

Lemma kc_lift {A} (m : M A) : keeps_chunks (lift m).
Proof. intros s. unfold lift. destruct (m (snd s)). reflexivity. Qed.

Lemma kc_get_job : keeps_chunks get_job.
Proof. intros s. reflexivity. Qed.

Lemma kc_modify_job f :
  (forall j, chunks (f j) = chunks j) -> keeps_chunks (modify_job f).
Proof. intros Hf s. apply Hf. Qed.

Lemma kc_step {A} (m : OM A) s a s' :
  keeps_chunks m -> m s = (Ok a, s') -> chunks (fst s') = chunks (fst s).
Proof. intros Hm Hrun. specialize (Hm s). rewrite Hrun in Hm. exact Hm. Qed.

Section Outcome.
Context `{JsonLib}.

Lemma set_status_and_save_run env self st chunks_dir s :
  exists w',
    Orchestrator.set_status_and_save env self st chunks_dir s
    = (Ok tt, (set_updated_at (set_job_status (fst s) st) (w_clock (snd s)), w')).
Proof.
  unfold Orchestrator.set_status_and_save, Orchestrator.save, bind, modify_job.
  cbn [fst snd]. rewrite save_job_run. eexists. reflexivity.
Qed.

Lemma kc_set_status_and_save env self st chunks_dir :
  keeps_chunks (Orchestrator.set_status_and_save env self st chunks_dir).
Proof.
  intros s. destruct (set_status_and_save_run env self st chunks_dir s) as [w' ->].
  reflexivity.
Qed.

Lemma kc_merge_stage self : keeps_chunks (Orchestrator.merge_stage self).
Proof.
  unfold Orchestrator.merge_stage.
  apply kc_bind; [apply kc_lift|intros _].
  apply kc_bind; [apply kc_get_job|intros job].
  destruct (ChunkMerger.merge_chunks _ _) as [full_text segments].
  apply kc_bind; [apply kc_modify_job; reflexivity|intros _]. apply kc_ret.
Qed.

Lemma kc_generate_stage env text segments :
  keeps_chunks (Orchestrator.generate_stage env text segments).
Proof.
  unfold Orchestrator.generate_stage.
  apply kc_bind; [apply kc_lift|intros _].
  destruct (generate_document env text segments); [|apply kc_raise].
  apply kc_bind; [apply kc_modify_job; reflexivity|intros _]. apply kc_ret.
Qed.

Lemma generate_stage_Ok env text segments s p s' :
  Orchestrator.generate_stage env text segments s = (Ok p, s') ->
  generate_document env text segments = Ok p /\ output_path (fst s') = Some p.
Proof.
  unfold Orchestrator.generate_stage. intros Hrun.
  apply bind_Ok_inv in Hrun as (_ & s1 & _ & Hrun).
  destruct (generate_document env text segments) as [p0|e]; [|discriminate Hrun].
  apply bind_Ok_inv in Hrun as (u & s2 & Hmod & Hrun).
  unfold modify_job in Hmod. unfold ret in Hrun.
  injection Hmod as _ <-. injection Hrun as <- <-. split; reflexivity.
Qed.

(** After a transcription stage that ends without an exception no chunk of
    the live job is left [PENDING]. *)
Lemma transcribe_stage_settles env self s u s' :
  Orchestrator.transcribe_stage env self s = (Ok u, s') ->
  Forall (fun c => status c = COMPLETED \/ status c = FAILED) (chunks (fst s')).
Proof.
  unfold Orchestrator.transcribe_stage.
  destruct (TranscriptionEngine.transcribe_all_chunks _ _ _ _ _ _)
    as [[r cs] w'] eqn:Hrun.
  destruct r as [e|]; [discriminate|]. intros Heq. simplify_eq.
  cbn [fst set_chunks chunks].
  apply transcribe_all_chunks_steps in Hrun.
  apply Forall_lookup. intros i c' Hi.
  destruct (Forall2_lookup_r _ _ _ _ _ Hrun Hi) as (c & Hc & Hkeep & _ & Hdone).
  destruct (decide (status c = COMPLETED)) as [Hst|Hst].
  - rewrite (Hkeep Hst). left. exact Hst.
  - destruct (Hdone eq_refl Hst) as (w0 & w1 & Ht).
    eapply transcribe_chunk_status, Ht.
Qed.

(** Peels the [bind]s of a run that returned. *)
Ltac peel Hrun :=
  repeat match type of Hrun with
  | bind _ _ _ = (Ok _, _) =>
    let a := fresh "a" in let s1 := fresh "s" in let Hstep := fresh "Hstep" in
    apply bind_Ok_inv in Hrun as (a & s1 & Hstep & Hrun)
  | (let '(_, _) := ?x in _) _ = _ => destruct x
  end.

Lemma execute_pipeline_Ok env self s r s' :
  Orchestrator._execute_pipeline env self s = (Ok r, s') ->
  exists p, r = Some p /\ job_status (fst s') = JS_COMPLETED /\
            output_path (fst s') = Some p /\
            Forall (fun c => status c = COMPLETED \/ status c = FAILED)
                   (chunks (fst s')).
Proof.
  unfold Orchestrator._execute_pipeline. intros Hrun. peel Hrun.
  injection Hrun as <- <-. exists a15. split; [reflexivity|].
  apply transcribe_stage_settles in Hstep11.
  apply (kc_step _ _ _ _ (kc_set_status_and_save _ _ _ _)) in Hstep12.
  apply (kc_step _ _ _ _ (kc_merge_stage _)) in Hstep13.
  assert (Hdiar : chunks (fst s16) = chunks (fst s14)).
  { revert Hstep14. apply kc_step.
    destruct (Orchestrator.use_diarization self); [|apply kc_ret].
    apply kc_bind; [apply kc_set_status_and_save|intros _].
    apply kc_bind; [apply kc_lift|intros _].
    destruct (Orchestrator.diarization_available self); [|apply kc_ret].
    destruct (diarize env l) as [segs|e].
    - apply kc_bind; [apply kc_modify_job; reflexivity|intros _]. apply kc_ret.
    - destruct (is_Exception e); [apply kc_ret|apply kc_raise]. }
  apply (kc_step _ _ _ _ (kc_set_status_and_save _ _ _ _)) in Hstep15.
  pose proof (kc_step _ _ _ _ (kc_generate_stage _ _ _) Hstep16) as Hgen.
  apply generate_stage_Ok in Hstep16 as [_ Hout].
  pose proof (kc_step _ _ _ _ (kc_set_status_and_save _ _ _ _) Hstep17) as Hsave.
  destruct (set_status_and_save_run env self JS_COMPLETED None s18) as [w' Hrun'].
  rewrite Hrun' in Hstep17.
  pose proof (kc_step _ _ _ _ (kc_lift _) Hstep18) as Hclean.
  unfold Orchestrator._cleanup, lift in Hstep18. cbn [fst snd emit] in Hstep18.
  rewrite Hclean, Hsave, Hgen, Hstep15, Hdiar, Hstep13, Hstep12.
  simplify_eq. cbn [fst]. split; [reflexivity|]. split; [exact Hout|exact Hstep11].
Qed.

(** X22: however a run of [process] ends, the live job says so.  When
    [process] returns a path the job is [COMPLETED], that path is its
    [output_path] and every chunk is [COMPLETED] or [FAILED]; when it
    returns [None] (the run was interrupted from the keyboard) the job is
    [CANCELLED]; and when it raises, the exception is a [BoutError], the
    job is [FAILED] and an error message is recorded in it. *)
Theorem process_outcome (env : Env) (self : Orchestrator.t) (s : Job * World) :
  match Orchestrator.process env self s with
  | (Ok (Some p), (job', _)) =>
    job_status job' = JS_COMPLETED /\ output_path job' = Some p /\
    Forall (fun c => status c = COMPLETED \/ status c = FAILED) (chunks job')
  | (Ok None, (job', _)) => job_status job' = JS_CANCELLED
  | (Raise e, (job', _)) =>
    is_BoutError e = true /\ job_status job' = JS_FAILED /\
    exists msg, job_error job' = Some msg
  end.
Proof.
  unfold Orchestrator.process, catch.
  destruct (Orchestrator._execute_pipeline env self s) as [[r|e] [job1 w1]] eqn:Hrun.
  - apply execute_pipeline_Ok in Hrun as (p & -> & Hst & Hout & Hcs). auto.
  - destruct e;
      try (unfold bind, modify_job, Orchestrator.save; cbn [fst snd];
           rewrite save_job_run; cbn; repeat split; eauto; fail).
    destruct (set_status_and_save_run env self JS_CANCELLED None (job1, w1))
      as [w' Hsave].
    unfold bind. rewrite Hsave. reflexivity.
Qed.

End Outcome.

(** *** Resuming *)

Section ResumeMore.
Context `{JsonLib}.

Lemma resume_with_state env self job w state :
  fst (StateManager.get_job_state (job_id job) w) = Ok (Some state) ->
  Orchestrator.resume env self (job, w)
  = catch (Orchestrator._resume_from_status env self)
      (fun e =>
         if is_Exception e then
           modify_job (fun j => set_job_error (set_job_status j JS_FAILED)
                                              (Some (exn_str e))) ;;;
           Orchestrator.save env self None ;;;
           raise e
         else raise e) (job, w).
Proof.
  intros Hst.
  assert (E : StateManager.get_job_state (job_id job) w = (Ok (Some state), w))
    by (rewrite <- Hst; reflexivity).
  unfold Orchestrator.resume. unfold bind at 1. cbn [get_job fst snd].
  unfold bind at 1, lift at 1. cbn [fst snd]. rewrite E. reflexivity.
Qed.

Lemma read_job_state w id job :
  StateManager.read_job (w_fs w) id = Some job ->
  exists state, fst (StateManager.get_job_state id w) = Ok (Some state).
Proof.
  unfold StateManager.read_job, StateManager.decode_job,
    StateManager.get_job_state, bind, get_world, get_state, ret.
  cbn [fst snd]. destruct (w_fs w !! id) as [f|]; [|discriminate].
  intros Hj. destruct (json_loads (content f)) as [data|]; [|discriminate Hj].
  cbn [mbind option_bind] in Hj |- *.
  destruct (JobState.from_dict data) as [state|]; [|discriminate Hj].
  exists state. reflexivity.
Qed.

(** X23: resuming a job stored in [MERGING] merges the stored chunks again
    and generates the document from the merged text and segments: with a
    generator that succeeds, [resume] returns the new path and leaves the
    job [COMPLETED] with that path, the merged text and the merged segments,
    its chunks untouched; only the merge, the generation and the cleanup
    run. *)
Theorem resume_from_merging (env : Env) (self : Orchestrator.t) (job : Job)
    (w : World) (text : string)
    (segs : list TranscriptionSegment) (p : string) :
  job_status job = JS_MERGING ->
  StateManager.read_job (w_fs w) (job_id job) = Some job ->
  ChunkMerger.merge_chunks (Orchestrator.chunk_merger self) (chunks job)
    = (text, segs) ->
  generate_document env text segs = Ok p ->
  exists job' w',
    Orchestrator.resume env self (job, w) = (Ok (Some p), (job', w')) /\
    job_status job' = JS_COMPLETED /\ output_path job' = Some p /\
    transcription_text job' = Some text /\ job_segments job' = segs /\
    chunks job' = chunks job /\
    w_trace w' = w_trace w ++ [EvMerge; EvGenerate; EvCleanup].
Proof.
  intros Hst Hread Hmerge Hgen.
  destruct (read_job_state _ _ _ Hread) as [state Hstate].
  rewrite (resume_with_state env self job w state Hstate).
  unfold catch, Orchestrator._resume_from_status.
  unfold Orchestrator.set_status_and_save, Orchestrator.merge_stage,
    Orchestrator.generate_stage,
    Orchestrator._cleanup, Orchestrator.save, bind, get_job, modify_job, lift,
    emit, ret.
  destruct job as [id vp vn ca ua ds st er ap cs op tt sg].
  cbn [job_status chunks] in Hst, Hmerge. subst st.
  rewrite decide_False by discriminate.
  repeat first [ progress cbn [fst snd job_status orb chunks set_job_status
                               set_transcription transcription_text job_segments
                               default from_option Datatypes.id]
               | rewrite bool_decide_eq_false_2 by discriminate
               | rewrite bool_decide_eq_true_2 by reflexivity
               | rewrite Hmerge
               | rewrite Hgen ].
  rewrite save_job_run. cbn. eexists _, _. split; [reflexivity|].
  rewrite <- !app_assoc. repeat split; reflexivity.
Qed.

(** X24: resuming a job stored in [GENERATING] generates the document from
    the stored text and from no segments at all, since the segments of a job
    are not part of its record: with a generator that succeeds on that
    input, [resume] returns the new path and leaves the job [COMPLETED];
    only the generation and the cleanup run. *)
Theorem resume_from_generating (env : Env) (self : Orchestrator.t) (job : Job)
    (w : World) (p : string) :
  job_status job = JS_GENERATING ->
  StateManager.read_job (w_fs w) (job_id job) = Some job ->
  generate_document env (default EmptyString (transcription_text job)) [] = Ok p ->
  exists job' w',
    Orchestrator.resume env self (job, w) = (Ok (Some p), (job', w')) /\
    job_status job' = JS_COMPLETED /\ output_path job' = Some p /\
    transcription_text job' = transcription_text job /\ job_segments job' = [] /\
    w_trace w' = w_trace w ++ [EvGenerate; EvCleanup].
Proof.
  intros Hst Hread Hgen.
  destruct (read_job_state _ _ _ Hread) as [state Hstate].
  destruct (read_job_storable _ _ _ Hread) as [_ Hsegs].
  rewrite (resume_with_state env self job w state Hstate).
  unfold catch, Orchestrator._resume_from_status.
  unfold Orchestrator.set_status_and_save, Orchestrator.merge_stage,
    Orchestrator.generate_stage,
    Orchestrator._cleanup, Orchestrator.save, bind, get_job, modify_job, lift,
    emit, ret.
  destruct job as [id vp vn ca ua ds st er ap cs op tt sg].
  cbn [job_status job_segments transcription_text] in Hst, Hsegs, Hgen.
  subst st sg.
  rewrite decide_False by discriminate.
  repeat first [ progress cbn [fst snd job_status orb chunks set_job_status
                               set_transcription transcription_text job_segments]
               | rewrite bool_decide_eq_false_2 by discriminate
               | rewrite bool_decide_eq_true_2 by reflexivity
               | rewrite Hgen ].
  rewrite save_job_run. cbn. eexists _, _. split; [reflexivity|].
  rewrite <- !app_assoc. repeat split; reflexivity.
Qed.

(** X25: resuming a job whose status is none of [TRANSCRIBING], [MERGING]
    and [GENERATING] (a [COMPLETED] job, say) runs no stage: [resume]
    returns the [output_path] the job already has, marks the job
    [COMPLETED] with a new [updated_at], saves it and runs the cleanup. *)
Theorem resume_runs_no_stage (env : Env) (self : Orchestrator.t) (job : Job)
    (w : World) :
  job_status job <> JS_TRANSCRIBING -> job_status job <> JS_MERGING ->
  job_status job <> JS_GENERATING ->
  StateManager.read_job (w_fs w) (job_id job) = Some job ->
  exists w',
    Orchestrator.resume env self (job, w)
    = (Ok (output_path job),
       (set_updated_at (set_job_status job JS_COMPLETED) (w_clock w), w')) /\
    w_trace w' = w_trace w ++ [EvCleanup].
Proof.
  intros Ht Hm Hg Hread.
  destruct (read_job_state _ _ _ Hread) as [state Hstate].
  rewrite (resume_with_state env self job w state Hstate).
  unfold catch, Orchestrator._resume_from_status.
  unfold Orchestrator.set_status_and_save, Orchestrator._cleanup,
    Orchestrator.save, bind, get_job, modify_job, lift, emit, ret.
  rewrite decide_False by exact Ht.
  repeat first [ progress cbn [fst snd orb]
               | rewrite bool_decide_eq_false_2 by assumption ].
  rewrite save_job_run. cbn. eexists. split; reflexivity.
Qed.

End ResumeMore.

Lemma resume_from_merging_witness :
  exists job' w',
    Orchestrator.resume (stub_env []) scenario_orchestrator
      (merging_job, merging_world)
    = (Ok (Some "output/video.docx"%string), (job', w')) /\
    job_status job' = JS_COMPLETED /\
    output_path job' = Some "output/video.docx"%string /\
    transcription_text job' = Some "T_0 T_1"%string /\
    job_segments job' = [mkSegment 0 300 "T_0" None; mkSegment 290 600 "T_1" None] /\
    chunks job' = chunks merging_job /\
    w_trace w' = w_trace merging_world ++ [EvMerge; EvGenerate; EvCleanup].
Proof.
  apply (resume_from_merging (stub_env []) scenario_orchestrator merging_job
           merging_world).
  - reflexivity.
  - vm_compute. reflexivity.
  - vm_compute. reflexivity.
  - reflexivity.
Defined.

Lemma resume_from_generating_witness :
  exists job' w',
    Orchestrator.resume (stub_env []) scenario_orchestrator
      (generating_job, generating_world)
    = (Ok (Some "output/video.docx"%string), (job', w')) /\
    job_status job' = JS_COMPLETED /\
    output_path job' = Some "output/video.docx"%string /\
    transcription_text job' = transcription_text generating_job /\
    job_segments job' = [] /\
    w_trace w' = w_trace generating_world ++ [EvGenerate; EvCleanup].
Proof.
  apply (resume_from_generating (stub_env []) scenario_orchestrator
           generating_job generating_world).
  - reflexivity.
  - vm_compute. reflexivity.
  - reflexivity.
Defined.

Lemma resume_runs_no_stage_witness :
  exists w',
    Orchestrator.resume (stub_env []) scenario_orchestrator
      (finished_job, archive_world)
    = (Ok (output_path finished_job),
       (set_updated_at (set_job_status finished_job JS_COMPLETED)
                       (w_clock archive_world), w')) /\
    w_trace w' = w_trace archive_world ++ [EvCleanup].
Proof.
  apply (resume_runs_no_stage (stub_env []) scenario_orchestrator finished_job
           archive_world).
  - discriminate.
  - discriminate.
  - discriminate.
  - vm_compute. reflexivity.
Defined.

(** ** Speaker labels *)

Lemma py_max_ge_l a b : (a <= py_max a b)%Q.
Proof.
  unfold py_max. destruct (Qltb a b) eqn:E; [|lra]. apply Qltb_lt in E. lra.
Qed.

Lemma overlap_nonneg seg d : (0 <= DiarizationEngine.overlap seg d)%Q.
Proof. apply py_max_ge_l. Qed.

Lemma best_speaker_loop_spec seg : forall turns bs bo,
  (DiarizationEngine.best_speaker_loop seg turns bs bo = bs /\
   forall d, d ∈ turns -> (DiarizationEngine.overlap seg d <= bo)%Q) \/
  (exists (k : nat) d,
     turns !! k = Some d /\
     (bo < DiarizationEngine.overlap seg d)%Q /\
     (forall d', d' ∈ turns ->
        (DiarizationEngine.overlap seg d' <= DiarizationEngine.overlap seg d)%Q) /\
     (forall (j : nat) d', (j < k)%nat -> turns !! j = Some d' ->
        (DiarizationEngine.overlap seg d' < DiarizationEngine.overlap seg d)%Q) /\
     DiarizationEngine.best_speaker_loop seg turns bs bo
       = Some (DiarizationEngine.turn_speaker d)).
Proof.
  induction turns as [|d rest IH]; intros bs bo.
  - left. split; [reflexivity|]. intros d Hd. apply elem_of_nil in Hd. destruct Hd.
  - cbn [DiarizationEngine.best_speaker_loop].
    destruct (Qltb bo (DiarizationEngine.overlap seg d)) eqn:E.
    + apply Qltb_lt in E. right.
      destruct (IH (Some (DiarizationEngine.turn_speaker d))
                   (DiarizationEngine.overlap seg d))
        as [[Hres Hall]|(k & d2 & Hk & Hlt & Hmax & Hfirst & Hres)].
      * exists 0%nat, d. split; [reflexivity|]. split; [exact E|].
        split; [|split; [intros j d' Hj; lia|exact Hres]].
        intros d' Hd'. apply elem_of_cons in Hd' as [->|Hd']; [lra|auto].
      * exists (S k), d2. split; [exact Hk|]. split; [lra|].
        split; [|split; [|exact Hres]].
        -- intros d' Hd'. apply elem_of_cons in Hd' as [->|Hd']; [lra|auto].
        -- intros j d' Hj Hd'. destruct j as [|j].
           ++ injection Hd' as <-. exact Hlt.
           ++ apply (Hfirst j d'); [lia|exact Hd'].
    + apply Qltb_ge in E.
      destruct (IH bs bo)
        as [[Hres Hall]|(k & d2 & Hk & Hlt & Hmax & Hfirst & Hres)].
      * left. split; [exact Hres|].
        intros d' Hd'. apply elem_of_cons in Hd' as [->|Hd']; [exact E|auto].
      * right. exists (S k), d2. split; [exact Hk|]. split; [exact Hlt|].
        split; [|split; [|exact Hres]].
        -- intros d' Hd'. apply elem_of_cons in Hd' as [->|Hd']; [lra|auto].
        -- intros j d' Hj Hd'. destruct j as [|j].
           ++ injection Hd' as <-. lra.
           ++ apply (Hfirst j d'); [lia|exact Hd'].
Qed.

Lemma or_default_nonempty o : DiarizationEngine.or_default o <> EmptyString.
Proof. destruct o as [[|a s]|]; discriminate. Qed.


Lemma append_assoc' (a b c : string) : (a +:+ b) +:+ c = a +:+ (b +:+ c).
Proof.
  induction a as [|x a IH]; [reflexivity|].
  change (String x a +:+ b) with (String x (a +:+ b)).
  change (String x (a +:+ b) +:+ c) with (String x ((a +:+ b) +:+ c)).
  rewrite IH. reflexivity.
Qed.

Lemma py_join_cons sep a l :
  l <> [] -> py_join sep (a :: l) = a +:+ sep +:+ py_join sep l.
Proof. destruct l; [contradiction|reflexivity]. Qed.

Lemma consolidate_loop_cons gap : forall rest current,
  exists first others,
    DiarizationEngine.consolidate_loop gap current rest = first :: others /\
    seg_start first = seg_start current /\
    seg_speaker first = seg_speaker current.
Proof.
  induction rest as [|seg rest IH]; intros current.
  - exists current, []. auto.
  - cbn [DiarizationEngine.consolidate_loop].
    destruct (DiarizationEngine.mergeable gap current seg).
    + destruct (IH (DiarizationEngine.extend current seg))
        as (first & others & -> & Hs & Hp).
      exists first, others. auto.
    + exists current, (DiarizationEngine.consolidate_loop gap
                         (mkSegment (seg_start seg) (seg_end seg) (seg_text seg)
                                    (seg_speaker seg)) rest).
      auto.
Qed.

Lemma consolidate_loop_text gap : forall rest current,
  py_join " " (map seg_text (DiarizationEngine.consolidate_loop gap current rest))
  = py_join " " (seg_text current :: map seg_text rest).
Proof.
  induction rest as [|seg rest IH]; intros current; [reflexivity|].
  cbn [DiarizationEngine.consolidate_loop].
  destruct (DiarizationEngine.mergeable gap current seg).
  - rewrite IH. cbn [DiarizationEngine.extend seg_text map].
    destruct rest as [|seg' rest']; [reflexivity|].
    cbn [map]. rewrite !py_join_cons by discriminate.
    rewrite !append_assoc'. reflexivity.
  - destruct (consolidate_loop_cons gap rest
                (mkSegment (seg_start seg) (seg_end seg) (seg_text seg)
                           (seg_speaker seg))) as (first & others & Hl & _).
    cbn [map]. rewrite py_join_cons by (rewrite Hl; discriminate).
    rewrite IH. reflexivity.
Qed.

Lemma consolidate_loop_length gap : forall rest current,
  (length (DiarizationEngine.consolidate_loop gap current rest) <= S (length rest))%nat.
Proof.
  induction rest as [|seg rest IH]; intros current; [simpl; lia|].
  cbn [DiarizationEngine.consolidate_loop].
  destruct (DiarizationEngine.mergeable gap current seg).
  - specialize (IH (DiarizationEngine.extend current seg)). simpl. lia.
  - specialize (IH (mkSegment (seg_start seg) (seg_end seg) (seg_text seg)
                              (seg_speaker seg))). simpl. lia.
Qed.

Lemma consolidate_loop_last gap : forall rest current,
  option_map seg_end (last (DiarizationEngine.consolidate_loop gap current rest))
  = option_map seg_end (last (current :: rest)).
Proof.
  induction rest as [|seg rest IH]; intros current; [reflexivity|].
  cbn [DiarizationEngine.consolidate_loop].
  destruct (DiarizationEngine.mergeable gap current seg).
  - rewrite IH. destruct rest; reflexivity.
  - destruct (consolidate_loop_cons gap rest
                (mkSegment (seg_start seg) (seg_end seg) (seg_text seg)
                           (seg_speaker seg))) as (first & others & Hl & _).
    rewrite Hl, last_cons_cons, <- Hl, IH. destruct rest; reflexivity.
Qed.

(** X27: [consolidate_segments] loses no text and no time: the texts of
    the consolidated segments, joined by single spaces, are the texts of the
    given segments joined by single spaces; there are at most as many
    consolidated segments; the first one starts where the first given
    segment starts and the last one ends where the last given segment
    ends.  (An empty list gives an empty list.) *)
Theorem consolidate_segments_keeps_text (segments : list TranscriptionSegment)
    (gap_threshold : Q) :
  py_join " " (map seg_text
                 (DiarizationEngine.consolidate_segments segments gap_threshold))
  = py_join " " (map seg_text segments) /\
  (length (DiarizationEngine.consolidate_segments segments gap_threshold)
   <= length segments)%nat /\
  option_map seg_start
    (head (DiarizationEngine.consolidate_segments segments gap_threshold))
  = option_map seg_start (head segments) /\
  option_map seg_end
    (last (DiarizationEngine.consolidate_segments segments gap_threshold))
  = option_map seg_end (last segments).
Proof.
  destruct segments as [|first rest]; [repeat split; reflexivity|].
  cbn [DiarizationEngine.consolidate_segments]. split; [|split; [|split]].
  - apply consolidate_loop_text.
  - apply consolidate_loop_length.
  - destruct (consolidate_loop_cons gap_threshold rest first)
      as (f & others & -> & Hs & _). cbn. rewrite Hs. reflexivity.
  - apply consolidate_loop_last.
Qed.

Lemma mergeable_ext gap a b b' :
  seg_start b' = seg_start b -> seg_speaker b' = seg_speaker b ->
  DiarizationEngine.mergeable gap a b' = DiarizationEngine.mergeable gap a b.
Proof. unfold DiarizationEngine.mergeable. intros -> ->. reflexivity. Qed.

Lemma consolidate_loop_maximal gap : forall rest current (i : nat) a b,
  DiarizationEngine.consolidate_loop gap current rest !! i = Some a ->
  DiarizationEngine.consolidate_loop gap current rest !! S i = Some b ->
  DiarizationEngine.mergeable gap a b = false.
Proof.
  induction rest as [|seg rest IH]; intros current i a b Ha Hb.
  - destruct i; discriminate Hb.
  - cbn [DiarizationEngine.consolidate_loop] in Ha, Hb.
    destruct (DiarizationEngine.mergeable gap current seg) eqn:E.
    + eapply IH; eassumption.
    + destruct i as [|i].
      * injection Ha as <-.
        destruct (consolidate_loop_cons gap rest
                    (mkSegment (seg_start seg) (seg_end seg) (seg_text seg)
                               (seg_speaker seg))) as (first & others & Hl & Hs & Hp).
        cbn in Hb. rewrite Hl in Hb. injection Hb as <-.
        rewrite (mergeable_ext gap current seg first); [exact E|exact Hs|exact Hp].
      * eapply IH; [exact Ha|exact Hb].
Qed.

(** X28: [consolidate_segments] merges all it can: two consecutive
    segments of its result always differ in speaker or lie more than
    [gap_threshold] apart. *)
Theorem consolidate_segments_maximal (segments : list TranscriptionSegment)
    (gap_threshold : Q) (i : nat) (a b : TranscriptionSegment) :
  DiarizationEngine.consolidate_segments segments gap_threshold !! i = Some a ->
  DiarizationEngine.consolidate_segments segments gap_threshold !! S i = Some b ->
  seg_speaker b <> seg_speaker a \/ (gap_threshold < seg_start b - seg_end a)%Q.
Proof.
  intros Ha Hb. destruct segments as [|first rest]; [discriminate Ha|].
  pose proof (consolidate_loop_maximal gap_threshold rest first i a b Ha Hb) as Hm.
  unfold DiarizationEngine.mergeable in Hm.
  apply andb_false_iff in Hm as [Hm|Hm].
  - left. apply bool_decide_eq_false in Hm. exact Hm.
  - right. apply Qleb_gt in Hm. exact Hm.
Qed.

Lemma consolidate_segments_maximal_witness :
  seg_speaker (mkSegment 9 12 "bien" (Some "Hablante 2"%string))
  <> seg_speaker (mkSegment 0 8 "hola como estas" (Some "Hablante 1"%string)) \/
  (1 < seg_start (mkSegment 9 12 "bien" (Some "Hablante 2"%string))
       - seg_end (mkSegment 0 8 "hola como estas" (Some "Hablante 1"%string)))%Q.
Proof.
  apply (consolidate_segments_maximal
           (DiarizationEngine.merge_with_transcription talk_segments talk_turns)
           1 0).
  - reflexivity.
  - reflexivity.
Defined.

Example talk_labelled :
  DiarizationEngine.consolidate_segments
    (DiarizationEngine.merge_with_transcription talk_segments talk_turns) 1
  = [mkSegment 0 8 "hola como estas" (Some "Hablante 1"%string);
     mkSegment 9 12 "bien" (Some "Hablante 2"%string);
     mkSegment 20 22 "adios" (Some "Hablante 1"%string)].
Proof. reflexivity. Qed.

(** ** Splitting the audio and reporting progress *)

(** X29: [split_audio] gives every chunk the path of its file and changes
    nothing else in it: when every chunk file can be cut, the result is the
    chunk list in order with [file_path] set.  Otherwise it stops at the
    first chunk whose file cannot be cut and raises a [ChunkingError] that
    names the index of that chunk and carries the message of the failure;
    the job and the store are untouched either way. *)
Theorem split_audio_paths (env : Env) : forall (chunks : list Chunk) (s : Job * World),
  match Orchestrator.split_audio env chunks s with
  | (Ok cs, s') =>
    s' = s /\
    Forall2 (fun c c' => exists p, split_audio_file env c = Ok p /\
                                   c' = Orchestrator.set_file_path c (Some p))
            chunks cs
  | (Raise e, s') =>
    s' = s /\
    exists (i : nat) c e0,
      chunks !! i = Some c /\ split_audio_file env c = Raise e0 /\
      (forall (j : nat) c', (j < i)%nat -> chunks !! j = Some c' ->
         exists p, split_audio_file env c' = Ok p) /\
      e = (if is_Exception e0 then
             ChunkingError ("Audio chunking failed: Chunk " +:+ pretty (index c)
                            +:+ ": " +:+ exn_str e0)
           else e0)
  end.
Proof.
  intros cs. induction cs as [|c rest IH]; intros s.
  - cbn. split; [reflexivity|constructor].
  - cbn [Orchestrator.split_audio].
    destruct (split_audio_file env c) as [p|e0] eqn:Hc.
    + unfold bind. specialize (IH s).
      destruct (Orchestrator.split_audio env rest s) as [[cs|e] s1].
      * destruct IH as [-> Hall]. cbn. split; [reflexivity|].
        constructor; [eauto|exact Hall].
      * destruct IH as [-> (i & c' & e0 & Hi & He0 & Hbefore & ->)].
        split; [reflexivity|]. exists (S i), c', e0.
        split; [exact Hi|]. split; [exact He0|]. split; [|reflexivity].
        intros j c'' Hj Hc''. destruct j as [|j].
        -- injection Hc'' as <-. eauto.
        -- apply (Hbefore j c''); [lia|exact Hc''].
    + destruct (is_Exception e0) eqn:Hexn; unfold raise;
        (split; [reflexivity|]); exists 0%nat, c, e0;
        (split; [reflexivity|]); (split; [exact Hc|]);
        (split; [intros j c' Hj; lia|]); rewrite Hexn; reflexivity.
Qed.

Lemma completed_le_total j : (completed_chunks j <= total_chunks j)%nat.
Proof. unfold completed_chunks, total_chunks. apply filter_length_le. Qed.

Lemma filter_all_length {A} (f : A -> bool) l :
  length (List.filter f l) = length l <-> Forall (fun x => f x = true) l.
Proof.
  induction l as [|x l IH]; simpl; [split; [constructor|reflexivity]|].
  pose proof (filter_length_le f l) as Hle.
  destruct (f x) eqn:E; simpl.
  - split.
    + intros Hl. constructor; [exact E|]. apply IH. lia.
    + intros Hall. apply Forall_cons in Hall as [_ Hall]. f_equal. apply IH, Hall.
  - split; [lia|]. intros Hall. apply Forall_cons in Hall as [Hx _]. congruence.
Qed.

(** X30: the progress a job reports lies between 0 and 1, and it is 1
    exactly when the job is [COMPLETED], or is not [FAILED] and has chunks
    that are all [COMPLETED] (so a job still merging or generating already
    reports 1, and a [FAILED] job reports 0 whatever its chunks are). *)
Theorem Job_progress_bounds (j : Job) :
  (0 <= Job_progress j)%Q /\ (Job_progress j <= 1)%Q /\
  ((Job_progress j == 1)%Q <->
   job_status j = JS_COMPLETED \/
   (job_status j <> JS_FAILED /\ chunks j <> [] /\
    Forall (fun c => status c = COMPLETED) (chunks j))).
Proof.
  unfold Job_progress.
  destruct (decide (job_status j = JS_COMPLETED)) as [Hc|Hc].
  { split; [lra|]. split; [lra|]. split; [auto|reflexivity]. }
  destruct (decide (job_status j = JS_FAILED)) as [Hf|Hf].
  { split; [lra|]. split; [lra|]. split; [lra|].
    intros [?|[? _]]; contradiction. }
  pose proof (completed_le_total j) as Hle.
  unfold completed_chunks, total_chunks in *.
  destruct (chunks j) as [|c cs] eqn:Hcs.
  { split; [lra|]. split; [lra|]. split; [lra|].
    intros [?|(_ & Hne & _)]; contradiction. }
  set (l := c :: cs) in *.
  set (n := length (List.filter (fun c0 => bool_decide (status c0 = COMPLETED)) l)) in *.
  assert (Hpos : (0 < inject_Z (Z.of_nat (length l)))%Q).
  { change 0%Q with (inject_Z 0). rewrite <- Zlt_Qlt. subst l. simpl. lia. }
  assert (Hn0 : (0 <= inject_Z (Z.of_nat n))%Q).
  { change 0%Q with (inject_Z 0). rewrite <- Zle_Qle. lia. }
  assert (Hnl : (inject_Z (Z.of_nat n) <= inject_Z (Z.of_nat (length l)))%Q).
  { rewrite <- Zle_Qle. lia. }
  split; [apply Qle_shift_div_l; [exact Hpos|lra]|].
  split; [apply Qle_shift_div_r; [exact Hpos|lra]|].
  split.
  - intros Hq. right. split; [exact Hf|]. split; [discriminate|].
    assert (Heq : (inject_Z (Z.of_nat n) == inject_Z (Z.of_nat (length l)))%Q).
    { rewrite <- (Qmult_div_r (inject_Z (Z.of_nat n)) (inject_Z (Z.of_nat (length l))))
        by lra. rewrite Hq. lra. }
    rewrite inject_Z_injective in Heq. apply Nat2Z.inj in Heq.
    apply filter_all_length in Heq.
    eapply Forall_impl; [exact Heq|]. intros x Hx.
    apply bool_decide_eq_true in Hx. exact Hx.
  - intros [?|(_ & _ & Hall)]; [contradiction|].
    assert (Heq : n = length l).
    { apply filter_all_length. eapply Forall_impl; [exact Hall|].
      intros x Hx. apply bool_decide_eq_true. exact Hx. }
    rewrite Heq. field. lra.
Qed.

Example split_audio_failure :
  fst (Orchestrator.split_audio split_failing_env (scenario_plan 600)
         (scenario_job 600, initial_world))
  = Raise (ChunkingError "Audio chunking failed: Chunk 1: disk full").
Proof. vm_compute. reflexivity. Qed.

Example merging_job_progress : (Job_progress merging_job == 1)%Q.
Proof. vm_compute. reflexivity. Qed.

(** ** A model error that is not an out-of-memory error ends the job *)

Lemma load_model_ready env self w d :
  model_ready env self w d ->
  exists w1, TranscriptionEngine.load_model env self w = (Ok tt, w1) /\
             w_model w1 = Some d.
Proof.
  intros [Hm|(Hm & Hd & Hl)].
  - exists w. split; [apply (load_model_loaded _ _ _ _ Hm)|exact Hm].
  - unfold TranscriptionEngine.load_model, bind, get_world, get_state.
    rewrite Hm, Hd. cbn [set_device fst snd]. rewrite Hl.
    eexists. split; reflexivity.
Qed.

(** With the model loaded and the file in place, an answer of the model at
    the first call completes the chunk; the model stays loaded. *)
Lemma transcribe_chunk_answers env self chunk d w :
  model_answers env d chunk -> w_model w = Some d ->
  exists c' w',
    TranscriptionEngine.transcribe_chunk env self chunk 3 w = (Ok c', w') /\
    w_model w' = Some d.
Proof.
  intros [Hfile Hans] Hm. destruct (Hans (w_calls w)) as [r Hr].
  unfold TranscriptionEngine.transcribe_chunk. rewrite Hfile.
  rewrite (bind_Ok _ _ _ _ _ (load_model_loaded env self w d Hm)).
  rewrite (attempts_retry env self chunk 3 d r 0 0 3 w ltac:(lia) ltac:(lia) Hm).
  - eexists _, _. split; [reflexivity|exact Hm].
  - intros j Hj. lia.
  - rewrite Nat.add_0_r. exact Hr.
Qed.

Section Fatal.
Context `{JsonLib}.

Lemma save_chunk_result_model env config id chunk w :
  exists w', StateManager.save_chunk_result env config id chunk w = (Ok tt, w') /\
             w_model w' = w_model w.
Proof.
  unfold StateManager.save_chunk_result. unfold bind at 1. rewrite load_job_run.
  destruct (StateManager.read_job (w_fs w) id) as [job|].
  - unfold bind. rewrite save_job_run. eexists. split; reflexivity.
  - eexists. split; reflexivity.
Qed.

Lemma call_progress_run a b w :
  TranscriptionEngine.call_progress (Some Orchestrator.on_chunk_progress) a b w
  = (Ok tt, snd (emit (EvProgress a b) w)).
Proof. reflexivity. Qed.

Lemma call_checkpoint_model env self id c w :
  exists w',
    TranscriptionEngine.call_checkpoint
      (Some (Orchestrator.on_chunk_checkpoint env self id)) c w = (Ok tt, w') /\
    w_model w' = w_model w.
Proof.
  unfold TranscriptionEngine.call_checkpoint, Orchestrator.on_chunk_checkpoint.
  unfold bind at 1. cbn [emit fst snd].
  match goal with
  | |- context [StateManager.save_chunk_result _ _ _ _ ?w1] =>
    destruct (save_chunk_result_model env (Orchestrator.config_chunk self) id c w1)
      as (w' & Hsave & Hm)
  end.
  exists w'. split; [exact Hsave|exact Hm].
Qed.

(** The batch driver, run with the orchestrator's callbacks, gets through
    the chunks that are done or that the model answers for, and stops at the
    first chunk for which the model raises an error that is not an
    out-of-memory error: that chunk and the chunks after it are left as they
    were. *)
Lemma chunk_loop_reaches_error env engine self id d msg total chunk rest :
  TranscriptionEngine.file_missing env chunk = false ->
  status chunk <> COMPLETED ->
  (forall n, whisper_transcribe env d (default "None"%string (file_path chunk)) n
             = Raise (RuntimeError msg)) ->
  is_oom_message msg = false ->
  forall done completed w,
    w_model w = Some d ->
    Forall (fun c => status c = COMPLETED \/ model_answers env d c) done ->
    exists done' w',
      TranscriptionEngine.chunk_loop env engine
        (Some Orchestrator.on_chunk_progress)
        (Some (Orchestrator.on_chunk_checkpoint env self id))
        total completed (done ++ chunk :: rest) w
      = ((Some (TranscriptionError
                  ("Chunk " +:+ pretty (index chunk) +:+ ": " +:+ msg)),
          done' ++ chunk :: rest), w') /\
      length done' = length done.
Proof.
  intros Hfile Hst Hbad Hoom done.
  induction done as [|c done IH]; intros completed w Hm Hdone.
  - exists [], (snd (next_call (snd (emit (EvTranscribe (index chunk)) w)))).
    split; [|reflexivity]. cbn [app].
    apply chunk_loop_stops; [exact Hst|].
    apply (transcribe_chunk_non_oom _ _ _ _ d msg Hfile); [exact Hm|apply Hbad|exact Hoom].
  - apply Forall_cons in Hdone as [Hc Hdone].
    cbn [app TranscriptionEngine.chunk_loop].
    destruct (decide (status c = COMPLETED)) as [Hdone_c|Hnot].
    + rewrite call_progress_run.
      destruct (IH (completed + 1)
                  (snd (emit (EvProgress (completed + 1) total) w)) Hm Hdone)
        as (done' & w' & Hrun & Hlen).
      rewrite Hrun. exists (c :: done'), w'. split; [reflexivity|].
      cbn [length]. rewrite Hlen. reflexivity.
    + destruct Hc as [Hc|Hc]; [contradiction|].
      unfold bind at 1. cbn [emit fst snd].
      match goal with
      | |- context [TranscriptionEngine.transcribe_chunk _ _ _ _ ?w1] =>
        destruct (transcribe_chunk_answers env engine c d w1 Hc Hm)
          as (c' & w2 & Hrun & Hm2)
      end.
      rewrite Hrun.
      destruct (call_checkpoint_model env self id c' w2) as (w3 & Hsave & Hm3).
      rewrite (bind_Ok _ _ _ _ _ Hsave), call_progress_run.
      destruct (IH (completed + 1)
                  (snd (emit (EvProgress (completed + 1) total) w3)))
        as (done' & w' & Hloop & Hlen);
        [cbn [emit snd w_model]; rewrite Hm3; exact Hm2|exact Hdone|].
      rewrite Hloop. exists (c' :: done'), w'. split; [reflexivity|].
      cbn [length]. rewrite Hlen. reflexivity.
Qed.

Lemma split_audio_Ok env planned cs s :
  Forall2 (fun c c' => exists p, split_audio_file env c = Ok p /\
                                 c' = Orchestrator.set_file_path c (Some p))
          planned cs ->
  Orchestrator.split_audio env planned s = (Ok cs, s).
Proof.
  induction 1 as [|c c' planned cs (p & Hp & ->) _ IH];
    cbn [Orchestrator.split_audio]; [reflexivity|].
  rewrite Hp. unfold bind. rewrite IH. reflexivity.
Qed.

Lemma save_state env self chunks_dir s :
  exists w',
    Orchestrator.save env self chunks_dir s
    = (Ok tt, (set_updated_at (fst s) (w_clock (snd s)), w')) /\
    w_model w' = w_model (snd s).
Proof.
  unfold Orchestrator.save. rewrite save_job_run. eexists. split; reflexivity.
Qed.

Lemma set_status_and_save_state env self st chunks_dir s :
  exists w',
    Orchestrator.set_status_and_save env self st chunks_dir s
    = (Ok tt, (set_updated_at (set_job_status (fst s) st) (w_clock (snd s)), w')) /\
    w_model w' = w_model (snd s).
Proof.
  unfold Orchestrator.set_status_and_save. unfold bind, modify_job. cbn [fst snd].
  destruct (save_state env self chunks_dir (set_job_status (fst s) st, snd s))
    as (w' & Hsave & Hm).
  rewrite Hsave. eexists. split; [reflexivity|exact Hm].
Qed.

(** Runs the first step of a computation when it returns by computation. *)
Ltac ok_step :=
  match goal with
  | |- context [bind ?m ?k ?s] => rewrite (bind_Ok m k s _ _ eq_refl); cbv beta; cbn [fst snd]
  end.

(** When the audio is extracted, planned and cut, the pipeline reaches the
    transcription stage with the staged chunks in the job and the model as
    it was; an exception of that stage leaves the pipeline. *)
Lemma execute_pipeline_transcription env self job w audio planned cs :
  extract_audio env (default EmptyString (video_path job)) = Ok audio ->
  AudioChunker.calculate_chunks (Orchestrator.config_chunk self)
    (duration_seconds job) = Some planned ->
  staged_chunks env audio planned cs ->
  exists job3 w3,
    chunks job3 = cs /\ job_id job3 = job_id job /\ w_model w3 = w_model w /\
    forall e s',
      Orchestrator.transcribe_stage env self (job3, w3) = (Raise e, s') ->
      Orchestrator._execute_pipeline env self (job, w) = (Raise e, s').
Proof.
  intros He Hp Hs. unfold Orchestrator._execute_pipeline.
  ok_step.
  destruct (set_status_and_save_state env self JS_EXTRACTING None (job, w))
    as (w1 & H1 & M1).
  rewrite (bind_Ok _ _ _ _ _ H1). cbv beta. cbn [fst snd] in *.
  ok_step. rewrite He. ok_step. ok_step.
  match goal with
  | |- context [bind (Orchestrator.set_status_and_save _ _ JS_CHUNKING None) _ ?s] =>
    destruct (set_status_and_save_state env self JS_CHUNKING None s)
      as (w2 & H2 & M2)
  end.
  rewrite (bind_Ok _ _ _ _ _ H2). cbv beta. cbn [fst snd] in *.
  ok_step. rewrite Hp. ok_step.
  match goal with
  | |- context [bind ?m _ ?s] =>
    assert (Hsplit : exists w3, m s = (Ok cs, (fst s, w3)) /\ w_model w3 = w_model (snd s))
  end.
  { unfold staged_chunks in Hs.
    destruct (1 <? Z.of_nat (length planned)).
    - unfold bind at 1. cbn [lift emit fst snd].
      rewrite (split_audio_Ok env planned cs _ Hs). eexists. split; reflexivity.
    - destruct Hs as (c & rest & -> & ->). eexists. split; reflexivity. }
  destruct Hsplit as (w3 & H3 & M3).
  rewrite (bind_Ok _ _ _ _ _ H3). cbv beta. cbn [fst snd] in *.
  ok_step.
  match goal with
  | |- context [bind (Orchestrator.save _ _ ?d) _ ?s] =>
    destruct (save_state env self d s) as (w4 & H4 & M4)
  end.
  rewrite (bind_Ok _ _ _ _ _ H4). cbv beta. cbn [fst snd] in *.
  match goal with
  | |- context [bind (Orchestrator.set_status_and_save _ _ JS_TRANSCRIBING ?d) _ ?s] =>
    destruct (set_status_and_save_state env self JS_TRANSCRIBING d s)
      as (w5 & H5 & M5)
  end.
  rewrite (bind_Ok _ _ _ _ _ H5). cbv beta. cbn [fst snd] in *.
  eexists _, w5. split; [|split; [|split]]; cycle 3.
  - intros e s' Hts. apply bind_Raise. exact Hts.
  - reflexivity.
  - reflexivity.
  - cbn [w_model] in *. congruence.
Qed.

End Fatal.



(** The run of the witness: the first chunk is transcribed and saved, the
    model fails on the second, which stays [PENDING], and the job ends
    [FAILED], in memory and on disk. *)
Example second_chunk_error_run :
  let '(r, (job, w)) := Orchestrator.process second_broken_env scenario_orchestrator
                          (scenario_job 600, initial_world) in
  r = Raise (TranscriptionError "Chunk 1: cuDNN error") /\
  job_status job = JS_FAILED /\
  job_error job = Some "Chunk 1: cuDNN error"%string /\
  map status (chunks job) = [COMPLETED; PENDING] /\
  w_calls w = 2%nat /\
  option_map job_status (StateManager.read_job (w_fs w) "job00001")
    = Some JS_FAILED.
Proof. vm_compute. repeat split; reflexivity. Qed.
